(** * Pipeline orchestrator: a shallow embedding and its verified properties

    The development embeds the two orchestrators of the repository,
    [PipelineOrchestrator] (src/pipeline_orchestrator.py) and
    [SimplePipelineOrchestrator] (src/simple_pipeline_orchestrator.py), as
    executable functions in a state-and-exception monad, and states the
    properties of the specification about them.

    Modelling conventions.
    - Python dictionaries whose keys are strings are [gmap string _].
    - Clock readings ([time.time()], [datetime.now()]), delays and timeouts
      are integers (seconds); durations in milliseconds are their
      differences times 1000.  The clock advances in a [session.post] and in
      a sleep, by any amount; the statements in between are taken to be
      instantaneous, so the properties speak of the order of the readings
      and never of two readings being equal.
    - The downstream services are an oracle: the n-th [session.post] of an
      orchestrator's life receives the n-th outcome, which is either an
      exception (transport error, error status, undecodable body) or the
      decoded JSON object, and takes some time.  What the HTTP adapter of
      the session retries on its own happens inside one [session.post].
    - The sleeps, the posts, the per-attempt warning of the retry loop and
      the write of the execution log file are recorded in a trace; the other
      logger calls have no influence on the control flow and are left out.
    - The file system is a third oracle: it says, for the n-th execution
      of the history, whether the log directory can be created and whether
      the record can be written to its file.
    - The health check makes at most one [session.get] per component; the
      outcomes of these probes are a second oracle, indexed by the name of
      the component that is probed.
    - The configuration file is read once, by the constructor; what is found
      at its path is an input of [_load_config]. *)

From stdpp Require Import gmap strings list fin_maps pretty sorting.
From Stdlib Require Import ZArith QArith Lia.

#[global] Set Warnings "-clear-no-such-hyp".

(** ** Data model *)

Inductive StepStatus := PENDING | IN_PROGRESS | COMPLETED | FAILED | SKIPPED.

#[global] Instance StepStatus_eq_dec : EqDecision StepStatus.
Proof. solve_decision. Defined.

Inductive PipelineMode := QUICK | ANALYSIS | FULL.

(** [PipelineMode.value] *)
Definition mode_value (mode : PipelineMode) : string :=
  match mode with
  | QUICK => "quick_mode"
  | ANALYSIS => "analysis_mode"
  | FULL => "full_pipeline"
  end.

(** JSON values, the [Any] of the type annotations (numbers are integers). *)
#[warnings="-register-all"]
Inductive Any :=
| ANone
| ABool (b : bool)
| AInt (z : Z)
| AStr (s : string)
| AList (l : list Any)
| AObj (d : list (string * Any)).

Abbreviation Dict := (gmap string Any).

(** Truth value of a dictionary: non-empty. *)
Definition dict_truthy (d : Dict) : bool := negb (Nat.eqb (size d) 0).

(** [d.update(other)]: the keys of [other] win. *)
Definition dict_update (d other : Dict) : Dict := other ∪ d.

Module PipelineStep.
Record t := mk {
  name : string;
  component : string;
  status : StepStatus;
  start_time : option Z;
  end_time : option Z;
  duration_ms : option Z;
  input_data : option Dict;
  output_data : option Dict;
  error : option string;
  retry_count : Z
}.
End PipelineStep.

Module PipelineExecution.
Record t := mk {
  execution_id : string;
  mode : PipelineMode;
  status : StepStatus;
  start_time : Z;
  end_time : option Z;
  total_duration_ms : option Z;
  steps : list PipelineStep.t;
  error : option string
}.
End PipelineExecution.

(** ** Configuration

    The configuration file is not part of the sources; its shape is the one
    the code reads.  A key the code reads with [.get(key, default)] is
    optional; [sc_enabled] and [component_enabled] are optional because the
    synchronous variant reads them with a default while the asynchronous
    one indexes them. *)

Record StepConfig := {
  sc_name : string;
  sc_component : string;
  sc_enabled : option bool;
  sc_endpoint : string;
  sc_timeout : option Z;
  sc_retry_count : option Z;
  sc_required_fields : option (list string)
}.

Record ComponentConfig := {
  base_url : string;
  health_endpoint : string;
  component_enabled : option bool
}.

Record CircuitBreakerConfig := {
  cb_enabled : bool;
  failure_threshold : Z;
  recovery_timeout : Z
}.

Record ErrorHandling := {
  retry_delays : list Z;
  circuit_breaker : CircuitBreakerConfig;
  fallback_responses : option (gmap string Dict)
}.

Record Routing := {
  default_flow : list string;
  bypass_modes : gmap string (list string)
}.

Record Config := {
  sequence_steps : list StepConfig;
  routing : Routing;
  components : gmap string ComponentConfig;
  error_handling : ErrorHandling
}.

(** ** Circuit breaker records, exceptions, the world *)

Inductive BreakerState := closed | open | half_open.

#[global] Instance BreakerState_eq_dec : EqDecision BreakerState.
Proof. solve_decision. Defined.

Record Breaker := {
  failures : Z;
  last_failure : option Z;
  state : BreakerState
}.

Inductive Exn :=
| ValueError (msg : string)
| KeyError (key : string)
| IndexError (msg : string)
| TypeError (msg : string)
| RequestException (msg : string)
| OSError (msg : string)
| Exception (msg : string).

(** [repr] of a string: between single quotes, or between double quotes
    when the string has a single quote and no double quote; the quote in use
    and the backslash are escaped, tab, newline and carriage return are
    written with their letter and the other control characters in
    hexadecimal.  The bytes outside ASCII are copied, as [repr] copies the
    printable characters. *)
Definition single_quote : Ascii.ascii := Ascii.ascii_of_nat 39.
Definition double_quote : Ascii.ascii := Ascii.ascii_of_nat 34.
Definition backslash : Ascii.ascii := Ascii.ascii_of_nat 92.

Fixpoint string_has (c : Ascii.ascii) (s : string) : bool :=
  match s with
  | EmptyString => false
  | String a rest => Ascii.eqb a c || string_has c rest
  end.

(** A hexadecimal digit, in lower case. *)
Definition hex_digit (n : nat) : string :=
  String (Ascii.ascii_of_nat (if (n <? 10)%nat then 48 + n else 87 + n)%nat) EmptyString.

Definition repr_char (quote c : Ascii.ascii) : string :=
  let n := Ascii.nat_of_ascii c in
  if Ascii.eqb c quote || Ascii.eqb c backslash then String backslash (String c EmptyString)
  else if (n =? 9)%nat then String backslash "t"
  else if (n =? 10)%nat then String backslash "n"
  else if (n =? 13)%nat then String backslash "r"
  else if (n <? 32)%nat || (n =? 127)%nat
       then String backslash "x" +:+ hex_digit (n / 16)%nat +:+ hex_digit (n mod 16)%nat
  else String c EmptyString.

Fixpoint repr_chars (quote : Ascii.ascii) (s : string) : string :=
  match s with
  | EmptyString => EmptyString
  | String c rest => repr_char quote c +:+ repr_chars quote rest
  end.

Definition repr_str (s : string) : string :=
  let quote := if string_has single_quote s && negb (string_has double_quote s)
               then double_quote else single_quote in
  String quote (repr_chars quote s) +:+ String quote EmptyString.

(** [str(e)]; the text of a [KeyError] is the [repr] of the key. *)
Definition str (e : Exn) : string :=
  match e with
  | KeyError key => repr_str key
  | ValueError msg | IndexError msg | TypeError msg
  | RequestException msg | OSError msg | Exception msg => msg
  end.

(** The outcome of [session.post(..); raise_for_status(); json()]. *)
Record HttpOutcome := {
  elapsed : Z;
  reply : Exn + Dict
}.

(** What the file system does when the log of an execution is saved:
    [Path("logs").mkdir(exist_ok=True)] raises (the path is a file, the
    working directory cannot be written), or the directory is there and
    [open] or [json.dump] raises, or the record is written. *)
Inductive LogOutcome :=
| MkdirRaises (e : Exn)
| DumpRaises (e : Exn)
| Saved.

Inductive Event :=
| EvPost (url : string) (json : Dict) (timeout : Z)
| EvSleep (delay : Z)
| EvAttemptFailed (step : string) (attempt : Z) (err : string)
| EvSaveLog (execution_id : string).

(** The mutable state of an orchestrator and of its environment; the trace
    has the most recent event first. *)
Record World := {
  circuit_breakers : gmap string Breaker;
  execution_history : list PipelineExecution.t;
  clock : Z;
  trace : list Event
}.

Definition is_post (ev : Event) : bool :=
  match ev with EvPost _ _ _ => true | _ => false end.
Definition is_sleep (ev : Event) : bool :=
  match ev with EvSleep _ => true | _ => false end.
Definition is_attempt_failed (ev : Event) : bool :=
  match ev with EvAttemptFailed _ _ _ => true | _ => false end.

Definition count_events (p : Event → bool) (w : World) : nat :=
  length (List.filter p (trace w)).

Definition http_calls (w : World) : nat := count_events is_post w.
Definition sleep_count (w : World) : nat := count_events is_sleep w.
Definition failed_attempts (w : World) : nat := count_events is_attempt_failed w.

Definition set_breakers (f : gmap string Breaker → gmap string Breaker) (w : World) : World :=
  {| circuit_breakers := f (circuit_breakers w);
     execution_history := execution_history w;
     clock := clock w;
     trace := trace w |}.

Definition set_history (f : list PipelineExecution.t → list PipelineExecution.t) (w : World) : World :=
  {| circuit_breakers := circuit_breakers w;
     execution_history := f (execution_history w);
     clock := clock w;
     trace := trace w |}.

Definition set_clock (now : Z) (w : World) : World :=
  {| circuit_breakers := circuit_breakers w;
     execution_history := execution_history w;
     clock := now;
     trace := trace w |}.

Definition emit (ev : Event) (w : World) : World :=
  {| circuit_breakers := circuit_breakers w;
     execution_history := execution_history w;
     clock := clock w;
     trace := ev :: trace w |}.

(** ** The monad: state and exceptions

    An exception leaves the state as it was when it was raised. *)

Inductive Result (A : Type) :=
| Ok (a : A)
| Raise (e : Exn).
Arguments Ok {A} a.
Arguments Raise {A} e.

Definition M (S A : Type) : Type := S → Result A * S.

Definition ret {S A} (a : A) : M S A := fun s => (Ok a, s).
Definition raise {S A} (e : Exn) : M S A := fun s => (Raise e, s).
Definition bind {S A B} (m : M S A) (k : A → M S B) : M S B :=
  fun s => match m s with
           | (Ok a, s') => k a s'
           | (Raise e, s') => (Raise e, s')
           end.
Definition get {S} : M S S := fun s => (Ok s, s).
Definition modify {S} (f : S → S) : M S unit := fun s => (Ok tt, f s).

(** [try: body except Exception as e: handler e] *)
Definition try_except {S A} (body : M S A) (handler : Exn → M S A) : M S A :=
  fun s => match body s with
           | (Ok a, s') => (Ok a, s')
           | (Raise e, s') => handler e s'
           end.

(** [try: body finally: final] *)
Definition try_finally {S A} (body : M S A) (final : M S unit) : M S A :=
  fun s => match body s with
           | (r, s') => match final s' with
                        | (Ok _, s'') => (r, s'')
                        | (Raise e, s'') => (Raise e, s'')
                        end
           end.

(** Running a computation on the world inside a larger state. *)
Definition lift {L A} (m : M World A) : M (World * L) A :=
  fun '(w, l) => match m w with (r, w') => (r, (w', l)) end.

Declare Scope monad_scope.
Delimit Scope monad_scope with monad.
Notation "'let*' x ':=' m 'in' k" := (bind m (fun x => k))
  (at level 10, x pattern, m at level 100, k at level 200, only parsing) : monad_scope.
Notation "m '>>' k" := (bind m (fun _ => k))
  (at level 100, k at level 200, right associativity, only parsing) : monad_scope.
Local Open Scope monad_scope.
Local Open Scope Z_scope.

(** ** Python helpers *)

(** [l[i]] with Python's negative indices. *)
Definition list_getitem {A} (l : list A) (i : Z) : option A :=
  let n := Z.of_nat (length l) in
  if (0 <=? i) && (i <? n) then l !! Z.to_nat i
  else if (- n <=? i) && (i <? 0) then l !! Z.to_nat (n + i)
  else None.

(** [range(n)] *)
Definition range (n : Z) : list Z := Z.of_nat <$> seq 0 (Z.to_nat n).

(** [sep.join(l)] *)
Fixpoint join (sep : string) (l : list string) : string :=
  match l with
  | [] => ""
  | [s] => s
  | s :: rest => s +:+ sep +:+ join sep rest
  end.
(** [repr] of a list of strings. *)
Definition repr_str_list (l : list string) : string :=
  "[" +:+ join ", " (repr_str <$> l) +:+ "]".

(** A clock reading is true when it is neither [None] nor zero. *)
Definition time_truthy (t : option Z) : bool :=
  match t with
  | Some t => negb (t =? 0)
  | None => false
  end.

(** [time.time()] and [datetime.now()]: a reading of the clock.  A reading
    takes no time; the clock advances in the posts and the sleeps, and
    between the calls of the orchestrator. *)
Definition time : M World Z := fun w => (Ok (clock w), w).

Definition sleep (delay : Z) : M World unit :=
  fun w => (Ok tt, emit (EvSleep delay) (set_clock (clock w + Z.max 0 delay) w)).

(** [key in d] *)
Definition dict_contains {V} (d : gmap string V) (key : string) : bool :=
  match d !! key with Some _ => true | None => false end.

(** [d[key]] *)
Definition getitem {S V} (d : gmap string V) (key : string) : M S V :=
  match d !! key with
  | Some v => ret v
  | None => raise (KeyError key)
  end.

(** The local variables of [execute_pipeline] that its [try] block
    mutates: they keep their value when the block raises. *)
Record Locals := {
  execution : PipelineExecution.t;
  current_data : Dict
}.

Inductive Flow := Continue | Break.

Definition get_locals : M (World * Locals) Locals := fun s => (Ok (snd s), s).

Definition set_execution (f : PipelineExecution.t → PipelineExecution.t) :
  M (World * Locals) unit :=
  modify (fun s => (fst s, {| execution := f (execution (snd s));
                              current_data := current_data (snd s) |})).

Definition set_current_data (f : Dict → Dict) : M (World * Locals) unit :=
  modify (fun s => (fst s, {| execution := execution (snd s);
                              current_data := f (current_data (snd s)) |})).

Definition with_steps (f : list PipelineStep.t → list PipelineStep.t)
  (ex : PipelineExecution.t) : PipelineExecution.t :=
  PipelineExecution.mk (PipelineExecution.execution_id ex) (PipelineExecution.mode ex)
    (PipelineExecution.status ex) (PipelineExecution.start_time ex)
    (PipelineExecution.end_time ex) (PipelineExecution.total_duration_ms ex)
    (f (PipelineExecution.steps ex)) (PipelineExecution.error ex).

Definition with_status (st : StepStatus) (ex : PipelineExecution.t) : PipelineExecution.t :=
  PipelineExecution.mk (PipelineExecution.execution_id ex) (PipelineExecution.mode ex)
    st (PipelineExecution.start_time ex)
    (PipelineExecution.end_time ex) (PipelineExecution.total_duration_ms ex)
    (PipelineExecution.steps ex) (PipelineExecution.error ex).

Definition with_error (err : string) (ex : PipelineExecution.t) : PipelineExecution.t :=
  PipelineExecution.mk (PipelineExecution.execution_id ex) (PipelineExecution.mode ex)
    (PipelineExecution.status ex) (PipelineExecution.start_time ex)
    (PipelineExecution.end_time ex) (PipelineExecution.total_duration_ms ex)
    (PipelineExecution.steps ex) (Some err).

(** [execution.end_time = now; execution.total_duration_ms = ...] *)
Definition with_end (now : Z) (ex : PipelineExecution.t) : PipelineExecution.t :=
  PipelineExecution.mk (PipelineExecution.execution_id ex) (PipelineExecution.mode ex)
    (PipelineExecution.status ex) (PipelineExecution.start_time ex)
    (Some now) (Some ((now - PipelineExecution.start_time ex) * 1000))
    (PipelineExecution.steps ex) (PipelineExecution.error ex).

(** The step object created by the loop is the last element of
    [execution.steps] until the next one is appended: assignments to its
    attributes are updates of that element. *)
Definition update_last {A} (f : A → A) (l : list A) : list A :=
  match reverse l with
  | [] => []
  | x :: rest => reverse rest ++ [f x]
  end.

Definition modify_step (f : PipelineStep.t → PipelineStep.t) : M (World * Locals) unit :=
  set_execution (with_steps (update_last f)).

Definition new_step (step_name component : string) (now : Z) (input : Dict) : PipelineStep.t :=
  PipelineStep.mk step_name component IN_PROGRESS (Some now) None None (Some input) None None 0.

Definition duration_since (start : option Z) (now : Z) : Z :=
  (now - default 0 start) * 1000.

(** The assignments of the success branch. *)
Definition step_completed (step_result : Dict) (now : Z) (step : PipelineStep.t) : PipelineStep.t :=
  PipelineStep.mk (PipelineStep.name step) (PipelineStep.component step) COMPLETED
    (PipelineStep.start_time step) (Some now)
    (Some (duration_since (PipelineStep.start_time step) now))
    (PipelineStep.input_data step) (Some step_result)
    (PipelineStep.error step) (PipelineStep.retry_count step).

(** The assignments of the [except] branch. *)
Definition step_failed (err : string) (now : Z) (step : PipelineStep.t) : PipelineStep.t :=
  PipelineStep.mk (PipelineStep.name step) (PipelineStep.component step) FAILED
    (PipelineStep.start_time step) (Some now)
    (Some (duration_since (PipelineStep.start_time step) now))
    (PipelineStep.input_data step) (PipelineStep.output_data step)
    (Some err) (PipelineStep.retry_count step).

(** ** Metrics values

    The values of the dictionary [get_pipeline_metrics] returns.  The two
    rates are exact rationals rounded to two decimals, ties to even; Python
    rounds the binary float nearest to the rational, which can fall on the
    other side of a tie (23/160 is 14.375: 14.38 here, 14.37 there).
    [MTime] stands for the ISO rendering of a clock reading. *)

Inductive MetricValue :=
| MInt (n : Z)
| MFloat (q : Q)
| MTime (t : Z).

Definition round_half_even (q : Q) : Z :=
  let n := Qnum q in
  let d := Z.pos (Qden q) in
  let f := n / d in
  let r := n mod d in
  if 2 * r <? d then f
  else if d <? 2 * r then f + 1
  else if Z.even f then f else f + 1.

(** [round(q, 2)] *)
Definition round2 (q : Q) : Q := Qmake (round_half_even (q * 100)%Q) 100.

(** [sum(e.total_duration_ms or 0 for e in executions)] *)
Definition sum_durations (executions : list PipelineExecution.t) : Z :=
  foldr (fun e acc => default 0 (PipelineExecution.total_duration_ms e) + acc) 0 executions.

(** ** Reports: the history and the health of the components *)

(** [sorted(l, key=key, reverse=True)]: descending by key; the sort is
    stable, elements with equal keys keep the order they had. *)
Fixpoint insert_reverse {A} (key : A → Z) (x : A) (l : list A) : list A :=
  match l with
  | [] => [x]
  | y :: rest => if key y <=? key x then x :: l else y :: insert_reverse key x rest
  end.

Definition sorted_reverse {A} (key : A → Z) (l : list A) : list A :=
  foldr (insert_reverse key) [] l.

(** [l[:limit]]: a negative limit counts from the end. *)
Definition slice_to {A} (limit : Z) (l : list A) : list A :=
  if 0 <=? limit then take (Z.to_nat limit) l
  else take (length l - Z.to_nat (- limit)) l.

(** The values of the dictionaries that [asdict] and the health check
    build; a dataclass becomes the list of its fields, in their order. *)
#[warnings="-register-all"]
Inductive Field :=
| FNone
| FBool (b : bool)
| FInt (z : Z)
| FStr (s : string)
| FDatetime (t : Z)
| FStatus (st : StepStatus)
| FMode (m : PipelineMode)
| FData (d : Dict)
| FRecords (l : list (list (string * Field))).

Definition field_of {A} (f : A → Field) (v : option A) : Field :=
  match v with
  | Some a => f a
  | None => FNone
  end.

(** [asdict(step)] *)
Definition asdict_step (step : PipelineStep.t) : list (string * Field) :=
  [ ("name", FStr (PipelineStep.name step));
    ("component", FStr (PipelineStep.component step));
    ("status", FStatus (PipelineStep.status step));
    ("start_time", field_of FDatetime (PipelineStep.start_time step));
    ("end_time", field_of FDatetime (PipelineStep.end_time step));
    ("duration_ms", field_of FInt (PipelineStep.duration_ms step));
    ("input_data", field_of FData (PipelineStep.input_data step));
    ("output_data", field_of FData (PipelineStep.output_data step));
    ("error", field_of FStr (PipelineStep.error step));
    ("retry_count", FInt (PipelineStep.retry_count step)) ].

(** [asdict(execution)] *)
Definition asdict (execution : PipelineExecution.t) : list (string * Field) :=
  [ ("execution_id", FStr (PipelineExecution.execution_id execution));
    ("mode", FMode (PipelineExecution.mode execution));
    ("status", FStatus (PipelineExecution.status execution));
    ("start_time", FDatetime (PipelineExecution.start_time execution));
    ("end_time", field_of FDatetime (PipelineExecution.end_time execution));
    ("total_duration_ms", field_of FInt (PipelineExecution.total_duration_ms execution));
    ("steps", FRecords (asdict_step <$> PipelineExecution.steps execution));
    ("error", field_of FStr (PipelineExecution.error execution)) ].

(** The outcome of [session.get(url, timeout=5)] as the health check reads
    it: an exception, or a response with its status code, the time it took
    (milliseconds) and its body, which is absent when the content is empty
    and else the decoded JSON object or the exception [json()] raises. *)
Inductive GetOutcome :=
| GetRaises (e : Exn)
| GetResponse (status_code : Z) (elapsed_ms : Z) (body : option (Exn + Dict)).

Definition health_disabled : gmap string Field :=
  {[ "status" := FStr "disabled"; "healthy" := FBool false ]}.

Definition health_unreachable (e : Exn) : gmap string Field :=
  {[ "status" := FStr ("unreachable (" +:+ str e +:+ ")"); "healthy" := FBool false ]}.

Definition health_healthy (elapsed_ms : Z) (details : Dict) : gmap string Field :=
  {[ "status" := FStr "healthy"; "healthy" := FBool true;
     "response_time_ms" := FInt elapsed_ms; "details" := FData details ]}.

(** The [try] block of the health check and its [except] clause. *)
Definition health_of (outcome : GetOutcome) : gmap string Field :=
  match outcome with
  | GetRaises e => health_unreachable e
  | GetResponse status_code elapsed_ms body =>
      if status_code =? 200 then
        match body with
        | None => health_healthy elapsed_ms ∅
        | Some (inr details) => health_healthy elapsed_ms details
        | Some (inl e) => health_unreachable e
        end
      else
        {[ "status" := FStr ("unhealthy (HTTP " +:+ pretty status_code +:+ ")");
           "healthy" := FBool false ]}
  end.

(** The probe of one component: the address is built and the request made
    inside the [try] block. *)
Definition health_probe (session_get : string → string → GetOutcome)
    (component_name : string) (component_config : ComponentConfig) : gmap string Field :=
  let url := base_url component_config +:+ health_endpoint component_config in
  health_of (session_get component_name url).

(** ** The asynchronous orchestrator (src/pipeline_orchestrator.py) *)

Module PipelineOrchestrator.
Section WithConfig.
Variable config : Config.
(** The outcome of the n-th [session.post]. *)
Variable session_post : nat → HttpOutcome.
(** What the file system does with the log of the n-th execution of the
    history. *)
Variable log_file : nat → LogOutcome.

(** The breakers [__init__] creates: one per configured component. *)
Definition initial_breaker : Breaker :=
  {| failures := 0; last_failure := None; state := closed |}.

Definition init (now : Z) : World :=
  {| circuit_breakers := (fun _ => initial_breaker) <$> components config;
     execution_history := [];
     clock := now;
     trace := [] |}.

Definition _get_step_sequence (mode : PipelineMode) : list string :=
  default (default_flow (routing config))
          (bypass_modes (routing config) !! mode_value mode).

Definition _get_step_config (step_name : string) : M World StepConfig :=
  match List.find (fun step => String.eqb (sc_name step) step_name)
                  (sequence_steps config) with
  | Some step => ret step
  | None => raise (ValueError ("Step configuration not found: " +:+ step_name))
  end.

Definition _get_fallback_data (step_name : string) : option Dict :=
  let fallbacks := default ∅ (fallback_responses (error_handling config)) in
  fallbacks !! step_name.

Definition store_breaker (component : string) (breaker : Breaker) : M World unit :=
  modify (set_breakers (<[component := breaker]>)).

Definition _is_circuit_open (component : string) : M World bool :=
  if negb (cb_enabled (circuit_breaker (error_handling config))) then ret false
  else
    let* breaker := fun w => getitem (circuit_breakers w) component w in
    if bool_decide (state breaker = open) then
      let recovery_timeout := recovery_timeout (circuit_breaker (error_handling config)) in
      let* now := time in
      if time_truthy (last_failure breaker)
         && (recovery_timeout <? now - default 0 (last_failure breaker))
      then
        store_breaker component
          {| failures := failures breaker;
             last_failure := last_failure breaker;
             state := half_open |} >>
        ret false
      else ret true
    else ret false.

Definition _record_failure (component : string) : M World unit :=
  let* breaker := fun w => getitem (circuit_breakers w) component w in
  let* now := time in
  let failures' := failures breaker + 1 in
  let failure_threshold := failure_threshold (circuit_breaker (error_handling config)) in
  store_breaker component
    {| failures := failures';
       last_failure := Some now;
       state := if failure_threshold <=? failures' then open else state breaker |}.

Definition _reset_circuit_breaker (component : string) : M World unit :=
  let* breaker := fun w => getitem (circuit_breakers w) component w in
  store_breaker component
    {| failures := 0; last_failure := last_failure breaker; state := closed |}.

(** [self.session.post(url, json=.., timeout=..)], [raise_for_status()]
    and [response.json()]. *)
Definition post (url : string) (json : Dict) (timeout : Z) : M World Dict :=
  fun w =>
    let outcome := session_post (http_calls w) in
    let w' := emit (EvPost url json timeout) (set_clock (clock w + elapsed outcome) w) in
    match reply outcome with
    | inl e => (Raise e, w')
    | inr result => (Ok result, w')
    end.

Definition missing_fields (step_config : StepConfig) (data : Dict) : list string :=
  List.filter (fun field => negb (dict_contains data field))
              (default [] (sc_required_fields step_config)).

Definition request_data (step_config : StepConfig) (data : Dict) : Dict :=
  let required_fields := default [] (sc_required_fields step_config) in
  let request_data : Dict :=
    list_to_map (omap (fun field => pair field <$> data !! field) required_fields) in
  (* the loop over [data.items()] adds the keys not yet present *)
  request_data ∪ data.

Definition _execute_single_step (step_config : StepConfig) (data : Dict) : M World Dict :=
  let* component_config := getitem (components config) (sc_component step_config) in
  let url := base_url component_config +:+ sc_endpoint step_config in
  let missing_fields := missing_fields step_config data in
  match missing_fields with
  | _ :: _ =>
      raise (ValueError ("Missing required fields: " +:+ repr_str_list missing_fields))
  | [] =>
      let timeout := default 30 (sc_timeout step_config) in
      post url (request_data step_config data) timeout
  end.

(** The [try] block of one attempt. *)
Definition try_attempt (step_config : StepConfig) (data : Dict) : M World Dict :=
  let component := sc_component step_config in
  let* result := _execute_single_step step_config data in
  _reset_circuit_breaker component >>
  ret result.

(** The [except] block of one attempt. *)
Definition except_attempt (step_config : StepConfig) (retry_count attempt : Z) (e : Exn) :
  M World unit :=
  let component := sc_component step_config in
  let retry_delays := retry_delays (error_handling config) in
  modify (emit (EvAttemptFailed (sc_name step_config) (attempt + 1) (str e))) >>
  if attempt <? retry_count then
    let i := Z.min attempt (Z.of_nat (length retry_delays) - 1) in
    let* delay := match list_getitem retry_delays i with
                  | Some delay => ret delay
                  | None => raise (IndexError "list index out of range")
                  end in
    sleep delay
  else _record_failure component.

(** [for attempt in range(retry_count + 1)] and the final
    [raise last_exception]. *)
Fixpoint retry_loop (step_config : StepConfig) (data : Dict) (retry_count : Z)
    (attempts : list Z) (last_exception : option Exn) : M World Dict :=
  match attempts with
  | [] =>
      match last_exception with
      | Some e => raise e
      | None => raise (TypeError "exceptions must derive from BaseException")
      end
  | attempt :: rest =>
      try_except
        (try_attempt step_config data)
        (fun e =>
           except_attempt step_config retry_count attempt e >>
           retry_loop step_config data retry_count rest (Some e))
  end.

Definition _execute_step_with_retry (step_config : StepConfig) (data : Dict) : M World Dict :=
  let component := sc_component step_config in
  let* is_open := _is_circuit_open component in
  if is_open : bool then
    raise (Exception ("Circuit breaker open for component " +:+ component))
  else
    let retry_count := default 1 (sc_retry_count step_config) in
    retry_loop step_config data retry_count (range (retry_count + 1)) None.

(** One iteration of the loop over the step sequence. *)
Definition run_step (step_name : string) : M (World * Locals) Flow :=
  let* step_config := lift (_get_step_config step_name) in
  let* enabled := match sc_enabled step_config with
                  | Some b => ret b
                  | None => raise (KeyError "enabled")
                  end in
  if negb enabled then ret Continue
  else
    let* now := lift time in
    let* locals := get_locals in
    let data := current_data locals in
    set_execution (with_steps (fun steps =>
      steps ++ [new_step step_name (sc_component step_config) now data])) >>
    try_except
      (let* step_result := lift (_execute_step_with_retry step_config data) in
       let* now := lift time in
       modify_step (step_completed step_result now) >>
       set_current_data (fun d => dict_update d step_result) >>
       ret Continue)
      (fun e =>
         let* now := lift time in
         modify_step (step_failed (str e) now) >>
         if bool_decide (step_name ∈ default_flow (routing config)) then
           match _get_fallback_data step_name with
           | Some fallback_data =>
               if dict_truthy fallback_data then
                 set_current_data (fun d => dict_update d fallback_data) >>
                 ret Continue
               else
                 set_execution (with_status FAILED) >>
                 set_execution (with_error
                   ("Critical step " +:+ step_name +:+ " failed: " +:+ str e)) >>
                 ret Break
           | None =>
               set_execution (with_status FAILED) >>
               set_execution (with_error
                 ("Critical step " +:+ step_name +:+ " failed: " +:+ str e)) >>
               ret Break
           end
         else ret Continue).

Fixpoint run_steps (step_sequence : list string) : M (World * Locals) unit :=
  match step_sequence with
  | [] => ret tt
  | step_name :: rest =>
      let* flow := run_step step_name in
      match flow with
      | Continue => run_steps rest
      | Break => ret tt
      end
  end.

(** The [try] block of [execute_pipeline]. *)
Definition pipeline_body (input_data : Dict) (mode : PipelineMode) : M (World * Locals) unit :=
  let step_sequence := _get_step_sequence mode in
  set_current_data (fun _ => input_data) >>
  run_steps step_sequence >>
  let* locals := get_locals in
  if bool_decide (PipelineExecution.status (execution locals) ≠ FAILED) then
    set_execution (with_status COMPLETED)
  else ret tt.

(** The [except Exception] clause of [execute_pipeline]. *)
Definition pipeline_handler (e : Exn) : M (World * Locals) unit :=
  set_execution (with_status FAILED) >>
  set_execution (with_error (str e)).

(** The record is written to [logs/execution_<id>.json].  The directory
    is created outside the [try] block: an exception of [mkdir] leaves the
    method.  An exception of [open] or [json.dump] is caught and logged, and
    the record is not saved.  The execution is the last of the history when
    the method is called. *)
Definition _save_execution_log (execution : PipelineExecution.t) : M World unit :=
  fun w =>
    match log_file (length (execution_history w)) with
    | MkdirRaises e => (Raise e, w)
    | DumpRaises e => (Ok tt, w)
    | Saved => (Ok tt, emit (EvSaveLog (PipelineExecution.execution_id execution)) w)
    end.

(** The [finally] clause of [execute_pipeline]. *)
Definition pipeline_finally : M (World * Locals) unit :=
  let* now := lift time in
  set_execution (with_end now) >>
  let* locals := get_locals in
  lift (modify (set_history (fun history => history ++ [execution locals]))) >>
  lift (_save_execution_log (execution locals)).

Definition new_execution (mode : PipelineMode) (execution_id : option string) (now : Z) :
  PipelineExecution.t :=
  let execution_id := match execution_id with
                      | Some id => id
                      | None => "exec_" +:+ pretty (now * 1000)
                      end in
  PipelineExecution.mk execution_id mode IN_PROGRESS now None None [] None.

(** [execute_pipeline] with its local variables still visible: the result
    also shows the accumulated context [current_data]. *)
Definition execute_pipeline_locals (input_data : Dict) (mode : PipelineMode)
    (execution_id : option string) (w : World) : Result PipelineExecution.t * (World * Locals) :=
  (try_finally
     (try_except (pipeline_body input_data mode) pipeline_handler)
     pipeline_finally >>
   let* locals := get_locals in
   ret (execution locals))
    (w, {| execution := new_execution mode execution_id (clock w); current_data := ∅ |}).

Definition execute_pipeline (input_data : Dict) (mode : PipelineMode)
    (execution_id : option string) : M World PipelineExecution.t :=
  fun w =>
    let '(r, (w', _)) := execute_pipeline_locals input_data mode execution_id w in
    (r, w').

Definition get_pipeline_metrics (w : World) : gmap string MetricValue :=
  let execution_history := execution_history w in
  match last execution_history with
  | None => {[ "total_executions" := MInt 0 ]}
  | Some last_execution =>
      let successful :=
        List.filter (fun e => bool_decide (PipelineExecution.status e = COMPLETED))
                    execution_history in
      let failed :=
        List.filter (fun e => bool_decide (PipelineExecution.status e = FAILED))
                    execution_history in
      let avg_duration :=
        match successful with
        | [] => 0%Q
        | _ => (inject_Z (sum_durations successful)
                / inject_Z (Z.of_nat (length successful)))%Q
        end in
      let success_rate :=
        (inject_Z (Z.of_nat (length successful))
         / inject_Z (Z.of_nat (length execution_history)) * 100)%Q in
      list_to_map
        [ ("total_executions", MInt (Z.of_nat (length execution_history)));
          ("successful_executions", MInt (Z.of_nat (length successful)));
          ("failed_executions", MInt (Z.of_nat (length failed)));
          ("success_rate_percent", MFloat (round2 success_rate));
          ("avg_duration_ms", MFloat (round2 avg_duration));
          ("last_execution", MTime (PipelineExecution.start_time last_execution)) ]
  end.

(** [limit] is [None] when the argument is left to its default. *)
Definition get_execution_history (limit : option Z) (w : World) : list (list (string * Field)) :=
  let recent_executions :=
    slice_to (default 10 limit)
      (sorted_reverse PipelineExecution.start_time (execution_history w)) in
  asdict <$> recent_executions.

(** The loop of the health check over the items of the components that
    are left, with the dictionary built so far.  The key [enabled] is
    indexed before the [try] block: a component without it ends the check
    with a [KeyError].  (A probe depends on nothing but its component and
    every missing key gives the same error, so the order in which the
    components are visited does not show in the result.) *)
Fixpoint health_loop (session_get : string → string → GetOutcome)
    (items : list (string * ComponentConfig))
    (health_status : gmap string (gmap string Field)) :
    Result (gmap string (gmap string Field)) :=
  match items with
  | [] => Ok health_status
  | (component_name, component_config) :: rest =>
      match component_enabled component_config with
      | None => Raise (KeyError "enabled")
      | Some enabled =>
          health_loop session_get rest
            (<[component_name :=
                 if negb enabled then health_disabled
                 else health_probe session_get component_name component_config]>
               health_status)
      end
  end.

(** The health check makes one [session.get] per enabled component;
    [session_get name url] is the outcome of the one made for the component
    [name]. *)
Definition get_component_health (session_get : string → string → GetOutcome) :
  Result (gmap string (gmap string Field)) :=
  health_loop session_get (map_to_list (components config)) ∅.
End WithConfig.
End PipelineOrchestrator.

(** ** The synchronous orchestrator (src/simple_pipeline_orchestrator.py) *)

(** What [_load_config] finds at the configuration path: no file, a file
    that is not JSON, or a configuration. *)
Inductive ConfigFile :=
| NotFound
| NotJSON
| Parsed (config : Config).

(** [repr] of a JSON value, as an f-string renders a list. *)
Fixpoint repr_any (v : Any) : string :=
  match v with
  | ANone => "None"
  | ABool true => "True"
  | ABool false => "False"
  | AInt z => pretty z
  | AStr s => repr_str s
  | AList l => "[" +:+ join ", " (List.map repr_any l) +:+ "]"
  | AObj d =>
      "{" +:+ join ", " (List.map (fun kv => repr_str (fst kv) +:+ ": " +:+ repr_any (snd kv)) d)
          +:+ "}"
  end.

(** [s[:n]]: the first [n] characters of a string, which is held in UTF-8:
    a byte 10xxxxxx continues the character before it. *)
Definition continues_char (a : Ascii.ascii) : bool :=
  let n := Ascii.nat_of_ascii a in (128 <=? n)%nat && (n <? 192)%nat.

Fixpoint take_chars (n : nat) (s : string) : string :=
  match s with
  | EmptyString => EmptyString
  | String a rest =>
      if continues_char a then String a (take_chars n rest)
      else match n with
           | O => EmptyString
           | S n' => String a (take_chars n' rest)
           end
  end.

(** [f"{input_data.get('message_text', '')[:50]}"]: strings and lists can
    be sliced, the other values raise. *)
Definition message_prefix (input_data : Dict) : Exn + string :=
  match input_data !! "message_text" with
  | None => inr ""
  | Some (AStr s) => inr (take_chars 50 s)
  | Some (AList l) => inr (repr_any (AList (take 50 l)))
  | Some ANone => inl (TypeError "'NoneType' object is not subscriptable")
  | Some (ABool _) => inl (TypeError "'bool' object is not subscriptable")
  | Some (AInt _) => inl (TypeError "'int' object is not subscriptable")
  | Some (AObj _) => inl (TypeError "unhashable type: 'slice'")
  end.

Module SimplePipelineOrchestrator.
Section WithConfig.
Variable config : Config.
Variable session_post : nat → HttpOutcome.

(** The built-in configuration.  It has no error handling entry, which
    this class never reads: the field is a parameter here.  The entries the
    code never reads (output fields, display names, priorities) are left
    out. *)
Definition _get_default_config (unread : ErrorHandling) : Config :=
  {| sequence_steps :=
       [ {| sc_name := "summarize"; sc_component := "seeya"; sc_enabled := Some true;
            sc_endpoint := "/api/summarize"; sc_timeout := Some 30;
            sc_retry_count := Some 3;
            sc_required_fields :=
              Some ["user_id"; "platform"; "message_text"; "timestamp"] |};
         {| sc_name := "process_summary"; sc_component := "sankalp";
            sc_enabled := Some true;
            sc_endpoint := "/api/process_summary"; sc_timeout := Some 25;
            sc_retry_count := Some 3;
            sc_required_fields :=
              Some ["summary_id"; "summary"; "intent"; "urgency"; "user_id"] |};
         {| sc_name := "respond"; sc_component := "noopur"; sc_enabled := Some true;
            sc_endpoint := "/api/respond"; sc_timeout := Some 20;
            sc_retry_count := Some 2;
            sc_required_fields := Some ["task_id"; "user_id"] |} ];
     routing :=
       {| default_flow := ["summarize"; "process_summary"; "respond"];
          bypass_modes :=
            <["quick_mode" := ["summarize"; "respond"]]>
              (<["analysis_mode" := ["summarize"; "search_similar"; "metrics"]]>
                 {[ "full_pipeline" :=
                      ["summarize"; "process_summary"; "respond"; "search_similar";
                       "coach_feedback"; "metrics"] ]}) |};
     components :=
       <["seeya" := {| base_url := "http://127.0.0.1:8000"; health_endpoint := "/health";
                       component_enabled := Some true |}]>
         (<["sankalp" := {| base_url := "http://127.0.0.1:8000";
                            health_endpoint := "/health"; component_enabled := Some true |}]>
            {[ "noopur" := {| base_url := "http://127.0.0.1:8000";
                              health_endpoint := "/health";
                              component_enabled := Some true |} ]});
     error_handling := unread |}.

(** A missing or undecodable file gives the built-in configuration. *)
Definition _load_config (file : ConfigFile) (unread : ErrorHandling) : Config :=
  match file with
  | Parsed config => config
  | NotFound | NotJSON => _get_default_config unread
  end.

Definition init (now : Z) : World :=
  {| circuit_breakers := ∅; execution_history := []; clock := now; trace := [] |}.

Definition _get_step_sequence (mode : PipelineMode) : list string :=
  default (default_flow (routing config))
          (bypass_modes (routing config) !! mode_value mode).

Definition _get_step_config (step_name : string) : option StepConfig :=
  List.find (fun step => String.eqb (sc_name step) step_name) (sequence_steps config).

Definition post (url : string) (json : Dict) (timeout : Z) : M World Dict :=
  fun w =>
    let outcome := session_post (http_calls w) in
    let w' := emit (EvPost url json timeout) (set_clock (clock w + elapsed outcome) w) in
    match reply outcome with
    | inl e => (Raise e, w')
    | inr result => (Ok result, w')
    end.

Definition missing_fields (step_config : StepConfig) (data : Dict) : list string :=
  List.filter (fun field => negb (dict_contains data field))
              (default [] (sc_required_fields step_config)).

Definition request_data (step_config : StepConfig) (data : Dict) : Dict :=
  let required_fields := default [] (sc_required_fields step_config) in
  let request_data : Dict :=
    list_to_map (omap (fun field => pair field <$> data !! field) required_fields) in
  request_data ∪ data.

Definition _execute_single_step (step_config : StepConfig) (data : Dict) : M World Dict :=
  let* component_config := getitem (components config) (sc_component step_config) in
  let url := base_url component_config +:+ sc_endpoint step_config in
  let missing_fields := missing_fields step_config data in
  match missing_fields with
  | _ :: _ =>
      raise (ValueError ("Missing required fields: " +:+ repr_str_list missing_fields))
  | [] =>
      let timeout := default 30 (sc_timeout step_config) in
      post url (request_data step_config data) timeout
  end.

Fixpoint retry_loop (step_config : StepConfig) (data : Dict) (retry_count : Z)
    (attempts : list Z) (last_exception : option Exn) : M World Dict :=
  match attempts with
  | [] =>
      match last_exception with
      | Some e => raise e
      | None => raise (TypeError "exceptions must derive from BaseException")
      end
  | attempt :: rest =>
      try_except
        (_execute_single_step step_config data)
        (fun e =>
           (if attempt <? retry_count then sleep 1 else ret tt) >>
           retry_loop step_config data retry_count rest (Some e))
  end.

Definition _execute_step_with_retry (step_config : StepConfig) (data : Dict) : M World Dict :=
  let retry_count := default 1 (sc_retry_count step_config) in
  retry_loop step_config data retry_count (range (retry_count + 1)) None.

(** The mock data of the [except] branch, by step name. *)
Definition mock_data (step_name execution_id : string) (input_data : Dict) :
  M (World * Locals) unit :=
  if String.eqb step_name "summarize" then
    match message_prefix input_data with
    | inl e => raise e
    | inr prefix =>
        set_current_data (fun d => dict_update d (list_to_map
          [ ("summary_id", AStr ("sum_" +:+ execution_id));
            ("summary", AStr ("Mock summary: " +:+ prefix +:+ "..."));
            ("intent", AStr "info");
            ("urgency", AStr "medium");
            ("type", AStr "general") ]))
    end
  else if String.eqb step_name "process_summary" then
    set_current_data (fun d => dict_update d (list_to_map
      [ ("task_id", AStr ("task_" +:+ execution_id));
        ("task_summary", AStr "Mock task created");
        ("priority", AStr "medium");
        ("status", AStr "pending") ]))
  else if String.eqb step_name "respond" then
    set_current_data (fun d => dict_update d (list_to_map
      [ ("response_id", AStr ("resp_" +:+ execution_id));
        ("response_text", AStr "Mock response generated");
        ("tone", AStr "neutral");
        ("status", AStr "ok") ]))
  else ret tt.

(** One iteration of the loop over the step sequence. *)
Definition run_step (input_data : Dict) (execution_id : string) (step_name : string) :
  M (World * Locals) unit :=
  match _get_step_config step_name with
  | None => ret tt
  | Some step_config =>
      if negb (default true (sc_enabled step_config)) then ret tt
      else
        let* now := lift time in
        let* locals := get_locals in
        let data := current_data locals in
        set_execution (with_steps (fun steps =>
          steps ++ [new_step step_name (sc_component step_config) now data])) >>
        try_except
          (let* step_result := lift (_execute_step_with_retry step_config data) in
           let* now := lift time in
           modify_step (step_completed step_result now) >>
           set_current_data (fun d => dict_update d step_result))
          (fun e =>
             let* now := lift time in
             modify_step (step_failed (str e) now) >>
             mock_data step_name execution_id input_data)
  end.

Fixpoint run_steps (input_data : Dict) (execution_id : string)
    (step_sequence : list string) : M (World * Locals) unit :=
  match step_sequence with
  | [] => ret tt
  | step_name :: rest =>
      run_step input_data execution_id step_name >>
      run_steps input_data execution_id rest
  end.

(** The [try] block of [execute_pipeline]. *)
Definition pipeline_body (input_data : Dict) (mode : PipelineMode) (execution_id : string) :
  M (World * Locals) unit :=
  let step_sequence := _get_step_sequence mode in
  set_current_data (fun _ => input_data) >>
  run_steps input_data execution_id step_sequence >>
  set_execution (with_status COMPLETED).

Definition pipeline_handler (e : Exn) : M (World * Locals) unit :=
  set_execution (with_status FAILED) >>
  set_execution (with_error (str e)).

Definition pipeline_finally : M (World * Locals) unit :=
  let* now := lift time in
  set_execution (with_end now) >>
  let* locals := get_locals in
  lift (modify (set_history (fun history => history ++ [execution locals]))).

Definition new_execution (mode : PipelineMode) (execution_id : option string) (now : Z) :
  PipelineExecution.t :=
  let execution_id := match execution_id with
                      | Some id => id
                      | None => "exec_" +:+ pretty (now * 1000)
                      end in
  PipelineExecution.mk execution_id mode IN_PROGRESS now None None [] None.

Definition execute_pipeline_locals (input_data : Dict) (mode : PipelineMode)
    (execution_id : option string) (w : World) : Result PipelineExecution.t * (World * Locals) :=
  let created := new_execution mode execution_id (clock w) in
  (try_finally
     (try_except
        (pipeline_body input_data mode (PipelineExecution.execution_id created))
        pipeline_handler)
     pipeline_finally >>
   let* locals := get_locals in
   ret (execution locals))
    (w, {| execution := created; current_data := ∅ |}).

Definition execute_pipeline (input_data : Dict) (mode : PipelineMode)
    (execution_id : option string) : M World PipelineExecution.t :=
  fun w =>
    let '(r, (w', _)) := execute_pipeline_locals input_data mode execution_id w in
    (r, w').

Definition get_pipeline_metrics (w : World) : gmap string MetricValue :=
  let execution_history := execution_history w in
  match last execution_history with
  | None => {[ "total_executions" := MInt 0 ]}
  | Some last_execution =>
      let successful :=
        List.filter (fun e => bool_decide (PipelineExecution.status e = COMPLETED))
                    execution_history in
      let failed :=
        List.filter (fun e => bool_decide (PipelineExecution.status e = FAILED))
                    execution_history in
      let avg_duration :=
        match successful with
        | [] => 0%Q
        | _ => (inject_Z (sum_durations successful)
                / inject_Z (Z.of_nat (length successful)))%Q
        end in
      let success_rate :=
        (inject_Z (Z.of_nat (length successful))
         / inject_Z (Z.of_nat (length execution_history)) * 100)%Q in
      list_to_map
        [ ("total_executions", MInt (Z.of_nat (length execution_history)));
          ("successful_executions", MInt (Z.of_nat (length successful)));
          ("failed_executions", MInt (Z.of_nat (length failed)));
          ("success_rate_percent", MFloat (round2 success_rate));
          ("avg_duration_ms", MFloat (round2 avg_duration));
          ("last_execution", MTime (PipelineExecution.start_time last_execution)) ]
  end.

Definition get_execution_history (limit : option Z) (w : World) : list (list (string * Field)) :=
  let recent_executions :=
    slice_to (default 10 limit)
      (sorted_reverse PipelineExecution.start_time (execution_history w)) in
  asdict <$> recent_executions.

(** The key [enabled] is read with [.get("enabled", True)]: a component
    without it is probed.  Nothing raises here, the dictionary gets one entry
    per component. *)
Definition get_component_health (session_get : string → string → GetOutcome) :
  gmap string (gmap string Field) :=
  map_imap (fun component_name component_config =>
              Some (if negb (default true (component_enabled component_config))
                    then health_disabled
                    else health_probe session_get component_name component_config))
           (components config).
End WithConfig.
End SimplePipelineOrchestrator.

(** ** Scenarios and reachable states *)

Section Scenarios.
Variable config : Config.
Variable session_post : nat → HttpOutcome.
Variable log_file : nat → LogOutcome.

(** Step failures of a component recorded at the given clock readings. *)
Fixpoint record_failures_at (component : string) (times : list Z) (w : World) : World :=
  match times with
  | [] => w
  | now :: rest =>
      record_failures_at component rest
        (snd (PipelineOrchestrator._record_failure config component (set_clock now w)))
  end.

(** The states of an asynchronous orchestrator: constructed, then any
    number of pipeline runs, with time passing in between. *)
Inductive reachable : World → Prop :=
| reachable_init now : reachable (PipelineOrchestrator.init config now)
| reachable_tick now w : reachable w → reachable (set_clock now w)
| reachable_run input_data mode execution_id w :
    reachable w →
    reachable (snd (PipelineOrchestrator.execute_pipeline config session_post log_file
                      input_data mode execution_id w)).

(** The same for the synchronous orchestrator. *)
Inductive simple_reachable : World → Prop :=
| simple_reachable_init now : simple_reachable (SimplePipelineOrchestrator.init now)
| simple_reachable_tick now w : simple_reachable w → simple_reachable (set_clock now w)
| simple_reachable_run input_data mode execution_id w :
    simple_reachable w →
    simple_reachable (snd (SimplePipelineOrchestrator.execute_pipeline config session_post
                             input_data mode execution_id w)).
End Scenarios.

(** The breaker record after a recorded failure, after a success and after
    the recovery, as the three operations write it. *)
Definition after_failure (config : Config) (now : Z) (b : Breaker) : Breaker :=
  {| failures := failures b + 1;
     last_failure := Some now;
     state := if failure_threshold (circuit_breaker (error_handling config)) <=? failures b + 1
              then open else state b |}.

Definition after_success (b : Breaker) : Breaker :=
  {| failures := 0; last_failure := last_failure b; state := closed |}.

Definition after_recovery (b : Breaker) : Breaker :=
  {| failures := failures b; last_failure := last_failure b; state := half_open |}.

(** A small configuration and some environments, used to run the model. *)

Definition demo_summarize : StepConfig :=
  {| sc_name := "summarize"; sc_component := "seeya"; sc_enabled := Some true;
     sc_endpoint := "/api/summarize"; sc_timeout := Some 30; sc_retry_count := Some 1;
     sc_required_fields := Some ["user_id"; "message_text"] |}.

Definition demo_respond (enabled : bool) : StepConfig :=
  {| sc_name := "respond"; sc_component := "noopur"; sc_enabled := Some enabled;
     sc_endpoint := "/api/respond"; sc_timeout := None; sc_retry_count := Some 0;
     sc_required_fields := Some ["summary"] |}.

Definition demo_component (url : string) : ComponentConfig :=
  {| base_url := url; health_endpoint := "/health"; component_enabled := Some true |}.

Definition demo_config (fallbacks : option (gmap string Dict)) (breaker_enabled : bool)
    (respond_enabled : bool) : Config :=
  {| sequence_steps := [demo_summarize; demo_respond respond_enabled];
     routing := {| default_flow := ["summarize"; "respond"];
                   bypass_modes := {[ "quick_mode" := ["summarize"; "respond"] ]} |};
     components := <["seeya" := demo_component "http://seeya"]>
                     {[ "noopur" := demo_component "http://noopur" ]};
     error_handling :=
       {| retry_delays := [1; 2];
          circuit_breaker := {| cb_enabled := breaker_enabled;
                                failure_threshold := 2;
                                recovery_timeout := 60 |};
          fallback_responses := fallbacks |} |}.

Definition demo_fallbacks : gmap string Dict :=
  {[ "summarize" := {[ "summary" := AStr "unavailable" ]} ]}.

Definition always_failing : nat → HttpOutcome :=
  fun _ => {| elapsed := 1; reply := inl (RequestException "connection refused") |}.

Definition always_ok : nat → HttpOutcome :=
  fun _ => {| elapsed := 1; reply := inr {[ "summary" := AStr "a summary" ]} |}.

(** A file system that saves every log, one on which [logs] is a regular
    file, and one whose log directory cannot be written. *)
Definition log_saved : nat → LogOutcome := fun _ => Saved.

Definition logs_is_a_file : nat → LogOutcome :=
  fun _ => MkdirRaises (OSError "[Errno 17] File exists: 'logs'").

Definition logs_read_only : nat → LogOutcome :=
  fun n => DumpRaises
             (OSError "[Errno 13] Permission denied: 'logs/execution_run.json'").

(** The first [k] posts fail. *)
Definition failing_first (k : nat) : nat → HttpOutcome :=
  fun n => if (n <? k)%nat
           then {| elapsed := 1; reply := inl (RequestException "connection refused") |}
           else {| elapsed := 1; reply := inr {[ "summary" := AStr "a summary" ]} |}.

Definition demo_input : Dict :=
  <["user_id" := AStr "u1"]> {[ "message_text" := AStr "Can we meet tomorrow?" ]}.

(** A payload without the message text. *)
Definition demo_partial_input : Dict := {[ "user_id" := AStr "u1" ]}.

(** The state after two failed runs of the quick pipeline, long after the
    second one. *)
Definition demo_open_world : World :=
  let config := demo_config None true true in
  let run := PipelineOrchestrator.execute_pipeline config always_failing log_saved
               demo_input QUICK None in
  set_clock 500 (snd (run (snd (run (PipelineOrchestrator.init config 100))))).

(** A configuration whose quick mode names a step that is not configured. *)
Definition demo_unrouted_config : Config :=
  {| sequence_steps := sequence_steps (demo_config None true true);
     routing := {| default_flow := ["summarize"; "respond"];
                   bypass_modes := {[ "quick_mode" := ["summarize"; "metrics"] ]} |};
     components := components (demo_config None true true);
     error_handling := error_handling (demo_config None true true) |}.

(** The value a computation returned, if it did not raise. *)
Definition returned {A} (r : Result A) : option A :=
  match r with
  | Ok a => Some a
  | Raise _ => None
  end.

(** The demo configuration with an empty list of retry delays. *)
Definition demo_no_delays_config : Config :=
  {| sequence_steps := sequence_steps (demo_config None true true);
     routing := routing (demo_config None true true);
     components := components (demo_config None true true);
     error_handling :=
       {| retry_delays := [];
          circuit_breaker := circuit_breaker (error_handling (demo_config None true true));
          fallback_responses := None |} |}.

(** A step whose component has no configuration. *)
Definition demo_orphan : StepConfig :=
  {| sc_name := "archive"; sc_component := "ghost"; sc_enabled := Some true;
     sc_endpoint := "/api/archive"; sc_timeout := None; sc_retry_count := Some 1;
     sc_required_fields := None |}.

(** A step with a negative retry count. *)
Definition demo_negative : StepConfig :=
  {| sc_name := "summarize"; sc_component := "seeya"; sc_enabled := Some true;
     sc_endpoint := "/api/summarize"; sc_timeout := None; sc_retry_count := Some (-1);
     sc_required_fields := None |}.

(** The demo configuration with the component noopur disabled. *)
Definition demo_health_config : Config :=
  {| sequence_steps := sequence_steps (demo_config None true true);
     routing := routing (demo_config None true true);
     components :=
       <["seeya" := demo_component "http://seeya"]>
         {[ "noopur" := {| base_url := "http://noopur"; health_endpoint := "/health";
                           component_enabled := Some false |} ]};
     error_handling := error_handling (demo_config None true true) |}.

(** Two behaviours of the health endpoints that differ only for noopur. *)
Definition probe_ok : string → string → GetOutcome :=
  fun _ _ => GetResponse 200 12 None.

Definition probe_noopur_down : string → string → GetOutcome :=
  fun component_name _ =>
    if String.eqb component_name "noopur" then GetRaises (RequestException "connection refused")
    else GetResponse 200 12 None.

(** ** The vocabulary of the properties *)

Definition append_step (step : PipelineStep.t) (ex : PipelineExecution.t) : PipelineExecution.t :=
  with_steps (fun steps => steps ++ [step]) ex.

Definition critical_failure_message (step_name : string) (e : Exn) : string :=
  "Critical step " +:+ step_name +:+ " failed: " +:+ str e.

Abbreviation find_step config step_name :=
  (List.find (fun step => String.eqb (sc_name step) step_name) (sequence_steps config)).
Abbreviation fallback config := (PipelineOrchestrator._get_fallback_data config).
Abbreviation critical config step_name := (step_name ∈ default_flow (routing config)).

Section Outcomes.
Variable config : Config.
Variable session_post : nat → HttpOutcome.

(** The ways one iteration can end, with the world and the local
    variables it leaves. *)
Inductive step_outcome (step_name : string) (w : World) (l : Locals) :
  Result Flow → World → Locals → Prop :=
| outcome_unknown :
    find_step config step_name = None →
    step_outcome step_name w l
      (Raise (ValueError ("Step configuration not found: " +:+ step_name))) w l
| outcome_no_enabled_key step_config :
    find_step config step_name = Some step_config →
    sc_enabled step_config = None →
    step_outcome step_name w l (Raise (KeyError "enabled")) w l
| outcome_disabled step_config :
    find_step config step_name = Some step_config →
    sc_enabled step_config = Some false →
    step_outcome step_name w l (Ok Continue) w l
| outcome_completed step_config step_result w' :
    find_step config step_name = Some step_config →
    sc_enabled step_config = Some true →
    PipelineOrchestrator._execute_step_with_retry config session_post
      step_config (current_data l) w = (Ok step_result, w') →
    step_outcome step_name w l (Ok Continue) w'
      {| execution :=
           append_step
             (step_completed step_result (clock w')
                (new_step step_name (sc_component step_config) (clock w) (current_data l)))
             (execution l);
         current_data := dict_update (current_data l) step_result |}
| outcome_failed_tolerated step_config e w' :
    find_step config step_name = Some step_config →
    sc_enabled step_config = Some true →
    PipelineOrchestrator._execute_step_with_retry config session_post
      step_config (current_data l) w = (Raise e, w') →
    ¬ critical config step_name →
    step_outcome step_name w l (Ok Continue) w'
      {| execution :=
           append_step
             (step_failed (str e) (clock w')
                (new_step step_name (sc_component step_config) (clock w) (current_data l)))
             (execution l);
         current_data := current_data l |}
| outcome_failed_fallback step_config e w' fallback_data :
    find_step config step_name = Some step_config →
    sc_enabled step_config = Some true →
    PipelineOrchestrator._execute_step_with_retry config session_post
      step_config (current_data l) w = (Raise e, w') →
    critical config step_name →
    fallback config step_name = Some fallback_data →
    fallback_data ≠ ∅ →
    step_outcome step_name w l (Ok Continue) w'
      {| execution :=
           append_step
             (step_failed (str e) (clock w')
                (new_step step_name (sc_component step_config) (clock w) (current_data l)))
             (execution l);
         current_data := dict_update (current_data l) fallback_data |}
| outcome_failed_fatal step_config e w' :
    find_step config step_name = Some step_config →
    sc_enabled step_config = Some true →
    PipelineOrchestrator._execute_step_with_retry config session_post
      step_config (current_data l) w = (Raise e, w') →
    critical config step_name →
    fallback config step_name = None ∨ fallback config step_name = Some ∅ →
    step_outcome step_name w l (Ok Break) w'
      {| execution :=
           with_error (critical_failure_message step_name e)
             (with_status FAILED
                (append_step
                   (step_failed (str e) (clock w')
                      (new_step step_name (sc_component step_config) (clock w)
                         (current_data l)))
                   (execution l)));
         current_data := current_data l |}.

(** The runs of the loop, iteration by iteration. *)
Inductive runs : list string → World → Locals → Result unit → World → Locals → Prop :=
| runs_done w l : runs [] w l (Ok tt) w l
| runs_continue step_name rest w l w1 l1 r w' l' :
    step_outcome step_name w l (Ok Continue) w1 l1 →
    runs rest w1 l1 r w' l' →
    runs (step_name :: rest) w l r w' l'
| runs_break step_name rest w l w1 l1 :
    step_outcome step_name w l (Ok Break) w1 l1 →
    runs (step_name :: rest) w l (Ok tt) w1 l1
| runs_raise step_name rest w l e w1 l1 :
    step_outcome step_name w l (Raise e) w1 l1 →
    runs (step_name :: rest) w l (Raise e) w1 l1.

(** A step record of a configured and enabled step. *)
Definition of_enabled_step (step : PipelineStep.t) : Prop :=
  ∃ step_config,
    find_step config (PipelineStep.name step) = Some step_config ∧
    sc_enabled step_config = Some true ∧
    PipelineStep.component step = sc_component step_config.

(** A step record the loop went on after: completed, or failed where the
    failure is not fatal. *)
Definition tolerated (step : PipelineStep.t) : Prop :=
  PipelineStep.status step = COMPLETED ∨
  (PipelineStep.status step = FAILED ∧
   (¬ critical config (PipelineStep.name step) ∨
    ∃ fallback_data, fallback config (PipelineStep.name step) = Some fallback_data ∧
                     fallback_data ≠ ∅)).

(** The ways one iteration of the synchronous loop can end. *)
Inductive simple_outcome (input_data : Dict) (execution_id step_name : string)
    (w : World) (l : Locals) : Result unit → World → Locals → Prop :=
| simple_unknown :
    find_step config step_name = None →
    simple_outcome input_data execution_id step_name w l (Ok tt) w l
| simple_disabled step_config :
    find_step config step_name = Some step_config →
    default true (sc_enabled step_config) = false →
    simple_outcome input_data execution_id step_name w l (Ok tt) w l
| simple_completed step_config step_result w' :
    find_step config step_name = Some step_config →
    default true (sc_enabled step_config) = true →
    SimplePipelineOrchestrator._execute_step_with_retry config session_post
      step_config (current_data l) w = (Ok step_result, w') →
    simple_outcome input_data execution_id step_name w l (Ok tt) w'
      {| execution :=
           append_step
             (step_completed step_result (clock w')
                (new_step step_name (sc_component step_config) (clock w) (current_data l)))
             (execution l);
         current_data := dict_update (current_data l) step_result |}
| simple_failed step_config e w' r l' :
    find_step config step_name = Some step_config →
    default true (sc_enabled step_config) = true →
    SimplePipelineOrchestrator._execute_step_with_retry config session_post
      step_config (current_data l) w = (Raise e, w') →
    SimplePipelineOrchestrator.mock_data step_name execution_id input_data
      (w', {| execution :=
                append_step
                  (step_failed (str e) (clock w')
                     (new_step step_name (sc_component step_config) (clock w)
                        (current_data l)))
                  (execution l);
              current_data := current_data l |}) = (r, (w', l')) →
    simple_outcome input_data execution_id step_name w l r w' l'.

(** A record of a configured step that is not disabled. *)
Definition of_simple_enabled_step (step : PipelineStep.t) : Prop :=
  ∃ step_config,
    find_step config (PipelineStep.name step) = Some step_config ∧
    default true (sc_enabled step_config) = true.

End Outcomes.

(** The local variables once the [except] clause has run, if it had to. *)
Definition settle (r : Result unit) (l : Locals) : Locals :=
  match r with
  | Ok _ => l
  | Raise e =>
      {| execution := with_error (str e) (with_status FAILED (execution l));
         current_data := current_data l |}
  end.

Definition is_terminal (ex : PipelineExecution.t) : Prop :=
  PipelineExecution.status ex = COMPLETED ∨ PipelineExecution.status ex = FAILED.

(** The last statement of the [try] block. *)
Definition conclude (l : Locals) : Locals :=
  if bool_decide (PipelineExecution.status (execution l) ≠ FAILED)
  then {| execution := with_status COMPLETED (execution l);
          current_data := current_data l |}
  else l.

(** What saving the log of [ex] leaves in the trace, and what the call of
    [execute_pipeline] gives back: the record, unless the log directory
    could not be created. *)
Definition log_events (outcome : LogOutcome) (ex : PipelineExecution.t) : list Event :=
  match outcome with
  | Saved => [EvSaveLog (PipelineExecution.execution_id ex)]
  | MkdirRaises _ | DumpRaises _ => []
  end.

Definition log_written (outcome : LogOutcome) (ex : PipelineExecution.t) (w : World) : World :=
  match outcome with
  | Saved => emit (EvSaveLog (PipelineExecution.execution_id ex)) w
  | MkdirRaises _ | DumpRaises _ => w
  end.

Definition log_result (outcome : LogOutcome) (ex : PipelineExecution.t) :
  Result PipelineExecution.t :=
  match outcome with
  | MkdirRaises e => Raise e
  | DumpRaises _ | Saved => Ok ex
  end.

(** A breaker that is not closed has reached the threshold and has a last
    failure. *)
Definition breaker_inv (config : Config) (b : Breaker) : Prop :=
  state b ≠ closed →
  failure_threshold (circuit_breaker (error_handling config)) <= failures b ∧
  is_Some (last_failure b).

Definition world_inv (config : Config) (w : World) : Prop :=
  (∀ component b, circuit_breakers w !! component = Some b → breaker_inv config b) ∧
  (∀ component, is_Some (components config !! component) →
                is_Some (circuit_breakers w !! component)).

(** What a step record says, timestamps apart. *)
Definition step_view (step : PipelineStep.t) :
  string * string * StepStatus * option Dict * option Dict * option string :=
  (PipelineStep.name step, PipelineStep.component step, PipelineStep.status step,
   PipelineStep.input_data step, PipelineStep.output_data step, PipelineStep.error step).

(** The events a call of the executor for [step_config] on the context
    [data] may log: posts of the whole context to the URL of the step, with
    its timeout; sleeps of a configured delay; failed attempts of the step;
    no write of the execution log. *)
Definition step_event (config : Config) (step_config : StepConfig) (data : Dict)
    (ev : Event) : Prop :=
  match ev with
  | EvPost url json timeout =>
      (∃ component_config,
         components config !! sc_component step_config = Some component_config ∧
         url = base_url component_config +:+ sc_endpoint step_config) ∧
      json = data ∧ timeout = default 30 (sc_timeout step_config)
  | EvSleep delay => delay ∈ retry_delays (error_handling config)
  | EvAttemptFailed step _ _ => step = sc_name step_config
  | EvSaveLog _ => False
  end.

(** What a call of the executor may change: it logs such events, lets
    time pass (when no post takes a negative time), leaves the history as it
    is, and touches no breaker but the one of the step's component. *)
Definition executor_effect (config : Config) (session_post : nat → HttpOutcome)
    (step_config : StepConfig) (data : Dict) (w w' : World) : Prop :=
  (∃ new, trace w' = new ++ trace w ∧ Forall (step_event config step_config data) new) ∧
  ((∀ n, 0 <= elapsed (session_post n)) → clock w <= clock w') ∧
  execution_history w' = execution_history w ∧
  dom (circuit_breakers w') = dom (circuit_breakers w) ∧
  (∀ component, component ≠ sc_component step_config →
                circuit_breakers w' !! component = circuit_breakers w !! component).

(** The record of a step, from the outcome of the call of the executor. *)
Definition record_of (step_name : string) (step_config : StepConfig) (data : Dict)
    (started : Z) (r : Result Dict) (ended : Z) : PipelineStep.t :=
  let step := new_step step_name (sc_component step_config) started data in
  match r with
  | Ok step_result => step_completed step_result ended step
  | Raise e => step_failed (str e) ended step
  end.

(** The context the loop goes on with after a step, read off its record:
    the output of a completed step is merged into the context the step
    received, and so is the fallback payload of a failed critical step. *)
Definition context_after (config : Config) (step : PipelineStep.t) : Dict :=
  let data := default ∅ (PipelineStep.input_data step) in
  match PipelineStep.status step with
  | COMPLETED => dict_update data (default ∅ (PipelineStep.output_data step))
  | _ =>
      if bool_decide (critical config (PipelineStep.name step))
      then dict_update data (default ∅ (fallback config (PipelineStep.name step)))
      else data
  end.

Section Chain.
Variable config : Config.
Variable session_post : nat → HttpOutcome.

(** The step records of a run, each with the call of the executor it
    reports: the call starts in the world the previous one left, on the
    context after the previous record. *)
Inductive steps_run : World → Dict → list PipelineStep.t → World → Dict → Prop :=
| steps_run_nil w data : steps_run w data [] w data
| steps_run_cons w data step_name step_config r w1 rest w' data' :
    find_step config step_name = Some step_config →
    sc_enabled step_config = Some true →
    PipelineOrchestrator._execute_step_with_retry config session_post step_config data w
      = (r, w1) →
    steps_run w1
      (context_after config (record_of step_name step_config data (clock w) r (clock w1)))
      rest w' data' →
    steps_run w data
      (record_of step_name step_config data (clock w) r (clock w1) :: rest) w' data'.
End Chain.

(** The context is handed from record to record. *)
Fixpoint flows (config : Config) (data : Dict) (steps : list PipelineStep.t)
    (final : Dict) : Prop :=
  match steps with
  | [] => final = data
  | step :: rest =>
      PipelineStep.input_data step = Some data ∧
      flows config (context_after config step) rest final
  end.

(** An event of the call of the executor that one of the records reports. *)
Definition recorded_event (config : Config) (steps : list PipelineStep.t)
    (ev : Event) : Prop :=
  ∃ step step_config data,
    step ∈ steps ∧
    find_step config (PipelineStep.name step) = Some step_config ∧
    PipelineStep.component step = sc_component step_config ∧
    PipelineStep.input_data step = Some data ∧
    step_event config step_config data ev.

(** The records lie one after the other between two clock readings. *)
Fixpoint timeline (lo : Z) (steps : list PipelineStep.t) (hi : Z) : Prop :=
  match steps with
  | [] => lo <= hi
  | step :: rest =>
      ∃ started ended,
        PipelineStep.start_time step = Some started ∧
        PipelineStep.end_time step = Some ended ∧
        PipelineStep.duration_ms step = Some ((ended - started) * 1000) ∧
        lo <= started ∧ started <= ended ∧ timeline ended rest hi
  end.

(** [sum(step.duration_ms or 0 for step in steps)] *)
Definition sum_step_durations (steps : list PipelineStep.t) : Z :=
  foldr (fun step acc => default 0 (PipelineStep.duration_ms step) + acc) 0 steps.

(** A record as the loop leaves it. *)
Definition well_formed_record (step : PipelineStep.t) : Prop :=
  is_Some (PipelineStep.start_time step) ∧
  is_Some (PipelineStep.end_time step) ∧
  is_Some (PipelineStep.duration_ms step) ∧
  is_Some (PipelineStep.input_data step) ∧
  PipelineStep.retry_count step = 0 ∧
  match PipelineStep.status step with
  | COMPLETED => is_Some (PipelineStep.output_data step) ∧ PipelineStep.error step = None
  | FAILED => PipelineStep.output_data step = None ∧ is_Some (PipelineStep.error step)
  | _ => False
  end.

(** The step names for which the asynchronous loop creates a record. *)
Definition step_enabled (config : Config) (step_name : string) : bool :=
  match find_step config step_name with
  | Some step_config => bool_decide (sc_enabled step_config = Some true)
  | None => false
  end.

(** The same for the synchronous loop. *)
Definition simple_step_enabled (config : Config) (step_name : string) : bool :=
  match find_step config step_name with
  | Some step_config => default true (sc_enabled step_config)
  | None => false
  end.

(** The number of attempts the configuration allows a step. *)
Definition attempts_budget (config : Config) (step_name : string) : nat :=
  match find_step config step_name with
  | Some step_config => Z.to_nat (default 1 (sc_retry_count step_config) + 1)
  | None => 0
  end.

Definition run_budget (config : Config) (step_names : list string) : nat :=
  foldr (fun step_name acc => (attempts_budget config step_name + acc)%nat) 0%nat step_names.

(** The keys of the mock data the synchronous loop merges after a failed
    step. *)
Definition mock_fields (step_name : string) : list string :=
  if String.eqb step_name "summarize"
  then ["summary_id"; "summary"; "intent"; "urgency"; "type"]
  else if String.eqb step_name "process_summary"
  then ["task_id"; "task_summary"; "priority"; "status"]
  else if String.eqb step_name "respond"
  then ["response_id"; "response_text"; "tone"; "status"]
  else [].

(** The delays of the sleeps among some events, oldest first (a trace has
    the most recent event first). *)
Definition sleeps (events : list Event) : list Z :=
  omap (fun ev => match ev with EvSleep delay => Some delay | _ => None end)
       (reverse events).

(** [retry_delays[min(attempt, len(retry_delays) - 1)]] *)
Definition delay_at (config : Config) (attempt : Z) : Z :=
  let retry_delays := retry_delays (error_handling config) in
  default 0 (list_getitem retry_delays
               (Z.min attempt (Z.of_nat (length retry_delays) - 1))).

(** The failure count of a breaker and its state go together: the breaker
    is closed exactly when the count is below the threshold. *)
Definition breaker_counts (config : Config) (b : Breaker) : Prop :=
  0 <= failures b ∧
  (state b = closed ↔
   failures b < failure_threshold (circuit_breaker (error_handling config))) ∧
  (last_failure b = None → failures b = 0).

(** An event of the synchronous retry loop: a post, or a sleep of one
    second. *)
Definition simple_retry_event (ev : Event) : Prop :=
  ev = EvSleep 1 ∨ is_post ev = true.

(** [a] comes before [b] in a list sorted newest first. *)
Definition newer_first (a b : PipelineExecution.t) : Prop :=
  PipelineExecution.start_time b <= PipelineExecution.start_time a.

Definition started_at (t : Z) (ex : PipelineExecution.t) : bool :=
  PipelineExecution.start_time ex =? t.

(** The step names the built-in configuration lets a mode run. *)
Definition default_steps_of (mode : PipelineMode) : list string :=
  match mode with
  | QUICK => ["summarize"; "respond"]
  | ANALYSIS => ["summarize"]
  | FULL => ["summarize"; "process_summary"; "respond"]
  end.

(** What the entry of a component in the health report says, for a
    component that is enabled or not: it has a status and a boolean
    [healthy], which is true exactly when the component is enabled and its
    probe answered with the status 200 and a body that is empty or decodes. *)
Definition health_entry (session_get : string → string → GetOutcome)
    (component_name : string) (component_config : ComponentConfig) (enabled : bool)
    (entry : gmap string Field) : Prop :=
  is_Some (entry !! "status") ∧
  (entry !! "healthy" = Some (FBool true) ∨ entry !! "healthy" = Some (FBool false)) ∧
  (entry !! "healthy" = Some (FBool true) ↔
   enabled = true ∧
   ∃ elapsed_ms body,
     session_get component_name
       (base_url component_config +:+ health_endpoint component_config)
     = GetResponse 200 elapsed_ms body ∧
     (body = None ∨ ∃ details, body = Some (inr details))).

(** * Properties *)

Ltac unfold_monad :=
  unfold bind, ret, raise, modify, try_except, try_finally, lift, get, getitem,
    time, sleep, get_locals, set_execution, set_current_data, modify_step in *.

Ltac msimpl := repeat (progress (unfold_monad; cbv beta iota zeta in *)).


Lemma update_last_snoc {A} (f : A → A) (l : list A) (x : A) :
  update_last f (l ++ [x]) = l ++ [f x].
Proof.
  unfold update_last. rewrite reverse_snoc. by rewrite reverse_involutive.
Qed.

Lemma dict_truthy_nonempty (d : Dict) : dict_truthy d = true ↔ d ≠ ∅.
Proof.
  unfold dict_truthy. rewrite negb_true_iff, Nat.eqb_neq.
  by rewrite map_size_non_empty_iff.
Qed.

Lemma dict_contains_spec {V} (d : gmap string V) key :
  dict_contains d key = true ↔ key ∈ dom d.
Proof.
  unfold dict_contains. rewrite elem_of_dom.
  destruct (d !! key); split; intros Hk; try done; try by eauto.
Qed.

(** The counters of the trace see only [emit]. *)

Lemma http_calls_set_breakers f w : http_calls (set_breakers f w) = http_calls w.
Proof. done. Qed.
Lemma http_calls_set_clock now w : http_calls (set_clock now w) = http_calls w.
Proof. done. Qed.
Lemma http_calls_set_history f w : http_calls (set_history f w) = http_calls w.
Proof. done. Qed.
Lemma failed_attempts_set_breakers f w :
  failed_attempts (set_breakers f w) = failed_attempts w.
Proof. done. Qed.
Lemma failed_attempts_set_clock now w : failed_attempts (set_clock now w) = failed_attempts w.
Proof. done. Qed.
Lemma failed_attempts_set_history f w :
  failed_attempts (set_history f w) = failed_attempts w.
Proof. done. Qed.
Lemma sleep_count_set_breakers f w : sleep_count (set_breakers f w) = sleep_count w.
Proof. done. Qed.
Lemma sleep_count_set_clock now w : sleep_count (set_clock now w) = sleep_count w.
Proof. done. Qed.
Lemma sleep_count_set_history f w : sleep_count (set_history f w) = sleep_count w.
Proof. done. Qed.

Lemma emit_failed_attempts ev w :
  failed_attempts (emit ev w) =
    (if is_attempt_failed ev then S (failed_attempts w) else failed_attempts w).
Proof.
  unfold failed_attempts, count_events. simpl. by destruct (is_attempt_failed ev).
Qed.

Lemma emit_http_calls ev w :
  http_calls (emit ev w) = (if is_post ev then S (http_calls w) else http_calls w).
Proof. unfold http_calls, count_events. simpl. by destruct (is_post ev). Qed.

Lemma emit_sleep_count ev w :
  sleep_count (emit ev w) = (if is_sleep ev then S (sleep_count w) else sleep_count w).
Proof. unfold sleep_count, count_events. simpl. by destruct (is_sleep ev). Qed.

Create Rewrite HintDb world.
#[global] Hint Rewrite http_calls_set_breakers http_calls_set_clock http_calls_set_history
  failed_attempts_set_breakers failed_attempts_set_clock failed_attempts_set_history
  sleep_count_set_breakers sleep_count_set_clock sleep_count_set_history
  emit_failed_attempts emit_http_calls emit_sleep_count : world.

Ltac wsimpl := autorewrite with world in *; simpl in *.

(** ** The circuit breaker operations, one equation each *)

Section Breaker.
Variable config : Config.

Abbreviation threshold := (failure_threshold (circuit_breaker (error_handling config))).
Abbreviation timeout := (recovery_timeout (circuit_breaker (error_handling config))).
Abbreviation enabled := (cb_enabled (circuit_breaker (error_handling config))).

Lemma record_failure_eq component w b :
  circuit_breakers w !! component = Some b →
  PipelineOrchestrator._record_failure config component w =
    (Ok tt, set_breakers (<[component := after_failure config (clock w) b]>) w).
Proof.
  intros Hb. unfold PipelineOrchestrator._record_failure,
    PipelineOrchestrator.store_breaker.
  msimpl. rewrite Hb. by msimpl.
Qed.

Lemma record_failure_missing component w :
  circuit_breakers w !! component = None →
  PipelineOrchestrator._record_failure config component w = (Raise (KeyError component), w).
Proof.
  intros Hb. unfold PipelineOrchestrator._record_failure. msimpl. rewrite Hb. by msimpl.
Qed.

Lemma reset_eq component w b :
  circuit_breakers w !! component = Some b →
  PipelineOrchestrator._reset_circuit_breaker component w =
    (Ok tt, set_breakers (<[component := after_success b]>) w).
Proof.
  intros Hb. unfold PipelineOrchestrator._reset_circuit_breaker,
    PipelineOrchestrator.store_breaker.
  msimpl. rewrite Hb. by msimpl.
Qed.

Lemma reset_missing component w :
  circuit_breakers w !! component = None →
  PipelineOrchestrator._reset_circuit_breaker component w =
    (Raise (KeyError component), w).
Proof.
  intros Hb. unfold PipelineOrchestrator._reset_circuit_breaker. unfold_monad.
  by rewrite Hb.
Qed.

Lemma consult_disabled component w :
  enabled = false →
  PipelineOrchestrator._is_circuit_open config component w = (Ok false, w).
Proof.
  intros He. unfold PipelineOrchestrator._is_circuit_open. by rewrite He.
Qed.

Lemma consult_missing component w :
  enabled = true → circuit_breakers w !! component = None →
  PipelineOrchestrator._is_circuit_open config component w = (Raise (KeyError component), w).
Proof.
  intros He Hb. unfold PipelineOrchestrator._is_circuit_open. rewrite He.
  cbn [negb]. msimpl. rewrite Hb. by msimpl.
Qed.

Lemma consult_not_open component w b :
  circuit_breakers w !! component = Some b → state b ≠ open →
  PipelineOrchestrator._is_circuit_open config component w = (Ok false, w).
Proof.
  intros Hb Hs. unfold PipelineOrchestrator._is_circuit_open.
  destruct enabled; [|done]. cbn [negb]. msimpl. rewrite Hb. msimpl.
  by rewrite bool_decide_eq_false_2.
Qed.

Lemma consult_blocks component w b :
  enabled = true →
  circuit_breakers w !! component = Some b → state b = open →
  time_truthy (last_failure b) = false ∨ clock w - default 0 (last_failure b) <= timeout →
  PipelineOrchestrator._is_circuit_open config component w = (Ok true, w).
Proof.
  intros He Hb Hs Ht. unfold PipelineOrchestrator._is_circuit_open. rewrite He.
  cbn [negb]. msimpl. rewrite Hb. msimpl. rewrite bool_decide_eq_true_2 by done.
  destruct Ht as [-> | Ht]; [done|].
  replace (timeout <? _) with false; [by rewrite andb_false_r|].
  symmetry. apply Z.ltb_ge. lia.
Qed.

Lemma consult_recovers component w b :
  enabled = true →
  circuit_breakers w !! component = Some b → state b = open →
  time_truthy (last_failure b) = true →
  timeout < clock w - default 0 (last_failure b) →
  PipelineOrchestrator._is_circuit_open config component w =
    (Ok false, set_breakers (<[component := after_recovery b]>) w).
Proof.
  intros He Hb Hs Ht Hlt. unfold PipelineOrchestrator._is_circuit_open,
    PipelineOrchestrator.store_breaker. rewrite He.
  cbn [negb]. msimpl. rewrite Hb. msimpl. rewrite bool_decide_eq_true_2 by done.
  rewrite Ht. cbn [andb]. by rewrite (proj2 (Z.ltb_lt _ _) Hlt).
Qed.
End Breaker.

(** ** The step executor *)

Section Executor.
Variable config : Config.
Variable session_post : nat → HttpOutcome.

Abbreviation single_step := (PipelineOrchestrator._execute_single_step config session_post).
Abbreviation retry_loop := (PipelineOrchestrator.retry_loop config session_post).
Abbreviation with_retry := (PipelineOrchestrator._execute_step_with_retry config session_post).
Abbreviation delays := (retry_delays (error_handling config)).

Lemma single_step_eq step_config data w :
  single_step step_config data w =
    match components config !! sc_component step_config with
    | None => (Raise (KeyError (sc_component step_config)), w)
    | Some component_config =>
        match PipelineOrchestrator.missing_fields step_config data with
        | [] => PipelineOrchestrator.post session_post
                  (base_url component_config +:+ sc_endpoint step_config)
                  (PipelineOrchestrator.request_data step_config data)
                  (default 30 (sc_timeout step_config)) w
        | missing =>
            (Raise (ValueError ("Missing required fields: " +:+ repr_str_list missing)), w)
        end
    end.
Proof.
  unfold PipelineOrchestrator._execute_single_step. msimpl.
  destruct (components config !! sc_component step_config); msimpl; [|done].
  by destruct (PipelineOrchestrator.missing_fields step_config data).
Qed.

(** What one attempt may change: it adds at most one post to the trace. *)
Lemma single_step_effect step_config data w r w' :
  single_step step_config data w = (r, w') →
  circuit_breakers w' = circuit_breakers w ∧
  execution_history w' = execution_history w ∧
  failed_attempts w' = failed_attempts w ∧
  sleep_count w' = sleep_count w ∧
  (http_calls w <= http_calls w' <= S (http_calls w))%nat.
Proof.
  rewrite single_step_eq. intros H.
  destruct (components config !! sc_component step_config).
  - destruct (PipelineOrchestrator.missing_fields step_config data).
    + unfold PipelineOrchestrator.post in H.
      destruct (reply (session_post (http_calls w))); simplify_eq;
        wsimpl; split_and!; done || lia.
    + simplify_eq. repeat split; lia.
  - simplify_eq. repeat split; lia.
Qed.

(** The request body is the whole accumulated context. *)
Lemma request_data_eq step_config (data : Dict) :
  PipelineOrchestrator.request_data step_config data = data.
Proof.
  unfold PipelineOrchestrator.request_data. apply map_eq. intros key.
  rewrite lookup_union.
  destruct (list_to_map _ !! key) as [v|] eqn:Hk.
  - apply elem_of_list_to_map_2 in Hk. apply list_elem_of_omap in Hk.
    destruct Hk as (field & _ & Hf).
    destruct (data !! field) eqn:Hd; simplify_eq/=. by rewrite Hd.
  - by destruct (data !! key).
Qed.

(** A missing required field fails the attempt before any post. *)
Lemma single_step_missing step_config data w :
  PipelineOrchestrator.missing_fields step_config data ≠ [] →
  ∃ e, single_step step_config data w = (Raise e, w) ∧
       (is_Some (components config !! sc_component step_config) →
        e = ValueError ("Missing required fields: " +:+
              repr_str_list (PipelineOrchestrator.missing_fields step_config data))).
Proof.
  intros Hm. rewrite single_step_eq.
  destruct (components config !! sc_component step_config).
  - destruct (PipelineOrchestrator.missing_fields step_config data); [done|]. eauto.
  - eexists. split; [done|]. by intros [? ?].
Qed.

Abbreviation try_attempt := (PipelineOrchestrator.try_attempt config session_post).
Abbreviation except_attempt := (PipelineOrchestrator.except_attempt config).
Abbreviation consult := (PipelineOrchestrator._is_circuit_open config).

(** What the [try] block of an attempt changes. *)
Lemma try_attempt_effect step_config data w r w' :
  try_attempt step_config data w = (r, w') →
  execution_history w' = execution_history w ∧
  failed_attempts w' = failed_attempts w ∧
  sleep_count w' = sleep_count w ∧
  (http_calls w <= http_calls w' <= S (http_calls w))%nat ∧
  match r with
  | Ok _ => ∃ b, circuit_breakers w !! sc_component step_config = Some b ∧
                 circuit_breakers w' =
                   <[sc_component step_config := after_success b]> (circuit_breakers w)
  | Raise _ => circuit_breakers w' = circuit_breakers w
  end.
Proof.
  unfold PipelineOrchestrator.try_attempt. msimpl. intros H.
  destruct (single_step step_config data w) as [[result|e] w1] eqn:Hs;
    apply single_step_effect in Hs as (Hcb & Hh & Hfa & Hsl & Hhc).
  - destruct (circuit_breakers w1 !! sc_component step_config) as [b|] eqn:Hb.
    + rewrite (reset_eq _ _ _ Hb) in H. simplify_eq. wsimpl.
      split_and!; try done; try lia. exists b. by rewrite <- Hcb.
    + rewrite (reset_missing _ _ Hb) in H. by simplify_eq.
  - by simplify_eq.
Qed.

Lemma list_getitem_min {A} (l : list A) (i : Z) :
  l ≠ [] → 0 <= i → is_Some (list_getitem l (Z.min i (Z.of_nat (length l) - 1))).
Proof.
  intros Hl Hi. unfold list_getitem.
  assert (0 < length l)%nat by (destruct l; [done | simpl; lia]).
  replace (0 <=? _) with true by (symmetry; apply Z.leb_le; lia).
  replace (_ <? Z.of_nat (length l)) with true by (symmetry; apply Z.ltb_lt; lia).
  simpl. apply lookup_lt_is_Some. lia.
Qed.

(** What the [except] block of an attempt changes: it logs the failed
    attempt, then sleeps before the next attempt or, after the last one,
    records the failure of the component. *)
Lemma except_attempt_effect step_config retry_count attempt e w r w' :
  except_attempt step_config retry_count attempt e w = (r, w') →
  execution_history w' = execution_history w ∧
  http_calls w' = http_calls w ∧
  failed_attempts w' = S (failed_attempts w) ∧
  if attempt <? retry_count then
    circuit_breakers w' = circuit_breakers w ∧
    ((r = Ok tt ∧ sleep_count w' = S (sleep_count w)) ∨
     ((∃ e', r = Raise e') ∧ sleep_count w' = sleep_count w ∧
      (0 <= attempt → delays = [])))
  else
    sleep_count w' = sleep_count w ∧
    match circuit_breakers w !! sc_component step_config with
    | Some b => r = Ok tt ∧ ∃ now,
                  circuit_breakers w' =
                    <[sc_component step_config := after_failure config now b]>
                      (circuit_breakers w)
    | None => r = Raise (KeyError (sc_component step_config)) ∧
              circuit_breakers w' = circuit_breakers w
    end.
Proof.
  unfold PipelineOrchestrator.except_attempt. msimpl. intros H.
  destruct (attempt <? retry_count).
  - destruct (list_getitem delays _) eqn:Hd; msimpl; simplify_eq; wsimpl;
      split_and!; try done; try lia.
    + by left.
    + right. repeat split; [by eauto|].
      intros Ha. destruct delays eqn:Hl; [done|].
      destruct (list_getitem_min delays attempt) as [d Hd']; [by rewrite Hl|done|].
      rewrite Hl in Hd'. congruence.
  - destruct (circuit_breakers w !! sc_component step_config) as [b|] eqn:Hb.
    + rewrite (record_failure_eq config (sc_component step_config) _ b) in H by done.
      simplify_eq. wsimpl. split_and!; try done; try lia. by eexists.
    + rewrite record_failure_missing in H by done.
      simplify_eq. wsimpl. split_and!; try done; try lia.
Qed.

(** The retry loop over the attempts [k, k+1, .., retry_count]. *)
Lemma retry_loop_spec step_config data retry_count m :
  ∀ k last w r w',
    Z.of_nat (k + m) = retry_count + 1 →
    retry_loop step_config data retry_count (Z.of_nat <$> seq k m) last w = (r, w') →
    execution_history w' = execution_history w ∧
    (http_calls w <= http_calls w' <= http_calls w + m)%nat ∧
    (failed_attempts w <= failed_attempts w' <= failed_attempts w + m)%nat ∧
    match r with
    | Ok _ => ∃ b, circuit_breakers w !! sc_component step_config = Some b ∧
                   circuit_breakers w' =
                     <[sc_component step_config := after_success b]> (circuit_breakers w)
    | Raise _ =>
        (0 < m)%nat → failed_attempts w' = (failed_attempts w + m)%nat →
        ∀ b, circuit_breakers w !! sc_component step_config = Some b →
             ∃ now, circuit_breakers w' =
                      <[sc_component step_config := after_failure config now b]>
                        (circuit_breakers w)
    end.
Proof.
  induction m as [|m IH]; intros k last w r w' Hk H.
  - simpl in H. destruct last; msimpl; simplify_eq; split_and!; try done; try lia.
    all: intros; lia.
  - simpl in H. unfold try_except in H.
    destruct (try_attempt step_config data w) as [[result|e] w1] eqn:Ht;
      apply try_attempt_effect in Ht as (Hh & Hfa & Hsl & Hhc & Hcb).
    + simplify_eq. split_and!; try done; lia.
    + unfold bind in H.
      destruct (except_attempt step_config retry_count (Z.of_nat k) e w1) as [[[]|e'] w2] eqn:He;
        apply except_attempt_effect in He as (Hh2 & Hhc2 & Hfa2 & Hrest).
      * pose proof H as H0.
        apply IH in H as (Hh3 & Hhc3 & Hfa3 & Hr); [|lia].
        split_and!; try congruence; try lia.
        destruct r as [result|e3].
        -- destruct (Z.of_nat k <? retry_count) eqn:Hlt.
           ++ destruct Hrest as [Hcb2 _]. by rewrite Hcb2, Hcb in Hr.
           ++ apply Z.ltb_ge in Hlt. assert (m = 0)%nat as -> by lia.
              simpl in H0. by unfold raise in H0.
        -- intros _ Hex b Hb.
           destruct (Z.of_nat k <? retry_count) eqn:Hlt.
           ++ destruct Hrest as [Hcb2 _]. rewrite Hcb2, Hcb in Hr.
              apply Z.ltb_lt in Hlt. apply Hr; [lia|lia|done].
           ++ apply Z.ltb_ge in Hlt. assert (m = 0)%nat as -> by lia.
              simpl in H0. destruct Hrest as [_ Hrest].
              rewrite Hcb, Hb in Hrest. destruct Hrest as [_ [now Hnow]].
              exists now. unfold raise in H0. injection H0 as <- <-. by rewrite Hnow.
      * simplify_eq. split_and!; try congruence; try lia.
        intros _ Hex b Hb.
        destruct (Z.of_nat k <? retry_count) eqn:Hlt.
        -- apply Z.ltb_lt in Hlt. lia.
        -- destruct Hrest as [_ Hrest]. rewrite Hcb, Hb in Hrest.
           by destruct Hrest.
Qed.

(** The executor: the consultation of the breaker, then the loop. *)
Lemma with_retry_eq step_config data w :
  with_retry step_config data w =
    match consult (sc_component step_config) w with
    | (Ok true, w1) =>
        (Raise (Exception ("Circuit breaker open for component " +:+
                           sc_component step_config)), w1)
    | (Ok false, w1) =>
        retry_loop step_config data (default 1 (sc_retry_count step_config))
          (range (default 1 (sc_retry_count step_config) + 1)) None w1
    | (Raise e, w1) => (Raise e, w1)
    end.
Proof.
  unfold PipelineOrchestrator._execute_step_with_retry. msimpl.
  by destruct (consult (sc_component step_config) w) as [[[|]|e] w1].
Qed.

(** A consultation changes nothing but, possibly, the state of the
    breaker it reads. *)
Lemma consult_effect component w r w' :
  consult component w = (r, w') →
  execution_history w' = execution_history w ∧
  trace w' = trace w ∧ clock w' = clock w ∧
  match circuit_breakers w !! component with
  | Some b => ∃ b', circuit_breakers w' = <[component := b']> (circuit_breakers w) ∧
                    failures b' = failures b ∧ last_failure b' = last_failure b ∧
                    (b' = b ∨ (state b = open ∧ b' = after_recovery b))
  | None => circuit_breakers w' = circuit_breakers w
  end.
Proof.
  intros H.
  destruct (cb_enabled (circuit_breaker (error_handling config))) eqn:He.
  - destruct (circuit_breakers w !! component) as [b|] eqn:Hb.
    + destruct (decide (state b = open)) as [Hs|Hs].
      * destruct (time_truthy (last_failure b)) eqn:Ht.
        -- destruct (decide (recovery_timeout (circuit_breaker (error_handling config))
                             < clock w - default 0 (last_failure b))) as [Hlt|Hlt].
           ++ rewrite (consult_recovers config component w b) in H by done.
              simplify_eq. simpl. split_and!; try done; try lia.
              exists (after_recovery b). split_and!; try done; try lia. by right.
           ++ rewrite (consult_blocks config component w b) in H by (auto; right; lia).
              simplify_eq. split_and!; try done; try lia.
              exists b. rewrite insert_id by done. split_and!; try done; try lia. by left.
        -- rewrite (consult_blocks config component w b) in H by auto.
           simplify_eq. split_and!; try done; try lia.
           exists b. rewrite insert_id by done. split_and!; try done; try lia. by left.
      * rewrite (consult_not_open config component w b) in H by done.
        simplify_eq. split_and!; try done; try lia.
        exists b. rewrite insert_id by done. split_and!; try done; try lia. by left.
    + rewrite consult_missing in H by done. by simplify_eq.
  - rewrite consult_disabled in H by done. simplify_eq. split_and!; try done; try lia.
    destruct (circuit_breakers w' !! component) as [b|] eqn:Hb; [|done].
    exists b. rewrite insert_id by done. split_and!; try done; try lia. by left.
Qed.

Lemma consult_counts component w r w' :
  consult component w = (r, w') →
  http_calls w' = http_calls w ∧ failed_attempts w' = failed_attempts w ∧
  sleep_count w' = sleep_count w.
Proof.
  intros H. apply consult_effect in H as (_ & Ht & _).
  unfold http_calls, failed_attempts, sleep_count, count_events. by rewrite Ht.
Qed.

Lemma range_seq (n : Z) : range n = Z.of_nat <$> seq 0 (Z.to_nat n).
Proof. done. Qed.

(** With a required field missing, every attempt fails before its post. *)
Lemma try_attempt_missing step_config data w :
  PipelineOrchestrator.missing_fields step_config data ≠ [] →
  ∃ e, try_attempt step_config data w = (Raise e, w) ∧
       (is_Some (components config !! sc_component step_config) →
        e = ValueError ("Missing required fields: " +:+
              repr_str_list (PipelineOrchestrator.missing_fields step_config data))).
Proof.
  intros Hm. destruct (single_step_missing step_config data w Hm) as (e & He & Hv).
  exists e. split; [|done].
  unfold PipelineOrchestrator.try_attempt. msimpl. by rewrite He.
Qed.

Lemma retry_loop_missing_no_post step_config data retry_count attempts :
  PipelineOrchestrator.missing_fields step_config data ≠ [] →
  ∀ last w r w',
    retry_loop step_config data retry_count attempts last w = (r, w') →
    (∃ e, r = Raise e) ∧ http_calls w' = http_calls w.
Proof.
  intros Hm. induction attempts as [|attempt rest IH]; intros last w r w' H.
  - simpl in H. destruct last; unfold raise in H; simplify_eq; eauto.
  - simpl in H. unfold try_except in H.
    destruct (try_attempt_missing step_config data w Hm) as (e & He & _).
    rewrite He in H. unfold bind in H.
    destruct (except_attempt step_config retry_count attempt e w) as [[[]|e'] w2] eqn:Hx;
      apply except_attempt_effect in Hx as (_ & Hhc & _).
    + apply IH in H as [? ?]. split; [done|congruence].
    + simplify_eq. eauto.
Qed.

Lemma retry_loop_missing step_config data retry_count component_config b m :
  PipelineOrchestrator.missing_fields step_config data ≠ [] →
  components config !! sc_component step_config = Some component_config →
  delays ≠ [] →
  ∀ k last w,
    circuit_breakers w !! sc_component step_config = Some b →
    Z.of_nat (k + S m) = retry_count + 1 →
    ∃ w' now,
      retry_loop step_config data retry_count (Z.of_nat <$> seq k (S m)) last w =
        (Raise (ValueError ("Missing required fields: " +:+
            repr_str_list (PipelineOrchestrator.missing_fields step_config data))), w') ∧
      http_calls w' = http_calls w ∧
      sleep_count w' = (sleep_count w + m)%nat ∧
      failed_attempts w' = (failed_attempts w + S m)%nat ∧
      circuit_breakers w' =
        <[sc_component step_config := after_failure config now b]> (circuit_breakers w).
Proof.
  intros Hm Hc Hd. induction m as [|m IH]; intros k last w Hb Hk.
  - simpl. unfold try_except.
    destruct (try_attempt_missing step_config data w Hm) as (e & He & Hv).
    rewrite He, (Hv ltac:(eauto)). unfold bind.
    destruct (except_attempt step_config retry_count (Z.of_nat k) _ w) as [r w2] eqn:Hx.
    apply except_attempt_effect in Hx as (_ & Hhc & Hfa & Hrest).
    replace (Z.of_nat k <? retry_count) with false in Hrest
      by (symmetry; apply Z.ltb_ge; lia).
    rewrite Hb in Hrest. destruct Hrest as (Hsl & -> & now & Hcb).
    exists w2, now. unfold raise. split_and!; try done; lia.
  - change (Z.of_nat <$> seq k (S (S m)))
      with (Z.of_nat k :: (Z.of_nat <$> seq (S k) (S m))).
    cbn [PipelineOrchestrator.retry_loop]. unfold try_except.
    destruct (try_attempt_missing step_config data w Hm) as (e & He & Hv).
    rewrite He, (Hv ltac:(eauto)). unfold bind.
    destruct (except_attempt step_config retry_count (Z.of_nat k) _ w) as [r w2] eqn:Hx.
    apply except_attempt_effect in Hx as (_ & Hhc & Hfa & Hrest).
    replace (Z.of_nat k <? retry_count) with true in Hrest
      by (symmetry; apply Z.ltb_lt; lia).
    destruct Hrest as (Hcb & [[-> Hsl] | [_ [_ Hnil]]]); [|by specialize (Hnil ltac:(lia))].
    destruct (IH (S k) (Some (ValueError ("Missing required fields: " +:+
                repr_str_list (PipelineOrchestrator.missing_fields step_config data)))) w2)
      as (w' & now & Hr & Hhc' & Hsl' & Hfa' & Hcb'); [by rewrite Hcb|lia|].
    exists w', now. rewrite Hr. split_and!; try done; try lia. by rewrite Hcb', Hcb.
Qed.

(** C4.  A step configured with [retry_count = N] makes at most [N+1]
    attempts (posts, and logged failed attempts) in one call of the
    executor; when the call fails after all [N+1] attempts have failed, the
    failure count of the component's breaker has grown by exactly one. *)
Theorem retry_budget step_config data N w r w' b :
  sc_retry_count step_config = Some N → 0 <= N →
  circuit_breakers w !! sc_component step_config = Some b →
  with_retry step_config data w = (r, w') →
  (http_calls w' <= http_calls w + Z.to_nat (N + 1))%nat ∧
  (failed_attempts w' <= failed_attempts w + Z.to_nat (N + 1))%nat ∧
  (∀ e, r = Raise e →
        failed_attempts w' = (failed_attempts w + Z.to_nat (N + 1))%nat →
        ∃ b', circuit_breakers w' !! sc_component step_config = Some b' ∧
              failures b' = failures b + 1).
Proof.
  intros HN Hpos Hb. rewrite with_retry_eq, HN. simpl.
  destruct (consult (sc_component step_config) w) as [[[|]|e0] w1] eqn:Hc;
    pose proof (consult_counts _ _ _ _ Hc) as (Hhc & Hfa & Hsl);
    apply consult_effect in Hc as (_ & _ & _ & Hcb); rewrite Hb in Hcb;
    destruct Hcb as (b1 & Hcb & Hf1 & _); intros H.
  - simplify_eq. split_and!; try lia. all: intros e _ Hex; lia.
  - rewrite range_seq in H.
    apply retry_loop_spec in H as (_ & Hhc' & Hfa' & Hr); [|lia].
    split_and!; try lia. intros e -> Hex.
    destruct (Hr ltac:(lia) ltac:(lia) b1) as [now Hnow].
    { by rewrite Hcb, lookup_insert_eq. }
    exists (after_failure config now b1). rewrite Hnow, lookup_insert_eq.
    split; [done|]. simpl. lia.
  - simplify_eq. split_and!; try lia. all: intros e _ Hex; lia.
Qed.

(** C1, as the code has it.  When a required field is missing, a call of
    the executor fails and makes no HTTP attempt; but the validation error
    is retried like any other failure: when the component is configured and
    the breaker does not block, the validation is attempted [N+1] times
    with [N] sleeps in between, the validation error is then raised and one
    failure is recorded against the breaker. *)
Theorem missing_field_fails_without_post step_config data w r w' :
  PipelineOrchestrator.missing_fields step_config data ≠ [] →
  with_retry step_config data w = (r, w') →
  (∃ e, r = Raise e) ∧ http_calls w' = http_calls w ∧
  (∀ component_config b N,
      components config !! sc_component step_config = Some component_config →
      circuit_breakers w !! sc_component step_config = Some b →
      fst (consult (sc_component step_config) w) = Ok false →
      sc_retry_count step_config = Some N → 0 <= N → delays ≠ [] →
      r = Raise (ValueError ("Missing required fields: " +:+
             repr_str_list (PipelineOrchestrator.missing_fields step_config data))) ∧
      failed_attempts w' = (failed_attempts w + Z.to_nat (N + 1))%nat ∧
      sleep_count w' = (sleep_count w + Z.to_nat N)%nat ∧
      ∃ b', circuit_breakers w' !! sc_component step_config = Some b' ∧
            failures b' = failures b + 1).
Proof.
  intros Hm. rewrite with_retry_eq.
  destruct (consult (sc_component step_config) w) as [[[|]|e0] w1] eqn:Hc;
    pose proof (consult_counts _ _ _ _ Hc) as (Hhc & Hfa & Hsl);
    apply consult_effect in Hc as (_ & _ & _ & Hcb); intros H.
  - simplify_eq. split_and!; [by eauto|done|]. by intros ? ? ? ? ? ?.
  - pose proof H as H0.
    apply retry_loop_missing_no_post in H as [He Hp]; [|done].
    split_and!; [done|congruence|].
    intros component_config b N Hcc Hb _ HN Hpos Hd.
    rewrite Hb in Hcb. destruct Hcb as (b1 & Hcb & Hf1 & _).
    rewrite HN, range_seq in H0. simpl in H0.
    replace (Z.to_nat (N + 1)) with (S (Z.to_nat N)) in * by lia.
    destruct (retry_loop_missing step_config data N component_config b1 (Z.to_nat N)
                Hm Hcc Hd 0%nat None w1) as (w2 & now & Hr & Hhc2 & Hsl2 & Hfa2 & Hcb2).
    { by rewrite Hcb, lookup_insert_eq. }
    { lia. }
    rewrite Hr in H0. simplify_eq. split_and!; try done; try lia.
    exists (after_failure config now b1). rewrite Hcb2, lookup_insert_eq.
    split; [done|]. simpl. lia.
  - simplify_eq. split_and!; [by eauto|done|]. by intros ? ? ? ? ? ?.
Qed.
End Executor.

(** ** One iteration of the orchestrator's loop *)

Section Iteration.
Variable config : Config.
Variable session_post : nat → HttpOutcome.

Lemma modify_last_appended f started ex :
  with_steps (update_last f) (with_steps (fun steps => steps ++ [started]) ex) =
  append_step (f started) ex.
Proof.
  unfold append_step, with_steps. simpl. by rewrite update_last_snoc.
Qed.

Lemma run_step_outcome step_name w l r w' l' :
  PipelineOrchestrator.run_step config session_post step_name (w, l) = (r, (w', l')) →
  step_outcome config session_post step_name w l r w' l'.
Proof.
  unfold PipelineOrchestrator.run_step, PipelineOrchestrator._get_step_config.
  msimpl. intros H.
  destruct (find_step config step_name) as [step_config|] eqn:Hfind; msimpl;
    [|simplify_eq; by constructor].
  destruct (sc_enabled step_config) as [[|]|] eqn:Hen; msimpl; cbn [negb] in H;
    [|simplify_eq; by econstructor|simplify_eq; by econstructor].
  cbn [fst snd execution current_data] in H.
  destruct (PipelineOrchestrator._execute_step_with_retry config session_post
              step_config (current_data l) w) as [[step_result|e] w1] eqn:Hrun.
  - cbn [fst snd execution current_data] in H.
    rewrite modify_last_appended in H. simplify_eq. by econstructor.
  - cbn [fst snd execution current_data] in H.
    rewrite modify_last_appended in H.
    destruct (decide (critical config step_name)) as [Hc|Hc].
    + rewrite bool_decide_eq_true_2 in H by done.
      destruct (fallback config step_name) as [fallback_data|] eqn:Hfb.
      * destruct (dict_truthy fallback_data) eqn:Ht.
        -- cbn [fst snd execution current_data] in H. simplify_eq.
           eapply outcome_failed_fallback; try done. by apply dict_truthy_nonempty.
        -- cbn [fst snd execution current_data] in H. simplify_eq.
           eapply outcome_failed_fatal; try done. right.
           destruct (decide (fallback_data = ∅)) as [->|Hne]; [done|].
           apply dict_truthy_nonempty in Hne. congruence.
      * cbn [fst snd execution current_data] in H. simplify_eq.
        eapply outcome_failed_fatal; try done. by left.
    + rewrite bool_decide_eq_false_2 in H by done. simplify_eq.
      by eapply outcome_failed_tolerated.
Qed.
End Iteration.

(** ** Properties of the world preserved by a pipeline run

    A property of the world that survives the elementary effects (an event,
    the passing of time, the three breaker operations) survives the executor
    and the loop of the orchestrator. *)

Section Preservation.
Variable config : Config.
Variable session_post : nat → HttpOutcome.
Variable P : World → Prop.
Hypothesis P_emit : ∀ ev w, P w → P (emit ev w).
Hypothesis P_clock : ∀ now w, P w → P (set_clock now w).
Hypothesis P_record :
  ∀ component w, P w → P (snd (PipelineOrchestrator._record_failure config component w)).
Hypothesis P_reset :
  ∀ component w, P w → P (snd (PipelineOrchestrator._reset_circuit_breaker component w)).
Hypothesis P_consult :
  ∀ component w, P w → P (snd (PipelineOrchestrator._is_circuit_open config component w)).

Lemma single_step_preserves step_config data w r w' :
  PipelineOrchestrator._execute_single_step config session_post step_config data w = (r, w') →
  P w → P w'.
Proof.
  rewrite single_step_eq. intros H HP.
  destruct (components config !! sc_component step_config); [|by simplify_eq].
  destruct (PipelineOrchestrator.missing_fields step_config data); [|by simplify_eq].
  unfold PipelineOrchestrator.post in H.
  destruct (reply (session_post (http_calls w))); simplify_eq; by apply P_emit, P_clock.
Qed.

Lemma try_attempt_preserves step_config data w r w' :
  PipelineOrchestrator.try_attempt config session_post step_config data w = (r, w') →
  P w → P w'.
Proof.
  unfold PipelineOrchestrator.try_attempt. msimpl. intros H HP.
  destruct (PipelineOrchestrator._execute_single_step _ _ _ _ w) as [[result|e] w1] eqn:Hs;
    apply single_step_preserves in Hs; try done; [|by simplify_eq].
  pose proof (P_reset (sc_component step_config) w1 Hs) as HP2.
  destruct (PipelineOrchestrator._reset_circuit_breaker _ w1) as [[[]|e] w2];
    by simplify_eq.
Qed.

Lemma except_attempt_preserves step_config retry_count attempt e w r w' :
  PipelineOrchestrator.except_attempt config step_config retry_count attempt e w = (r, w') →
  P w → P w'.
Proof.
  unfold PipelineOrchestrator.except_attempt. msimpl. intros H HP.
  destruct (attempt <? retry_count).
  - destruct (list_getitem _ _); msimpl; simplify_eq.
    + by apply P_emit, P_clock, P_emit.
    + by apply P_emit.
  - pose proof (P_record (sc_component step_config) _ (P_emit
      (EvAttemptFailed (sc_name step_config) (attempt + 1) (str e)) w HP)) as HP2.
    by rewrite H in HP2.
Qed.

Lemma retry_loop_preserves step_config data retry_count attempts :
  ∀ last w r w',
    PipelineOrchestrator.retry_loop config session_post step_config data retry_count
      attempts last w = (r, w') →
    P w → P w'.
Proof.
  induction attempts as [|attempt rest IH]; intros last w r w' H HP.
  - simpl in H. destruct last; unfold raise in H; by simplify_eq.
  - simpl in H. unfold try_except, bind in H.
    destruct (PipelineOrchestrator.try_attempt _ _ _ _ w) as [[result|e] w1] eqn:Ht;
      apply try_attempt_preserves in Ht; try done; [by simplify_eq|].
    destruct (PipelineOrchestrator.except_attempt _ _ _ _ _ w1) as [[[]|e'] w2] eqn:Hx;
      apply except_attempt_preserves in Hx; try done; [|by simplify_eq].
    by eapply IH.
Qed.

Lemma with_retry_preserves step_config data w r w' :
  PipelineOrchestrator._execute_step_with_retry config session_post step_config data w
    = (r, w') →
  P w → P w'.
Proof.
  rewrite with_retry_eq. intros H HP.
  pose proof (P_consult (sc_component step_config) w HP) as HP1.
  destruct (PipelineOrchestrator._is_circuit_open _ _ w) as [[[|]|e] w1];
    simpl in HP1; try by simplify_eq.
  by eapply retry_loop_preserves.
Qed.

Lemma run_step_preserves step_name w l r w' l' :
  PipelineOrchestrator.run_step config session_post step_name (w, l) = (r, (w', l')) →
  P w → P w'.
Proof.
  intros H HP. apply run_step_outcome in H.
  destruct H; try done; by eapply with_retry_preserves.
Qed.

Lemma run_steps_preserves step_sequence :
  ∀ w l r w' l',
    PipelineOrchestrator.run_steps config session_post step_sequence (w, l)
      = (r, (w', l')) →
    P w → P w'.
Proof.
  induction step_sequence as [|step_name rest IH]; intros w l r w' l' H HP.
  - simpl in H. unfold ret in H. by simplify_eq.
  - simpl in H. unfold bind in H.
    destruct (PipelineOrchestrator.run_step _ _ _ (w, l)) as [[[|]|e] [w1 l1]] eqn:Hs;
      apply run_step_preserves in Hs; try done.
    + by eapply IH.
    + unfold ret in H. by simplify_eq.
    + by simplify_eq.
Qed.

Lemma pipeline_body_preserves input_data mode w l r w' l' :
  PipelineOrchestrator.pipeline_body config session_post input_data mode (w, l)
    = (r, (w', l')) →
  P w → P w'.
Proof.
  unfold PipelineOrchestrator.pipeline_body. msimpl. cbn [fst snd]. intros H HP.
  destruct (PipelineOrchestrator.run_steps _ _ _ _) as [[[]|e] [w1 l1]] eqn:Hs;
    apply run_steps_preserves in Hs; try done; [|by simplify_eq].
  cbn [fst snd] in H. destruct (bool_decide _); by simplify_eq.
Qed.
End Preservation.

(** ** The frame of [execute_pipeline]: [try], [except], [finally] *)

Section Frame.
Variable config : Config.
Variable session_post : nat → HttpOutcome.
Variable log_file : nat → LogOutcome.

Abbreviation body := (PipelineOrchestrator.pipeline_body config session_post).
Abbreviation initial_locals mode execution_id w :=
  {| execution := PipelineOrchestrator.new_execution mode execution_id (clock w);
     current_data := ∅ |}.

Lemma record_failure_history component w :
  execution_history (snd (PipelineOrchestrator._record_failure config component w))
  = execution_history w.
Proof.
  destruct (circuit_breakers w !! component) as [b|] eqn:Hb.
  - by rewrite (record_failure_eq config component w b).
  - by rewrite record_failure_missing.
Qed.

Lemma reset_history component w :
  execution_history (snd (PipelineOrchestrator._reset_circuit_breaker component w))
  = execution_history w.
Proof.
  destruct (circuit_breakers w !! component) as [b|] eqn:Hb.
  - by rewrite (reset_eq component w b).
  - by rewrite reset_missing.
Qed.

Lemma consult_history component w :
  execution_history (snd (PipelineOrchestrator._is_circuit_open config component w))
  = execution_history w.
Proof.
  destruct (PipelineOrchestrator._is_circuit_open config component w) as [r w'] eqn:H.
  by apply consult_effect in H as (? & _).
Qed.

(** Only the [finally] clause touches the history. *)
Lemma body_history input_data mode w l r w' l' :
  body input_data mode (w, l) = (r, (w', l')) →
  execution_history w' = execution_history w.
Proof.
  intros H.
  eapply (pipeline_body_preserves config session_post
            (fun w0 => execution_history w0 = execution_history w)); try done.
  - intros component w0 Hw0. by rewrite record_failure_history.
  - intros component w0 Hw0. by rewrite reset_history.
  - intros component w0 Hw0. by rewrite consult_history.
Qed.

(** A body that ends normally leaves a terminal status. *)
Lemma body_status input_data mode w l w' l' :
  body input_data mode (w, l) = (Ok tt, (w', l')) →
  is_terminal (execution l').
Proof.
  unfold PipelineOrchestrator.pipeline_body. msimpl. cbn [fst snd]. intros H.
  destruct (PipelineOrchestrator.run_steps _ _ _ _) as [[[]|e] [w1 l1]];
    [|by simplify_eq].
  cbn [fst snd] in H. unfold is_terminal.
  destruct (decide (PipelineExecution.status (execution l1) = FAILED)) as [Hs|Hs].
  - rewrite bool_decide_eq_false_2 in H by (by intros ?). simplify_eq. by right.
  - rewrite bool_decide_eq_true_2 in H by done. simplify_eq. by left.
Qed.

Lemma log_written_breakers outcome ex w :
  circuit_breakers (log_written outcome ex w) = circuit_breakers w.
Proof. by destruct outcome. Qed.

Lemma log_written_history outcome ex w :
  execution_history (log_written outcome ex w) = execution_history w.
Proof. by destruct outcome. Qed.

Lemma log_written_clock outcome ex w : clock (log_written outcome ex w) = clock w.
Proof. by destruct outcome. Qed.

Lemma log_written_trace outcome ex w :
  trace (log_written outcome ex w) = log_events outcome ex ++ trace w.
Proof. by destruct outcome. Qed.

Lemma log_written_http_calls outcome ex w :
  http_calls (log_written outcome ex w) = http_calls w.
Proof. by destruct outcome. Qed.

Lemma log_written_sleep_count outcome ex w :
  sleep_count (log_written outcome ex w) = sleep_count w.
Proof. by destruct outcome. Qed.

Lemma log_written_failed_attempts outcome ex w :
  failed_attempts (log_written outcome ex w) = failed_attempts w.
Proof. by destruct outcome. Qed.

Lemma log_result_ok outcome ex ex' : log_result outcome ex = Ok ex' → ex' = ex.
Proof. destruct outcome; simpl; congruence. Qed.

(** The call from the run of its [try] block: the [finally] clause sets
    the end, appends the record to the history and saves the log. *)
Lemma execute_pipeline_locals_eq input_data mode execution_id w rb wb lb :
  body input_data mode (w, initial_locals mode execution_id w) = (rb, (wb, lb)) →
  PipelineOrchestrator.execute_pipeline_locals config session_post log_file
    input_data mode execution_id w =
  let ex := with_end (clock wb) (execution (settle rb lb)) in
  let outcome := log_file (length (execution_history wb ++ [ex])) in
  (log_result outcome ex,
   (log_written outcome ex (set_history (fun history => history ++ [ex]) wb),
    {| execution := ex; current_data := current_data (settle rb lb) |})).
Proof.
  intros Hb. unfold PipelineOrchestrator.execute_pipeline_locals,
    PipelineOrchestrator.pipeline_finally, PipelineOrchestrator.pipeline_handler,
    PipelineOrchestrator._save_execution_log.
  msimpl. rewrite Hb. destruct rb as [[]|e]; cbn [settle execution_history set_history];
    by destruct (log_file _).
Qed.

Lemma execute_pipeline_eq input_data mode execution_id w rb wb lb :
  body input_data mode (w, initial_locals mode execution_id w) = (rb, (wb, lb)) →
  PipelineOrchestrator.execute_pipeline config session_post log_file
    input_data mode execution_id w =
  let ex := with_end (clock wb) (execution (settle rb lb)) in
  let outcome := log_file (length (execution_history wb ++ [ex])) in
  (log_result outcome ex,
   log_written outcome ex (set_history (fun history => history ++ [ex]) wb)).
Proof.
  intros Hb. unfold PipelineOrchestrator.execute_pipeline.
  by rewrite (execute_pipeline_locals_eq _ _ _ _ _ _ _ Hb).
Qed.

(** Every call finalizes a record and appends it to the history; it gives
    the record back unless the log directory could not be created, and then
    it raises what [mkdir] raised. *)
Lemma execute_pipeline_finalized input_data mode execution_id w :
  ∃ ex w',
    PipelineOrchestrator.execute_pipeline config session_post log_file
      input_data mode execution_id w
    = (log_result (log_file (S (length (execution_history w)))) ex, w') ∧
    PipelineExecution.end_time ex = Some (clock w') ∧
    PipelineExecution.total_duration_ms ex
      = Some ((clock w' - PipelineExecution.start_time ex) * 1000) ∧
    execution_history w' = execution_history w ++ [ex] ∧
    is_terminal ex ∧
    match fst (body input_data mode (w, initial_locals mode execution_id w)) with
    | Raise e => PipelineExecution.status ex = FAILED ∧
                 PipelineExecution.error ex = Some (str e)
    | Ok _ => True
    end.
Proof.
  destruct (body input_data mode (w, initial_locals mode execution_id w))
    as [rb [wb lb]] eqn:Hb.
  rewrite (execute_pipeline_eq _ _ _ _ _ _ _ Hb).
  pose proof (body_history _ _ _ _ _ _ _ Hb) as Hh. cbn zeta.
  rewrite length_app, Hh, Nat.add_1_r.
  eexists _, _. split; [done|]. cbn [fst].
  rewrite log_written_clock, log_written_history.
  split_and!; try done.
  - simpl. by rewrite Hh.
  - destruct rb as [[]|e]; [by apply body_status in Hb|]. by right.
  - by destruct rb.
Qed.

(** C5.  For every input payload, mode and state of the orchestrator,
    [execute_pipeline] finalizes a record: its end time and total duration
    are set, its status is COMPLETED or FAILED, never IN_PROGRESS, it is the
    last entry of the execution history, and when the [try] block raised an
    exception, its status is FAILED and its error is the text of that
    exception.  The call gives this record back when the file system lets
    [_save_execution_log] create the directory of the logs, also when the
    file itself cannot be written; but when [mkdir] raises, that exception
    leaves the [finally] clause and [execute_pipeline] raises it instead of
    returning. *)
Theorem execute_pipeline_raises_what_mkdir_raises input_data mode execution_id w :
  ∃ ex w' ended,
    PipelineOrchestrator.execute_pipeline config session_post log_file
      input_data mode execution_id w
    = (match log_file (S (length (execution_history w))) with
       | MkdirRaises e => Raise e
       | DumpRaises _ | Saved => Ok ex
       end, w') ∧
    PipelineExecution.end_time ex = Some ended ∧
    PipelineExecution.total_duration_ms ex
      = Some ((ended - PipelineExecution.start_time ex) * 1000) ∧
    last (execution_history w') = Some ex ∧
    execution_history w' = execution_history w ++ [ex] ∧
    PipelineExecution.status ex ≠ IN_PROGRESS ∧
    (PipelineExecution.status ex = COMPLETED ∨ PipelineExecution.status ex = FAILED) ∧
    match fst (body input_data mode (w, initial_locals mode execution_id w)) with
    | Raise e => PipelineExecution.status ex = FAILED ∧
                 PipelineExecution.error ex = Some (str e)
    | Ok _ => True
    end.
Proof.
  destruct (execute_pipeline_finalized input_data mode execution_id w)
    as (ex & w' & Hrun & Hend & Hdur & Hh & Hterm & Hexn).
  exists ex, w', (clock w'). split_and!; try done.
  - rewrite Hh. apply last_snoc.
  - by destruct Hterm as [-> | ->].
Qed.
End Frame.

(** ** The loop over the step sequence *)

Section Loop.
Variable config : Config.
Variable session_post : nat → HttpOutcome.

Abbreviation outcome := (step_outcome config session_post).

Lemma run_steps_runs step_sequence :
  ∀ w l r w' l',
    PipelineOrchestrator.run_steps config session_post step_sequence (w, l)
      = (r, (w', l')) →
    runs config session_post step_sequence w l r w' l'.
Proof.
  induction step_sequence as [|step_name rest IH]; intros w l r w' l' H.
  - simpl in H. unfold ret in H. simplify_eq. constructor.
  - simpl in H. unfold bind in H.
    destruct (PipelineOrchestrator.run_step _ _ _ (w, l)) as [[[|]|e] [w1 l1]] eqn:Hs;
      apply run_step_outcome in Hs.
    + eapply runs_continue; [done|]. by apply IH.
    + unfold ret in H. simplify_eq. by eapply runs_break.
    + simplify_eq. by eapply runs_raise.
Qed.

Lemma outcome_continue_steps step_name w l w1 l1 :
  outcome step_name w l (Ok Continue) w1 l1 →
  PipelineExecution.status (execution l1) = PipelineExecution.status (execution l) ∧
  PipelineExecution.error (execution l1) = PipelineExecution.error (execution l) ∧
  dom (current_data l) ⊆ dom (current_data l1) ∧
  ((l1 = l ∧ ∃ step_config, find_step config step_name = Some step_config ∧
                            sc_enabled step_config = Some false) ∨
   ∃ step, PipelineExecution.steps (execution l1)
             = PipelineExecution.steps (execution l) ++ [step] ∧
           PipelineStep.name step = step_name ∧
           of_enabled_step config step ∧
           (PipelineStep.status step = COMPLETED ∨
            (PipelineStep.status step = FAILED ∧
             (¬ critical config step_name ∨
              ∃ fallback_data, fallback config step_name = Some fallback_data ∧
                               fallback_data ≠ ∅ ∧
                               dom fallback_data ⊆ dom (current_data l1))))).
Proof.
  intros H. inversion H; subst; simpl.
  - split_and!; try done. left. eauto.
  - split_and!; try done.
    + unfold dict_update. set_solver.
    + right. eexists. split_and!; try done; [by eexists|by left].
  - split_and!; try done.
    right. eexists. split_and!; try done; [by eexists|]. right. split; [done|by left].
  - split_and!; try done.
    + unfold dict_update. set_solver.
    + right. eexists. split_and!; try done; [by eexists|]. right. split; [done|].
      right. eexists. split_and!; try done. unfold dict_update. set_solver.
Qed.

Lemma outcome_break_steps step_name w l w1 l1 :
  outcome step_name w l (Ok Break) w1 l1 →
  current_data l1 = current_data l ∧
  PipelineExecution.status (execution l1) = FAILED ∧
  ∃ step e,
    PipelineExecution.steps (execution l1)
      = PipelineExecution.steps (execution l) ++ [step] ∧
    PipelineStep.name step = step_name ∧
    of_enabled_step config step ∧
    PipelineStep.status step = FAILED ∧
    PipelineStep.error step = Some (str e) ∧
    critical config step_name ∧
    (fallback config step_name = None ∨ fallback config step_name = Some ∅) ∧
    PipelineExecution.error (execution l1) = Some (critical_failure_message step_name e).
Proof.
  intros H. inversion H; subst; simpl. split_and!; try done.
  eexists _, e. split_and!; try done. by eexists.
Qed.

Lemma outcome_raise_steps step_name w l e w1 l1 :
  outcome step_name w l (Raise e) w1 l1 → l1 = l.
Proof. intros H. by inversion H. Qed.

(** The loop only appends step records, of configured and enabled steps of
    the sequence, completed or failed; the context only grows. *)
Lemma runs_appends step_sequence w l r w' l' :
  runs config session_post step_sequence w l r w' l' →
  ∃ new,
    PipelineExecution.steps (execution l') = PipelineExecution.steps (execution l) ++ new ∧
    Forall (fun step =>
              PipelineStep.name step ∈ step_sequence ∧ of_enabled_step config step ∧
              (PipelineStep.status step = COMPLETED ∨ PipelineStep.status step = FAILED))
           new ∧
    dom (current_data l) ⊆ dom (current_data l').
Proof.
  induction 1 as [w l|step_name rest w l w1 l1 r w' l' Hout Hruns IH
                  |step_name rest w l w1 l1 Hout|step_name rest w l e w1 l1 Hout].
  - exists []. by rewrite app_nil_r.
  - destruct IH as (new & Hnew & Hall & Hdom).
    apply outcome_continue_steps in Hout as (_ & _ & Hdom1 & [[-> _]|Hstep]).
    + exists new. split_and!; try done.
      eapply Forall_impl; [done|]. intros step (? & ? & ?). set_solver.
    + destruct Hstep as (step & Hs & Hname & Hen & Hst).
      exists (step :: new). split_and!.
      * rewrite Hnew, Hs. by rewrite <- app_assoc.
      * constructor.
        -- split_and!; [set_solver|done|]. destruct Hst as [?|[? _]]; auto.
        -- eapply Forall_impl; [done|]. intros step' (? & ? & ?). set_solver.
      * set_solver.
  - apply outcome_break_steps in Hout as (Hd & _ & step & e & Hs & Hname & Hen & Hst & _).
    exists [step]. split_and!; [done| |by rewrite Hd].
    constructor; [|done]. split_and!; [set_solver|done|by right].
  - apply outcome_raise_steps in Hout as ->. exists []. by rewrite app_nil_r.
Qed.

(** Either every appended record is tolerated and the status of the
    execution is untouched, or the loop stopped at a fatal failure: the
    failed critical step is the last record. *)
Lemma runs_fatal step_sequence w l r w' l' :
  runs config session_post step_sequence w l r w' l' →
  ∃ new,
    PipelineExecution.steps (execution l') = PipelineExecution.steps (execution l) ++ new ∧
    ((PipelineExecution.status (execution l') = PipelineExecution.status (execution l) ∧
      PipelineExecution.error (execution l') = PipelineExecution.error (execution l) ∧
      Forall (tolerated config) new) ∨
     (r = Ok tt ∧ PipelineExecution.status (execution l') = FAILED ∧
      ∃ pre step e before after,
        new = pre ++ [step] ∧ Forall (tolerated config) pre ∧
        PipelineStep.status step = FAILED ∧
        PipelineStep.error step = Some (str e) ∧
        critical config (PipelineStep.name step) ∧
        (fallback config (PipelineStep.name step) = None ∨
         fallback config (PipelineStep.name step) = Some ∅) ∧
        PipelineExecution.error (execution l')
          = Some (critical_failure_message (PipelineStep.name step) e) ∧
        step_sequence = before ++ PipelineStep.name step :: after ∧
        (PipelineStep.name <$> pre) `sublist_of` before)).
Proof.
  induction 1 as [w l|step_name rest w l w1 l1 r w' l' Hout Hruns IH
                  |step_name rest w l w1 l1 Hout|step_name rest w l e w1 l1 Hout].
  - exists []. rewrite app_nil_r. split; [done|]. left. by split_and!.
  - destruct IH as (new & Hnew & Hcases).
    apply outcome_continue_steps in Hout as (Hst & Herr & _ & [[-> _]|Hstep]).
    + exists new. split; [done|]. destruct Hcases as [Hc|Hc]; [by left|right].
      destruct Hc as (-> & Hf & pre & step & e & before & after & Hc).
      destruct Hc as (-> & Hpre & Hs & He & Hcr & Hfb & Herr' & -> & Hsub).
      split_and!; try done.
      exists pre, step, e, (step_name :: before), after.
      split_and!; try done. by apply sublist_cons.
    + destruct Hstep as (step0 & Hs0 & Hname & Hen & Hst0).
      assert (tolerated config step0) as Htol.
      { unfold tolerated. rewrite Hname.
        destruct Hst0 as [?|[? [?|(fb & ? & ? & _)]]]; [by left|right|right].
        - split; [done|by left].
        - split; [done|right; by exists fb]. }
      exists (step0 :: new). split.
      { rewrite Hnew, Hs0. by rewrite <- app_assoc. }
      destruct Hcases as [(Hst' & Herr' & Hall)|Hc].
      * left. split_and!; try congruence. by constructor.
      * right. destruct Hc as (-> & Hf & pre & step & e & before & after & Hc).
        destruct Hc as (-> & Hpre & Hs & He & Hcr & Hfb & Herr' & -> & Hsub).
        split_and!; try done.
        exists (step0 :: pre), step, e, (step_name :: before), after.
        split_and!; try done; [by constructor|].
        rewrite fmap_cons, Hname. by apply sublist_skip.
  - apply outcome_break_steps in Hout
      as (_ & Hf & step & e & Hs & Hname & _ & Hst & He & Hcr & Hfb & Herr).
    exists [step]. split; [done|]. right. split_and!; try done.
    exists [], step, e, [], rest. rewrite Hname. split_and!; try done.
  - apply outcome_raise_steps in Hout as ->. exists []. rewrite app_nil_r.
    split; [done|]. left. by split_and!.
Qed.

(** When the loop ends without a fatal failure, every step name of the
    sequence was configured, and was disabled or has its record. *)
Lemma runs_complete step_sequence w l r w' l' :
  runs config session_post step_sequence w l r w' l' →
  r = Ok tt → PipelineExecution.status (execution l') ≠ FAILED →
  ∀ step_name, step_name ∈ step_sequence →
    ∃ step_config, find_step config step_name = Some step_config ∧
      (sc_enabled step_config = Some false ∨
       ∃ step, step ∈ PipelineExecution.steps (execution l') ∧
               PipelineStep.name step = step_name ∧
               (PipelineStep.status step = COMPLETED ∨
                (PipelineStep.status step = FAILED ∧
                 (¬ critical config step_name ∨
                  ∃ fallback_data, fallback config step_name = Some fallback_data ∧
                                   fallback_data ≠ ∅ ∧
                                   dom fallback_data ⊆ dom (current_data l'))))).
Proof.
  induction 1 as [w l|step_name rest w l w1 l1 r w' l' Hout Hruns IH
                  |step_name rest w l w1 l1 Hout|step_name rest w l e w1 l1 Hout];
    intros Hr Hst name Hin.
  - set_solver.
  - apply elem_of_cons in Hin as [->|Hin]; [|by apply IH].
    destruct (runs_appends _ _ _ _ _ _ Hruns) as (new & Hnew & _ & Hdom).
    apply outcome_continue_steps in Hout as (_ & _ & _ & [[-> Hdis]|Hstep]).
    + destruct Hdis as (step_config & ? & ?). exists step_config. auto.
    + destruct Hstep as (step & Hs & Hname & (step_config & Hfind & _) & Hst0).
      rewrite Hname in Hfind. exists step_config. split; [done|]. right.
      exists step. split_and!; try done.
      * rewrite Hnew, Hs. set_solver.
      * destruct Hst0 as [?|[? [?|(fb & ? & ? & ?)]]]; [by left|right|right].
        -- split; [done|by left].
        -- split; [done|]. right. exists fb. split_and!; try done. set_solver.
  - apply outcome_break_steps in Hout as (_ & Hf & _). done.
  - done.
Qed.
End Loop.

(** ** The execution record of a run *)

Section Execution.
Variable config : Config.
Variable session_post : nat → HttpOutcome.
Variable log_file : nat → LogOutcome.

Abbreviation execute_pipeline :=
  (PipelineOrchestrator.execute_pipeline config session_post log_file).
Abbreviation execute_pipeline_locals :=
  (PipelineOrchestrator.execute_pipeline_locals config session_post log_file).
Abbreviation step_sequence := (PipelineOrchestrator._get_step_sequence config).
Abbreviation body := PipelineOrchestrator.pipeline_body.
Abbreviation initial_locals mode execution_id w :=
  {| execution := PipelineOrchestrator.new_execution mode execution_id (clock w);
     current_data := ∅ |}.

Lemma body_runs input_data mode w l rb wb lb :
  body config session_post input_data mode (w, l) = (rb, (wb, lb)) →
  ∃ l1, runs config session_post (step_sequence mode) w
          {| execution := execution l; current_data := input_data |} rb wb l1 ∧
        lb = match rb with Ok _ => conclude l1 | Raise _ => l1 end.
Proof.
  unfold PipelineOrchestrator.pipeline_body. msimpl. cbn [fst snd]. intros H.
  destruct (PipelineOrchestrator.run_steps _ _ _ _) as [[[]|e] [w1 l1]] eqn:Hs;
    apply run_steps_runs in Hs.
  - cbn [fst snd] in H. exists l1. unfold conclude.
    destruct (bool_decide _); by simplify_eq.
  - simplify_eq. by exists lb.
Qed.

(** The record of a call and the world it leaves, from the run of the loop. *)
Lemma execute_pipeline_locals_outcome input_data mode execution_id w r w' l' :
  execute_pipeline_locals input_data mode execution_id w = (r, (w', l')) →
  ∃ rb wb l1 ex,
    runs config session_post (step_sequence mode) w
      {| execution := PipelineOrchestrator.new_execution mode execution_id (clock w);
         current_data := input_data |} rb wb l1 ∧
    ex = with_end (clock wb)
           (execution (settle rb (match rb with Ok _ => conclude l1 | Raise _ => l1 end))) ∧
    execution_history wb = execution_history w ∧
    r = log_result (log_file (S (length (execution_history w)))) ex ∧
    execution l' = ex ∧
    current_data l' = current_data l1 ∧
    w' = log_written (log_file (S (length (execution_history w)))) ex
           (set_history (fun history => history ++ [ex]) wb).
Proof.
  destruct (body config session_post input_data mode
              (w, initial_locals mode execution_id w)) as [rb [wb lb]] eqn:Hb.
  rewrite (execute_pipeline_locals_eq _ _ _ _ _ _ _ _ _ _ Hb). cbn zeta.
  pose proof (body_history _ _ _ _ _ _ _ _ _ Hb) as Hh.
  rewrite length_app, Hh, Nat.add_1_r. intros H.
  apply body_runs in Hb as (l1 & Hruns & ->). simpl in Hruns.
  exists rb, wb, l1. eexists. split; [done|]. split; [done|]. simplify_eq.
  split_and!; try done.
  destruct rb as [[]|e]; simpl; [|done]. unfold conclude.
  by destruct (bool_decide _).
Qed.

(** The returned record, from the run of the loop. *)
Lemma execute_pipeline_locals_runs input_data mode execution_id w ex w' l' :
  execute_pipeline_locals input_data mode execution_id w = (Ok ex, (w', l')) →
  ∃ rb wb l1,
    runs config session_post (step_sequence mode) w
      {| execution := PipelineOrchestrator.new_execution mode execution_id (clock w);
         current_data := input_data |} rb wb l1 ∧
    ex = with_end (clock wb)
           (execution (settle rb (match rb with Ok _ => conclude l1 | Raise _ => l1 end))) ∧
    (current_data l' = current_data l1 ∧
     w' = log_written (log_file (S (length (execution_history w)))) ex
            (set_history (fun history => history ++ [ex]) wb)).
Proof.
  intros H.
  apply execute_pipeline_locals_outcome in H
    as (rb & wb & l1 & ex' & Hruns & Hex & _ & Hr & _ & Hd & Hw).
  symmetry in Hr. apply log_result_ok in Hr as ->.
  exists rb, wb, l1. by split_and!.
Qed.

Lemma execute_pipeline_runs input_data mode execution_id w ex w' :
  execute_pipeline input_data mode execution_id w = (Ok ex, w') →
  ∃ l', execute_pipeline_locals input_data mode execution_id w = (Ok ex, (w', l')).
Proof.
  unfold PipelineOrchestrator.execute_pipeline.
  destruct (execute_pipeline_locals _ _ _ _) as [r [w1 l1]]. intros H.
  simplify_eq. by exists l1.
Qed.

Lemma execute_pipeline_any input_data mode execution_id w r w' :
  execute_pipeline input_data mode execution_id w = (r, w') →
  ∃ l', execute_pipeline_locals input_data mode execution_id w = (r, (w', l')).
Proof.
  unfold PipelineOrchestrator.execute_pipeline.
  destruct (execute_pipeline_locals _ _ _ _) as [r1 [w1 l1]]. intros H.
  simplify_eq. by exists l1.
Qed.

Lemma conclude_steps l :
  PipelineExecution.steps (execution (conclude l)) = PipelineExecution.steps (execution l).
Proof. unfold conclude. by destruct (bool_decide _). Qed.

Lemma settle_steps r l :
  PipelineExecution.steps (execution (settle r l)) = PipelineExecution.steps (execution l).
Proof. by destruct r. Qed.

Lemma final_steps rb wb l1 :
  PipelineExecution.steps
    (with_end (clock wb)
       (execution (settle rb (match rb with Ok _ => conclude l1 | Raise _ => l1 end))))
  = PipelineExecution.steps (execution l1).
Proof. destruct rb; simpl; [apply conclude_steps|done]. Qed.

(** C2.  When a record of the returned execution is a failed step of the
    default (critical) flow for which no fallback payload is configured, the
    execution is FAILED, its error is the text "Critical step <name>
    failed: <error of the step>", and that record is the last of the list:
    the records before it are of steps that come before it in the resolved
    sequence, and no later step has a record. *)
Theorem critical_failure_aborts input_data mode execution_id w ex w' step :
  execute_pipeline input_data mode execution_id w = (Ok ex, w') →
  step ∈ PipelineExecution.steps ex →
  PipelineStep.status step = FAILED →
  PipelineStep.name step ∈ default_flow (routing config) →
  PipelineOrchestrator._get_fallback_data config (PipelineStep.name step) = None →
  PipelineExecution.status ex = FAILED ∧
  (∃ msg, PipelineStep.error step = Some msg ∧
          PipelineExecution.error ex =
            Some ("Critical step " +:+ PipelineStep.name step +:+ " failed: " +:+ msg)) ∧
  ∃ pre before after,
    PipelineExecution.steps ex = pre ++ [step] ∧
    step_sequence mode = before ++ PipelineStep.name step :: after ∧
    (PipelineStep.name <$> pre) `sublist_of` before.
Proof.
  intros Hrun Hin Hst Hcr Hfb.
  apply execute_pipeline_runs in Hrun as [l' Hrun].
  apply execute_pipeline_locals_runs in Hrun as (rb & wb & l1 & Hruns & -> & _).
  rewrite final_steps in *.
  pose proof (runs_fatal _ _ _ _ _ _ _ _ Hruns) as (new & Hnew & Hcases).
  simpl in Hnew. rewrite Hnew in *.
  assert (∀ s, tolerated config s → s = step → False) as Hnot.
  { intros s [Hc|[_ [Hn|(fb & Hsome & _)]]] ->; congruence. }
  destruct Hcases as [(_ & _ & Hall)|Hfatal].
  - rewrite Forall_forall in Hall. destruct (Hnot step); auto.
  - destruct Hfatal as (-> & Hf & pre & last_step & e & before & after & Hfatal).
    destruct Hfatal as (-> & Hpre & Hs & He & _ & _ & Herr & Hseq & Hsub).
    apply elem_of_app in Hin as [Hin|Hin].
    { rewrite Forall_forall in Hpre. destruct (Hnot step); auto. }
    apply list_elem_of_singleton in Hin as ->.
    assert (conclude l1 = l1) as ->.
    { unfold conclude. rewrite bool_decide_eq_false_2; [done|]. by intros ?. }
    simpl. split_and!; try done.
    + exists (str e). split; [done|]. by rewrite Herr.
    + by exists pre, before, after.
Qed.

(** C6, as the code has it.  In an execution returned COMPLETED, every
    step name of the resolved sequence that belongs to the default
    (critical) flow is configured, and either it is disabled (it has no
    record), or it has a record that is COMPLETED, or FAILED with a
    non-empty fallback payload configured for it whose fields are all in
    the final accumulated context: a failed step keeps the status FAILED
    when the fallback is substituted. *)
Theorem completed_execution_critical_steps input_data mode execution_id w ex w' l' :
  execute_pipeline_locals input_data mode execution_id w = (Ok ex, (w', l')) →
  PipelineExecution.status ex = COMPLETED →
  ∀ step_name,
    step_name ∈ step_sequence mode →
    step_name ∈ default_flow (routing config) →
    ∃ step_config,
      find_step config step_name = Some step_config ∧
      (sc_enabled step_config = Some false ∨
       ∃ step,
         step ∈ PipelineExecution.steps ex ∧ PipelineStep.name step = step_name ∧
         (PipelineStep.status step = COMPLETED ∨
          (PipelineStep.status step = FAILED ∧
           ∃ fallback_data,
             PipelineOrchestrator._get_fallback_data config step_name = Some fallback_data ∧
             fallback_data ≠ ∅ ∧
             dom fallback_data ⊆ dom (current_data l')))).
Proof.
  intros Hrun Hst step_name Hin Hcr.
  apply execute_pipeline_locals_runs in Hrun as (rb & wb & l1 & Hruns & -> & Hdata & _).
  rewrite final_steps, Hdata.
  destruct rb as [[]|e]; [|done]. simpl in Hst.
  assert (PipelineExecution.status (execution l1) ≠ FAILED) as Hne.
  { intros Hf. unfold conclude in Hst.
    rewrite bool_decide_eq_false_2 in Hst by (by intros ?). congruence. }
  destruct (runs_complete _ _ _ _ _ _ _ _ Hruns eq_refl Hne step_name Hin)
    as (step_config & Hfind & Hcases).
  exists step_config. split; [done|].
  destruct Hcases as [?|(step & ? & ? & Hs)]; [by left|right].
  exists step. split_and!; try done.
  destruct Hs as [?|[? [?|?]]]; [by left|done|by right].
Qed.
End Execution.

(** ** The circuit breaker cycle *)

Section BreakerCycle.
Variable config : Config.
Variable session_post : nat → HttpOutcome.

Abbreviation threshold := (failure_threshold (circuit_breaker (error_handling config))).
Abbreviation timeout := (recovery_timeout (circuit_breaker (error_handling config))).
Abbreviation enabled := (cb_enabled (circuit_breaker (error_handling config))).

Lemma record_failures_at_spec component times :
  ∀ w b,
    circuit_breakers w !! component = Some b →
    ∃ b',
      circuit_breakers (record_failures_at config component times w) !! component
        = Some b' ∧
      failures b' = failures b + Z.of_nat (length times) ∧
      match last times with
      | Some t => last_failure b' = Some t ∧
                  (threshold <= failures b' → state b' = open)
      | None => b' = b
      end.
Proof.
  induction times as [|now rest IH]; intros w b Hb.
  - exists b. simpl. split_and!; [done|lia|done].
  - cbn [record_failures_at].
    rewrite (record_failure_eq config component (set_clock now w) b) by done.
    cbn [snd].
    destruct (IH (set_breakers (<[component := after_failure config now b]>)
                    (set_clock now w)) (after_failure config now b))
      as (b' & Hb' & Hf & Hlast).
    { simpl. by rewrite lookup_insert_eq. }
    exists b'. simpl in Hb'. split_and!; [done|simpl in *; lia|].
    rewrite last_cons. destruct (last rest) as [t|]; [done|].
    subst b'. simpl. split; [done|]. intros Hle.
    by rewrite (proj2 (Z.leb_le _ _) Hle).
Qed.

(** A successful call of the executor leaves the breaker of the component
    closed, with no failure counted. *)
Lemma with_retry_success_resets step_config data w step_result w' :
  PipelineOrchestrator._execute_step_with_retry config session_post step_config data w
    = (Ok step_result, w') →
  ∃ b, circuit_breakers w' !! sc_component step_config = Some b ∧
       state b = closed ∧ failures b = 0.
Proof.
  rewrite with_retry_eq.
  destruct (PipelineOrchestrator._is_circuit_open _ _ w) as [[[|]|e] w1]; try done.
  intros H. set (N := default 1 (sc_retry_count step_config)) in *.
  destruct (decide (0 <= N + 1)) as [Hpos|Hneg].
  - rewrite range_seq in H. apply retry_loop_spec in H as (_ & _ & _ & Hr); [|lia].
    destruct Hr as (b & _ & ->). exists (after_success b).
    by rewrite lookup_insert_eq.
  - unfold range in H. replace (Z.to_nat (N + 1)) with 0%nat in H by lia. done.
Qed.

(** C3.  With the circuit breaker enabled in the configuration (the
    specification sets the disabled breaker apart: its consultation never
    blocks) and a threshold of at least one: after [failure_threshold]
    recorded step failures of a component, the last at a (non-zero) clock
    reading [t], the state of its breaker is open; a step of the component
    executed before [recovery_timeout] has elapsed since [t] fails at once
    with the breaker-open error and leaves the world, hence the trace,
    untouched: no HTTP attempt; after [recovery_timeout] has elapsed, the
    consultation moves the breaker to half-open and the executor goes on to
    its attempts; and a successful call of the executor leaves the breaker
    closed with failure count 0. *)
Theorem breaker_opens_blocks_recovers component b w times t step_config data :
  enabled = true →
  1 <= threshold → length times = Z.to_nat threshold →
  last times = Some t → t ≠ 0 →
  circuit_breakers w !! component = Some b → 0 <= failures b →
  sc_component step_config = component →
  let w1 := record_failures_at config component times w in
  (∃ b1, circuit_breakers w1 !! component = Some b1 ∧ state b1 = open ∧
         last_failure b1 = Some t) ∧
  (∀ now, now - t < timeout →
     PipelineOrchestrator._execute_step_with_retry config session_post step_config data
       (set_clock now w1)
     = (Raise (Exception ("Circuit breaker open for component " +:+ component)),
        set_clock now w1)) ∧
  (∀ now, timeout < now - t →
     ∃ w2 b2,
       PipelineOrchestrator._is_circuit_open config component (set_clock now w1)
         = (Ok false, w2) ∧
       circuit_breakers w2 !! component = Some b2 ∧ state b2 = half_open ∧
       PipelineOrchestrator._execute_step_with_retry config session_post step_config data
         (set_clock now w1)
       = PipelineOrchestrator.retry_loop config session_post step_config data
           (default 1 (sc_retry_count step_config))
           (range (default 1 (sc_retry_count step_config) + 1)) None w2) ∧
  (∀ w0 step_result w3,
     PipelineOrchestrator._execute_step_with_retry config session_post step_config data w0
       = (Ok step_result, w3) →
     ∃ b3, circuit_breakers w3 !! component = Some b3 ∧
           state b3 = closed ∧ failures b3 = 0).
Proof.
  intros Hen Hthr Hlen Hlast Ht Hb Hf Hc w1.
  destruct (record_failures_at_spec component times w b Hb) as (b1 & Hb1 & Hf1 & Hl).
  rewrite Hlast in Hl. destruct Hl as [Hl1 Hopen].
  assert (state b1 = open) as Hs1 by (apply Hopen; lia).
  split_and!.
  - by exists b1.
  - intros now Hnow. rewrite with_retry_eq, Hc.
    rewrite (consult_blocks config component (set_clock now w1) b1); try done.
    right. rewrite Hl1. simpl. lia.
  - intros now Hnow. eexists _, (after_recovery b1).
    rewrite with_retry_eq, Hc.
    rewrite (consult_recovers config component (set_clock now w1) b1); try done.
    + split_and!; try done. simpl. by rewrite lookup_insert_eq.
    + rewrite Hl1. simpl. by destruct (Z.eqb_spec t 0).
    + rewrite Hl1. simpl. lia.
  - intros w0 step_result w3 Hrun. rewrite <- Hc.
    by eapply with_retry_success_resets.
Qed.
End BreakerCycle.

(** ** Invariants of the reachable states *)

Section Reachable.
Variable config : Config.
Variable session_post : nat → HttpOutcome.
Variable log_file : nat → LogOutcome.

Lemma execute_pipeline_preserves (P : World → Prop) :
  (∀ ev w, P w → P (emit ev w)) →
  (∀ now w, P w → P (set_clock now w)) →
  (∀ f w, P w → P (set_history f w)) →
  (∀ component w, P w →
     P (snd (PipelineOrchestrator._record_failure config component w))) →
  (∀ component w, P w →
     P (snd (PipelineOrchestrator._reset_circuit_breaker component w))) →
  (∀ component w, P w →
     P (snd (PipelineOrchestrator._is_circuit_open config component w))) →
  ∀ input_data mode execution_id w,
    P w →
    P (snd (PipelineOrchestrator.execute_pipeline config session_post log_file
              input_data mode execution_id w)).
Proof.
  intros Pe Pc Ph Pr Ps Po input_data mode execution_id w HP.
  destruct (PipelineOrchestrator.pipeline_body config session_post input_data mode
              (w, {| execution :=
                       PipelineOrchestrator.new_execution mode execution_id (clock w);
                     current_data := ∅ |})) as [rb [wb lb]] eqn:Hb.
  rewrite (execute_pipeline_eq _ _ _ _ _ _ _ _ _ _ Hb). cbn zeta. cbn [snd].
  assert (P wb) by (by eapply (pipeline_body_preserves config session_post P)).
  destruct (log_file _); simpl; [apply Ph|apply Ph|apply Pe, Ph]; done.
Qed.

Lemma world_inv_insert component b b' w :
  world_inv config w →
  circuit_breakers w !! component = Some b →
  breaker_inv config b' →
  world_inv config (set_breakers (<[component := b']>) w).
Proof.
  intros [Hinv Hcover] Hb Hb'. split; simpl.
  - intros c b0. destruct (decide (component = c)) as [->|Hne].
    + rewrite lookup_insert_eq. by intros [= <-].
    + rewrite lookup_insert_ne by done. apply Hinv.
  - intros c Hc. destruct (decide (component = c)) as [->|Hne].
    + rewrite lookup_insert_eq. by eexists.
    + rewrite lookup_insert_ne by done. by apply Hcover.
Qed.

Lemma world_inv_record component w :
  world_inv config w →
  world_inv config (snd (PipelineOrchestrator._record_failure config component w)).
Proof.
  intros Hw. destruct (circuit_breakers w !! component) as [b|] eqn:Hb.
  - rewrite (record_failure_eq config component w b) by done. simpl.
    apply (world_inv_insert component b); try done.
    destruct Hw as [Hinv _]. specialize (Hinv component b Hb).
    unfold breaker_inv, after_failure in *. simpl.
    destruct (Z.leb_spec
                (failure_threshold (circuit_breaker (error_handling config)))
                (failures b + 1)); intros Hs.
    + split; [done|by eexists].
    + destruct (Hinv Hs). split; [lia|by eexists].
  - by rewrite record_failure_missing.
Qed.

Lemma world_inv_reset component w :
  world_inv config w →
  world_inv config (snd (PipelineOrchestrator._reset_circuit_breaker component w)).
Proof.
  intros Hw. destruct (circuit_breakers w !! component) as [b|] eqn:Hb.
  - rewrite (reset_eq component w b) by done. simpl.
    by apply (world_inv_insert component b).
  - by rewrite reset_missing.
Qed.

Lemma world_inv_ext w w' :
  circuit_breakers w' = circuit_breakers w → world_inv config w → world_inv config w'.
Proof. unfold world_inv. by intros ->. Qed.

Lemma world_inv_consult component w :
  world_inv config w →
  world_inv config (snd (PipelineOrchestrator._is_circuit_open config component w)).
Proof.
  intros Hw.
  destruct (PipelineOrchestrator._is_circuit_open config component w) as [r w'] eqn:Hc.
  apply consult_effect in Hc as (_ & _ & _ & Hcb). simpl.
  destruct (circuit_breakers w !! component) as [b|] eqn:Hb.
  - destruct Hcb as (b' & Hcb & _ & _ & [->|[Hs ->]]).
    + rewrite insert_id in Hcb by done. by eapply world_inv_ext.
    + apply (world_inv_ext (set_breakers (<[component := after_recovery b]>) w));
        [done|].
      apply (world_inv_insert component b); try done.
      destruct Hw as [Hinv _]. specialize (Hinv component b Hb).
      intros _. apply Hinv. by rewrite Hs.
  - by eapply world_inv_ext.
Qed.

Lemma reachable_world_inv w :
  reachable config session_post log_file w → world_inv config w.
Proof.
  induction 1 as [now|now w _ IH|input_data mode execution_id w _ IH].
  - split; simpl.
    + intros component b. rewrite lookup_fmap.
      destruct (components config !! component); [|done].
      intros [= <-]. by intros Hs.
    + intros component [c Hc]. rewrite lookup_fmap, Hc. by eexists.
  - done.
  - apply (execute_pipeline_preserves (world_inv config)); try done.
    + apply world_inv_record.
    + apply world_inv_reset.
    + apply world_inv_consult.
Qed.

(** C7, as the code has it.  In every state an orchestrator can reach, a
    breaker that is open has at least [failure_threshold] failures counted
    and a last failure; it stays open for as long as it is not consulted,
    also after [recovery_timeout].  With the breaker enabled, the first
    consultation after more than [recovery_timeout] since the (non-zero)
    last failure moves it to half-open and does not block; from there a
    success closes it with failure count 0, and a recorded failure opens it
    again. *)
Theorem open_breaker_invariant w component b :
  reachable config session_post log_file w →
  circuit_breakers w !! component = Some b →
  (state b = open →
   failure_threshold (circuit_breaker (error_handling config)) <= failures b ∧
   ∃ t, last_failure b = Some t) ∧
  (cb_enabled (circuit_breaker (error_handling config)) = true →
   state b = open →
   ∀ t, last_failure b = Some t → t ≠ 0 →
        recovery_timeout (circuit_breaker (error_handling config)) < clock w - t →
   ∃ w2,
     PipelineOrchestrator._is_circuit_open config component w = (Ok false, w2) ∧
     circuit_breakers w2 !! component = Some (after_recovery b) ∧
     (∃ b3, circuit_breakers
              (snd (PipelineOrchestrator._reset_circuit_breaker component w2))
              !! component = Some b3 ∧
            state b3 = closed ∧ failures b3 = 0) ∧
     (∃ b4, circuit_breakers
              (snd (PipelineOrchestrator._record_failure config component w2))
              !! component = Some b4 ∧
            state b4 = open)).
Proof.
  intros Hreach Hb. apply reachable_world_inv in Hreach as [Hinv _].
  specialize (Hinv component b Hb). split.
  - intros Hs. destruct Hinv as [Hf [t Ht]]; [by rewrite Hs|]. split; [done|by exists t].
  - intros Hen Hs t Ht Hnz Hlt.
    destruct Hinv as [Hf _]; [by rewrite Hs|].
    eexists. rewrite (consult_recovers config component w b); try done.
    + split_and!; try done.
      * simpl. by rewrite lookup_insert_eq.
      * eexists. erewrite reset_eq; [|simpl; by rewrite lookup_insert_eq].
        simpl. rewrite lookup_insert_eq. by split_and!.
      * eexists. erewrite record_failure_eq; [|simpl; by rewrite lookup_insert_eq].
        simpl. rewrite lookup_insert_eq. split; [done|]. simpl.
        replace (_ <=? _) with true; [done|]. symmetry. apply Z.leb_le. lia.
    + rewrite Ht. simpl. by destruct (Z.eqb_spec t 0).
    + rewrite Ht. simpl. lia.
Qed.
End Reachable.

(** ** The synchronous orchestrator *)

Section Simple.
Variable config : Config.
Variable session_post : nat → HttpOutcome.

Abbreviation simple_retry_loop :=
  (SimplePipelineOrchestrator.retry_loop config session_post).
Abbreviation simple_with_retry :=
  (SimplePipelineOrchestrator._execute_step_with_retry config session_post).
Abbreviation simple_run_step := (SimplePipelineOrchestrator.run_step config session_post).
Abbreviation simple_run_steps := (SimplePipelineOrchestrator.run_steps config session_post).
Abbreviation simple_body := (SimplePipelineOrchestrator.pipeline_body config session_post).
Abbreviation simple_execute_pipeline :=
  (SimplePipelineOrchestrator.execute_pipeline config session_post).

(** The two classes have the same [_execute_single_step]. *)
Lemma simple_single_step_eq step_config data :
  SimplePipelineOrchestrator._execute_single_step config session_post step_config data
  = PipelineOrchestrator._execute_single_step config session_post step_config data.
Proof. reflexivity. Qed.

Lemma simple_retry_loop_history step_config data retry_count attempts :
  ∀ last w r w',
    simple_retry_loop step_config data retry_count attempts last w = (r, w') →
    execution_history w' = execution_history w.
Proof.
  induction attempts as [|attempt rest IH]; intros last w r w' H.
  - simpl in H. destruct last; unfold raise in H; by simplify_eq.
  - simpl in H. unfold try_except, bind in H. rewrite simple_single_step_eq in H.
    destruct (PipelineOrchestrator._execute_single_step _ _ _ _ w)
      as [[result|e] w1] eqn:Hs; apply single_step_effect in Hs as (_ & Hh & _);
      [by simplify_eq|].
    destruct (attempt <? retry_count); msimpl; apply IH in H; simpl in H; congruence.
Qed.

Lemma mock_data_effect step_name execution_id input_data w l r w' l' :
  SimplePipelineOrchestrator.mock_data step_name execution_id input_data (w, l)
    = (r, (w', l')) →
  w' = w ∧ execution l' = execution l ∧ dom (current_data l) ⊆ dom (current_data l').
Proof.
  unfold SimplePipelineOrchestrator.mock_data. intros H.
  repeat (case_match; msimpl; simplify_eq; simpl in *);
    split_and!; try done; unfold dict_update; set_solver.
Qed.

Lemma simple_run_step_outcome input_data execution_id step_name w l r w' l' :
  simple_run_step input_data execution_id step_name (w, l) = (r, (w', l')) →
  simple_outcome config session_post input_data execution_id step_name w l r w' l'.
Proof.
  unfold SimplePipelineOrchestrator.run_step,
    SimplePipelineOrchestrator._get_step_config. intros H.
  destruct (find_step config step_name) as [step_config|] eqn:Hfind;
    [|unfold ret in H; simplify_eq; by constructor].
  destruct (default true (sc_enabled step_config)) eqn:Hen; cbn [negb] in H;
    [|unfold ret in H; simplify_eq; by econstructor].
  msimpl. cbn [fst snd execution current_data] in H.
  destruct (simple_with_retry step_config (current_data l) w)
    as [[step_result|e] w1] eqn:Hrun.
  - cbn [fst snd execution current_data] in H.
    rewrite modify_last_appended in H. simplify_eq. by econstructor.
  - cbn [fst snd execution current_data] in H.
    rewrite modify_last_appended in H.
    pose proof H as H0. apply mock_data_effect in H0 as (-> & _).
    by eapply simple_failed.
Qed.

Lemma simple_run_steps_spec input_data execution_id step_sequence :
  ∀ w l r w' l',
    simple_run_steps input_data execution_id step_sequence (w, l) = (r, (w', l')) →
    execution_history w' = execution_history w ∧
    ∃ new,
      execution l' = with_steps (fun steps => steps ++ new) (execution l) ∧
      Forall (fun step =>
                PipelineStep.name step ∈ step_sequence ∧ of_simple_enabled_step config step ∧
                (PipelineStep.status step = COMPLETED ∨ PipelineStep.status step = FAILED))
             new.
Proof.
  induction step_sequence as [|step_name rest IH]; intros w l r w' l' H.
  - simpl in H. unfold ret in H. simplify_eq. split; [done|].
    exists []. split; [|done]. unfold with_steps. rewrite app_nil_r. by destruct (execution l').
  - simpl in H. unfold bind in H.
    destruct (simple_run_step input_data execution_id step_name (w, l))
      as [[[]|e] [w1 l1]] eqn:Hs; apply simple_run_step_outcome in Hs.
    + apply IH in H as (Hh & new & Hnew & Hall).
      assert (∀ step, PipelineStep.name step ∈ rest ∧ of_simple_enabled_step config step ∧
                (PipelineStep.status step = COMPLETED ∨ PipelineStep.status step = FAILED) →
              PipelineStep.name step ∈ step_name :: rest ∧ of_simple_enabled_step config step ∧
                (PipelineStep.status step = COMPLETED ∨ PipelineStep.status step = FAILED))
        as Hweak by (intros step (? & ? & ?); split_and!; [by right|done|done]).
      inversion Hs; subst.
      * split; [done|]. exists new. split; [done|]. by eapply Forall_impl.
      * split; [done|]. exists new. split; [done|]. by eapply Forall_impl.
      * match goal with Hr : simple_with_retry _ _ _ = _ |- _ =>
          apply simple_retry_loop_history in Hr end.
        split; [congruence|]. eexists (_ :: new). split.
        { rewrite Hnew. unfold with_steps, append_step, with_steps. simpl.
          by rewrite <- app_assoc. }
        constructor; [|by eapply Forall_impl].
        split_and!; [by left|by eexists|by left].
      * match goal with Hr : simple_with_retry _ _ _ = _ |- _ =>
          apply simple_retry_loop_history in Hr end.
        match goal with Hm : SimplePipelineOrchestrator.mock_data _ _ _ _ = _ |- _ =>
          apply mock_data_effect in Hm as (_ & Hex & _) end.
        split; [congruence|]. eexists (_ :: new). split.
        { rewrite Hnew, Hex. unfold with_steps, append_step, with_steps. simpl.
          by rewrite <- app_assoc. }
        constructor; [|by eapply Forall_impl].
        split_and!; [by left|by eexists|by right].
    + simplify_eq. inversion Hs; subst.
      match goal with Hr : simple_with_retry _ _ _ = _ |- _ =>
        apply simple_retry_loop_history in Hr end.
      match goal with Hm : SimplePipelineOrchestrator.mock_data _ _ _ _ = _ |- _ =>
        apply mock_data_effect in Hm as (_ & Hex & _) end.
      split; [done|]. eexists [_]. split.
      { by rewrite Hex. }
      constructor; [|done]. split_and!; [by left|by eexists|by right].
Qed.

(** The record the synchronous [execute_pipeline] returns. *)
Lemma simple_execute_pipeline_eq input_data mode execution_id w rb wb lb :
  simple_body input_data mode
    (PipelineExecution.execution_id
       (SimplePipelineOrchestrator.new_execution mode execution_id (clock w)))
    (w, {| execution := SimplePipelineOrchestrator.new_execution mode execution_id (clock w);
           current_data := ∅ |}) = (rb, (wb, lb)) →
  SimplePipelineOrchestrator.execute_pipeline_locals config session_post
    input_data mode execution_id w =
  let ex := with_end (clock wb) (execution (settle rb lb)) in
  (Ok ex, (set_history (fun history => history ++ [ex]) wb,
           {| execution := ex; current_data := current_data (settle rb lb) |})).
Proof.
  intros Hb. unfold SimplePipelineOrchestrator.execute_pipeline_locals,
    SimplePipelineOrchestrator.pipeline_finally,
    SimplePipelineOrchestrator.pipeline_handler.
  msimpl. rewrite Hb. by destruct rb as [[]|e].
Qed.

Lemma simple_body_spec input_data mode execution_id w l rb wb lb :
  simple_body input_data mode execution_id (w, l) = (rb, (wb, lb)) →
  execution_history wb = execution_history w ∧
  PipelineExecution.status (execution (settle rb lb)) ≠ IN_PROGRESS ∧
  is_terminal (execution (settle rb lb)) ∧
  ∃ new,
    PipelineExecution.steps (execution lb) = PipelineExecution.steps (execution l) ++ new ∧
    Forall (fun step =>
              PipelineStep.name step ∈ SimplePipelineOrchestrator._get_step_sequence config mode ∧
              of_simple_enabled_step config step ∧
              (PipelineStep.status step = COMPLETED ∨ PipelineStep.status step = FAILED))
           new.
Proof.
  unfold SimplePipelineOrchestrator.pipeline_body. msimpl. cbn [fst snd]. intros H.
  destruct (simple_run_steps _ _ _ _) as [[[]|e] [w1 l1]] eqn:Hs;
    apply simple_run_steps_spec in Hs as (Hh & new & Hnew & Hall); simpl in Hnew;
    simplify_eq; simpl; rewrite Hnew; simpl; unfold is_terminal; simpl;
    split_and!; try done; eauto.
Qed.

Lemma simple_execute_pipeline_finalized input_data mode execution_id w :
  ∃ ex w',
    simple_execute_pipeline input_data mode execution_id w = (Ok ex, w') ∧
    execution_history w' = execution_history w ++ [ex] ∧
    is_terminal ex ∧
    Forall (fun step =>
              of_simple_enabled_step config step ∧
              (PipelineStep.status step = COMPLETED ∨ PipelineStep.status step = FAILED))
           (PipelineExecution.steps ex).
Proof.
  destruct (simple_body input_data mode
    (PipelineExecution.execution_id
       (SimplePipelineOrchestrator.new_execution mode execution_id (clock w)))
    (w, {| execution := SimplePipelineOrchestrator.new_execution mode execution_id (clock w);
           current_data := ∅ |})) as [rb [wb lb]] eqn:Hb.
  unfold SimplePipelineOrchestrator.execute_pipeline.
  rewrite (simple_execute_pipeline_eq _ _ _ _ _ _ _ Hb). cbn zeta.
  apply simple_body_spec in Hb as (Hh & _ & Hterm & new & Hnew & Hall).
  eexists _, _. split; [done|]. simpl. rewrite Hh. split_and!; try done.
  rewrite settle_steps, Hnew. simpl.
  eapply Forall_impl; [done|]. by intros step (_ & ? & ?).
Qed.
End Simple.

(** ** Disabled steps, and the metrics *)

Section Records.
Variable config : Config.
Variable session_post : nat → HttpOutcome.
Variable log_file : nat → LogOutcome.

(** C8, as the code has it.  Neither orchestrator appends a record for a
    disabled step: the iteration leaves the execution and the context as
    they are and the loop goes on with the next step name.  Every record of
    a returned execution is the record of a configured, enabled step of the
    resolved sequence, with status COMPLETED or FAILED; no record has the
    status SKIPPED. *)
Theorem disabled_steps_have_no_record :
  (∀ input_data mode execution_id w ex w' step,
     PipelineOrchestrator.execute_pipeline config session_post log_file
       input_data mode execution_id w = (Ok ex, w') →
     step ∈ PipelineExecution.steps ex →
     PipelineStep.status step ≠ SKIPPED ∧
     PipelineStep.name step ∈ PipelineOrchestrator._get_step_sequence config mode ∧
     ∃ step_config, find_step config (PipelineStep.name step) = Some step_config ∧
                    sc_enabled step_config = Some true) ∧
  (∀ input_data mode execution_id w ex w' step,
     SimplePipelineOrchestrator.execute_pipeline config session_post
       input_data mode execution_id w = (Ok ex, w') →
     step ∈ PipelineExecution.steps ex →
     PipelineStep.status step ≠ SKIPPED ∧
     ∃ step_config, find_step config (PipelineStep.name step) = Some step_config ∧
                    default true (sc_enabled step_config) = true) ∧
  (∀ input_data execution_id step_name step_config w l,
     find_step config step_name = Some step_config →
     sc_enabled step_config = Some false →
     PipelineOrchestrator.run_step config session_post step_name (w, l)
       = (Ok Continue, (w, l)) ∧
     SimplePipelineOrchestrator.run_step config session_post
       input_data execution_id step_name (w, l) = (Ok tt, (w, l))).
Proof.
  split_and!.
  - intros input_data mode execution_id w ex w' step Hrun Hin.
    apply execute_pipeline_runs in Hrun as [l' Hrun].
    apply execute_pipeline_locals_runs in Hrun as (rb & wb & l1 & Hruns & -> & _).
    rewrite final_steps in Hin.
    apply runs_appends in Hruns as (new & Hnew & Hall & _). simpl in Hnew.
    rewrite Hnew, Forall_forall in *.
    destruct (Hall step Hin) as (Hname & (step_config & Hfind & Hen & _) & Hst).
    split_and!; [by destruct Hst as [-> | ->]|done|by exists step_config].
  - intros input_data mode execution_id w ex w' step Hrun Hin.
    destruct (simple_execute_pipeline_finalized config session_post
                input_data mode execution_id w) as (ex0 & w0 & Hrun0 & _ & _ & Hall).
    rewrite Hrun in Hrun0. simplify_eq. rewrite Forall_forall in Hall.
    destruct (Hall step Hin) as [Hen Hst].
    split; [by destruct Hst as [-> | ->]|done].
  - intros input_data execution_id step_name step_config w l Hfind Hen. split.
    + unfold PipelineOrchestrator.run_step, PipelineOrchestrator._get_step_config.
      msimpl. rewrite Hfind. msimpl. by rewrite Hen.
    + unfold SimplePipelineOrchestrator.run_step,
        SimplePipelineOrchestrator._get_step_config.
      rewrite Hfind, Hen. done.
Qed.

Lemma terminal_counts (history : list PipelineExecution.t) :
  Forall is_terminal history →
  (length (List.filter (fun e => bool_decide (PipelineExecution.status e = COMPLETED)) history)
   + length (List.filter (fun e => bool_decide (PipelineExecution.status e = FAILED)) history)
   = length history)%nat.
Proof.
  induction 1 as [|ex history Hex _ IH]; [done|]. simpl.
  destruct Hex as [-> | ->]; simpl; lia.
Qed.

Lemma reachable_history_terminal w :
  reachable config session_post log_file w → Forall is_terminal (execution_history w).
Proof.
  induction 1 as [now|now w _ IH|input_data mode execution_id w _ IH]; try done.
  destruct (execute_pipeline_finalized config session_post log_file
              input_data mode execution_id w)
    as (ex & w' & Hrun & _ & _ & Hh & Hterm & _).
  rewrite Hrun. simpl. rewrite Hh. apply Forall_app. by split; [|constructor].
Qed.

Lemma simple_reachable_history_terminal w :
  simple_reachable config session_post w → Forall is_terminal (execution_history w).
Proof.
  induction 1 as [now|now w _ IH|input_data mode execution_id w _ IH]; try done.
  destruct (simple_execute_pipeline_finalized config session_post
              input_data mode execution_id w) as (ex & w' & Hrun & Hh & Hterm & _).
  rewrite Hrun. simpl. rewrite Hh. apply Forall_app. by split; [|constructor].
Qed.

Lemma metrics_of_history w :
  Forall is_terminal (execution_history w) →
  execution_history w ≠ [] →
  ∃ total successful failed,
    PipelineOrchestrator.get_pipeline_metrics w !! "total_executions" = Some (MInt total) ∧
    PipelineOrchestrator.get_pipeline_metrics w !! "successful_executions"
      = Some (MInt successful) ∧
    PipelineOrchestrator.get_pipeline_metrics w !! "failed_executions"
      = Some (MInt failed) ∧
    total = Z.of_nat (length (execution_history w)) ∧
    successful + failed = total.
Proof.
  intros Hterm Hne. unfold PipelineOrchestrator.get_pipeline_metrics.
  destruct (last (execution_history w)) as [last_execution|] eqn:Hlast.
  - eexists _, _, _. cbn [list_to_map foldr curry uncurry fst snd].
    split_and!.
    + by rewrite lookup_insert_eq.
    + rewrite lookup_insert_ne by done. by rewrite lookup_insert_eq.
    + do 2 (rewrite lookup_insert_ne by done). by rewrite lookup_insert_eq.
    + done.
    + apply terminal_counts in Hterm. lia.
  - apply last_None in Hlast. done.
Qed.

(** The two classes have the same [get_pipeline_metrics]. *)
Lemma simple_metrics_eq w :
  SimplePipelineOrchestrator.get_pipeline_metrics w
  = PipelineOrchestrator.get_pipeline_metrics w.
Proof. reflexivity. Qed.

(** C10.  With an empty history, [get_pipeline_metrics] returns exactly
    the dictionary with the one key "total_executions", bound to 0; in every
    state an orchestrator can reach with a non-empty history, the reported
    successful and failed counts add up to the reported total, which is the
    length of the history. *)
Theorem metrics_partition :
  (∀ w, execution_history w = [] →
        PipelineOrchestrator.get_pipeline_metrics w = {[ "total_executions" := MInt 0 ]} ∧
        SimplePipelineOrchestrator.get_pipeline_metrics w
          = {[ "total_executions" := MInt 0 ]}) ∧
  (∀ w, reachable config session_post log_file w → execution_history w ≠ [] →
        ∃ total successful failed,
          PipelineOrchestrator.get_pipeline_metrics w !! "total_executions"
            = Some (MInt total) ∧
          PipelineOrchestrator.get_pipeline_metrics w !! "successful_executions"
            = Some (MInt successful) ∧
          PipelineOrchestrator.get_pipeline_metrics w !! "failed_executions"
            = Some (MInt failed) ∧
          total = Z.of_nat (length (execution_history w)) ∧
          successful + failed = total) ∧
  (∀ w, simple_reachable config session_post w → execution_history w ≠ [] →
        ∃ total successful failed,
          SimplePipelineOrchestrator.get_pipeline_metrics w !! "total_executions"
            = Some (MInt total) ∧
          SimplePipelineOrchestrator.get_pipeline_metrics w !! "successful_executions"
            = Some (MInt successful) ∧
          SimplePipelineOrchestrator.get_pipeline_metrics w !! "failed_executions"
            = Some (MInt failed) ∧
          total = Z.of_nat (length (execution_history w)) ∧
          successful + failed = total).
Proof.
  split_and!.
  - intros w Hempty.
    unfold PipelineOrchestrator.get_pipeline_metrics,
      SimplePipelineOrchestrator.get_pipeline_metrics. by rewrite Hempty.
  - intros w Hreach Hne. apply metrics_of_history; [|done].
    by apply reachable_history_terminal.
  - intros w Hreach Hne.
    apply (metrics_of_history w); [|done]. by apply simple_reachable_history_terminal.
Qed.
End Records.

(** ** The two orchestrators on runs without a failed step *)

Section Agreement.
Variable config : Config.
Variable session_post : nat → HttpOutcome.
Variable log_file : nat → LogOutcome.

Lemma single_step_sim step_config data w ws r w1 :
  http_calls ws = http_calls w →
  PipelineOrchestrator._execute_single_step config session_post step_config data w
    = (r, w1) →
  ∃ ws1,
    PipelineOrchestrator._execute_single_step config session_post step_config data ws
      = (r, ws1) ∧
    http_calls ws1 = http_calls w1 ∧
    (∀ step_result, r = Ok step_result →
                    is_Some (components config !! sc_component step_config)).
Proof.
  intros Hc. rewrite !single_step_eq.
  destruct (components config !! sc_component step_config).
  - destruct (PipelineOrchestrator.missing_fields step_config data).
    + unfold PipelineOrchestrator.post. rewrite Hc.
      destruct (reply (session_post (http_calls w))); intros H; simplify_eq;
        eexists; split_and!; try done; wsimpl; by eauto.
    + intros H. simplify_eq. by eexists.
  - intros H. simplify_eq. by eexists.
Qed.

(** A call of the asynchronous executor that succeeds is matched by the
    synchronous one: same result, same number of posts. *)
Lemma retry_loop_sim step_config data retry_count attempts :
  ∀ last last' w ws step_result w',
    world_inv config w → http_calls ws = http_calls w →
    PipelineOrchestrator.retry_loop config session_post step_config data retry_count
      attempts last w = (Ok step_result, w') →
    ∃ ws',
      SimplePipelineOrchestrator.retry_loop config session_post step_config data
        retry_count attempts last' ws = (Ok step_result, ws') ∧
      http_calls ws' = http_calls w'.
Proof.
  induction attempts as [|attempt rest IH];
    intros last last' w ws step_result w' Hinv Hc H.
  - simpl in H. by destruct last.
  - simpl in H. simpl. unfold try_except in *.
    rewrite simple_single_step_eq.
    unfold PipelineOrchestrator.try_attempt, bind in H.
    destruct (PipelineOrchestrator._execute_single_step _ _ _ _ w)
      as [[result|e] w1] eqn:Hs.
    + destruct (single_step_sim _ _ _ _ _ _ Hc Hs) as (ws1 & -> & Hc1 & Hcomp).
      pose proof (single_step_effect _ _ _ _ _ _ _ Hs) as (Hcb & _).
      destruct Hinv as [_ Hcover].
      destruct (Hcover _ (Hcomp _ eq_refl)) as [b Hb]. rewrite <- Hcb in Hb.
      rewrite (reset_eq _ _ _ Hb) in H. unfold ret in H. simplify_eq.
      by exists ws1.
    + destruct (single_step_sim _ _ _ _ _ _ Hc Hs) as (ws1 & -> & Hc1 & _).
      assert (world_inv config w1) as Hinv1.
      { eapply (single_step_preserves config session_post (world_inv config)); done. }
      unfold bind.
      destruct (PipelineOrchestrator.except_attempt _ _ _ _ _ w1)
        as [[[]|e'] w2] eqn:Hx; [|done].
      assert (world_inv config w2) as Hinv2.
      { eapply (except_attempt_preserves config (world_inv config)); try done.
        apply world_inv_record. }
      apply except_attempt_effect in Hx as (_ & Hc2 & _).
      destruct (attempt <? retry_count); msimpl.
      * eapply IH; [done| |done]. wsimpl. congruence.
      * eapply IH; [done| |done]. congruence.
Qed.

Lemma with_retry_sim step_config data w ws step_result w' :
  world_inv config w → http_calls ws = http_calls w →
  PipelineOrchestrator._execute_step_with_retry config session_post step_config data w
    = (Ok step_result, w') →
  ∃ ws',
    SimplePipelineOrchestrator._execute_step_with_retry config session_post
      step_config data ws = (Ok step_result, ws') ∧
    http_calls ws' = http_calls w'.
Proof.
  intros Hinv Hc. rewrite with_retry_eq.
  destruct (PipelineOrchestrator._is_circuit_open _ _ w) as [[[|]|e] w0] eqn:Ho;
    try done.
  intros H. unfold SimplePipelineOrchestrator._execute_step_with_retry.
  eapply retry_loop_sim; [| |done].
  - pose proof (world_inv_consult config (sc_component step_config) w Hinv) as Hi.
    by rewrite Ho in Hi.
  - apply consult_counts in Ho as (-> & _). done.
Qed.

Lemma simple_run_step_completed input_data execution_id step_name step_config
    ws ls step_result ws1 :
  find_step config step_name = Some step_config →
  default true (sc_enabled step_config) = true →
  SimplePipelineOrchestrator._execute_step_with_retry config session_post
    step_config (current_data ls) ws = (Ok step_result, ws1) →
  SimplePipelineOrchestrator.run_step config session_post
    input_data execution_id step_name (ws, ls) =
  (Ok tt, (ws1,
     {| execution :=
          append_step
            (step_completed step_result (clock ws1)
               (new_step step_name (sc_component step_config) (clock ws) (current_data ls)))
            (execution ls);
        current_data := dict_update (current_data ls) step_result |})).
Proof.
  intros Hfind Hen Hrun.
  unfold SimplePipelineOrchestrator.run_step,
    SimplePipelineOrchestrator._get_step_config.
  rewrite Hfind, Hen. cbn [negb]. msimpl. cbn [fst snd execution current_data].
  rewrite Hrun. cbn [fst snd execution current_data].
  by rewrite modify_last_appended.
Qed.

Lemma runs_sim input_data execution_id step_sequence w l r w' l' :
  runs config session_post step_sequence w l r w' l' →
  r = Ok tt → world_inv config w →
  Forall (fun step => PipelineStep.status step = COMPLETED)
         (PipelineExecution.steps (execution l')) →
  ∀ ws ls,
    http_calls ws = http_calls w → current_data ls = current_data l →
    ∃ ws' ls' new new',
      SimplePipelineOrchestrator.run_steps config session_post
        input_data execution_id step_sequence (ws, ls) = (Ok tt, (ws', ls')) ∧
      http_calls ws' = http_calls w' ∧
      current_data ls' = current_data l' ∧
      PipelineExecution.steps (execution l') = PipelineExecution.steps (execution l) ++ new ∧
      execution ls' = with_steps (fun steps => steps ++ new') (execution ls) ∧
      step_view <$> new' = step_view <$> new.
Proof.
  induction 1 as [w l|step_name rest w l w1 l1 r w' l' Hout Hruns IH
                  |step_name rest w l w1 l1 Hout|step_name rest w l e w1 l1 Hout];
    intros Hr Hinv Hall ws ls Hc Hd; [| | |done].
  - exists ws, ls, [], []. simpl. unfold ret. split_and!; try done.
    + by rewrite app_nil_r.
    + unfold with_steps. rewrite app_nil_r. by destruct (execution ls).
  - pose proof (runs_appends _ _ _ _ _ _ _ _ Hruns) as (tail & Htail & _).
    inversion Hout; subst.
    + (* disabled *)
      destruct (IH eq_refl Hinv Hall ws ls Hc Hd)
        as (ws' & ls' & new & new' & Hrun & ? & ? & ? & ? & ?).
      exists ws', ls', new, new'. split_and!; try done.
      simpl. unfold bind.
      unfold SimplePipelineOrchestrator.run_step at 1,
        SimplePipelineOrchestrator._get_step_config.
      match goal with Hf : find_step _ _ = _, He : sc_enabled _ = _ |- _ =>
        rewrite Hf, He end.
      done.
    + (* completed *)
      match goal with Hrun : PipelineOrchestrator._execute_step_with_retry _ _ _ _ _ = _ |- _ =>
        pose proof (with_retry_preserves config session_post (world_inv config)
                      (fun _ _ H => H) (fun _ _ H => H)
                      (fun c w0 H => world_inv_record config c w0 H)
                      (fun c w0 H => world_inv_reset config c w0 H)
                      (fun c w0 H => world_inv_consult config c w0 H)
                      _ _ _ _ _ Hrun Hinv) as Hinv1;
        destruct (with_retry_sim _ _ _ ws _ _ Hinv Hc Hrun) as (ws1 & Hsim & Hc1)
      end.
      rewrite <- Hd in Hsim.
      match goal with Hf : find_step _ _ = _, He : sc_enabled _ = _ |- _ =>
        pose proof (simple_run_step_completed input_data execution_id step_name _
                      ws ls _ ws1 Hf ltac:(by rewrite He) Hsim) as Hstep
      end.
      set (ls1 := {| execution :=
                       append_step
                         (step_completed step_result (clock ws1)
                            (new_step step_name (sc_component step_config) (clock ws)
                               (current_data ls)))
                         (execution ls);
                     current_data := dict_update (current_data ls) step_result |}) in *.
      destruct (IH eq_refl Hinv1 Hall ws1 ls1 Hc1 ltac:(simpl; by rewrite Hd))
        as (ws' & ls' & new & new' & Hrun' & IHrest).
      destruct IHrest as (? & ? & Hnew & Hnew' & Hview).
      eexists ws', ls', (_ :: new), (_ :: new').
      simpl. unfold bind. rewrite Hstep. split_and!; try done.
      * rewrite Hnew. simpl. by rewrite <- app_assoc.
      * rewrite Hnew'. unfold with_steps, append_step, with_steps. simpl.
        by rewrite <- app_assoc.
      * f_equal; [|exact Hview]. unfold step_view. simpl. by rewrite Hd.
    + (* a failed step is in the list *)
      rewrite Htail, Forall_app in Hall. destruct Hall as [Hall _]. simpl in Hall.
      rewrite Forall_app, Forall_singleton in Hall. by destruct Hall.
    + rewrite Htail, Forall_app in Hall. destruct Hall as [Hall _]. simpl in Hall.
      rewrite Forall_app, Forall_singleton in Hall. by destruct Hall.
  - apply outcome_break_steps in Hout as (_ & _ & step & e & Hs & _ & _ & Hst & _).
    rewrite Hs, Forall_app, Forall_singleton in Hall. destruct Hall. congruence.
Qed.

(** C9, as the code has it.  The two orchestrators agree on the runs in
    which no step fails: when the asynchronous orchestrator, in a state it
    can reach, returns a COMPLETED execution all of whose step records are
    COMPLETED, the synchronous orchestrator, fed the same payload, mode and
    outcomes of the posts from the same position on, returns a COMPLETED
    execution with the same step records (timestamps apart) and ends with
    the same accumulated context. *)
Theorem orchestrators_agree_without_failures input_data mode execution_id w ws ex w' l' :
  reachable config session_post log_file w →
  http_calls ws = http_calls w →
  PipelineOrchestrator.execute_pipeline_locals config session_post log_file
    input_data mode execution_id w = (Ok ex, (w', l')) →
  PipelineExecution.status ex = COMPLETED →
  Forall (fun step => PipelineStep.status step = COMPLETED) (PipelineExecution.steps ex) →
  ∃ ex_sync ws' ls',
    SimplePipelineOrchestrator.execute_pipeline_locals config session_post
      input_data mode execution_id ws = (Ok ex_sync, (ws', ls')) ∧
    PipelineExecution.status ex_sync = COMPLETED ∧
    step_view <$> PipelineExecution.steps ex_sync
      = step_view <$> PipelineExecution.steps ex ∧
    current_data ls' = current_data l' ∧
    http_calls ws' = http_calls w'.
Proof.
  intros Hreach Hc Hrun Hst Hall. apply reachable_world_inv in Hreach.
  apply execute_pipeline_locals_runs in Hrun as (rb & wb & l1 & Hruns & -> & Hdata & ->).
  rewrite final_steps in Hall. destruct rb as [[]|e]; [|done].
  set (ls0 := {| execution :=
                   SimplePipelineOrchestrator.new_execution mode execution_id (clock ws);
                 current_data := input_data |}).
  destruct (runs_sim input_data
              (PipelineExecution.execution_id (execution ls0))
              _ _ _ _ _ _ Hruns eq_refl Hreach Hall ws ls0 Hc eq_refl)
    as (ws' & ls' & new & new' & Hsim & Hc' & Hd' & Hnew & Hnew' & Hview).
  erewrite simple_execute_pipeline_eq; cycle 1.
  { unfold SimplePipelineOrchestrator.pipeline_body. msimpl. cbn [fst snd execution].
    unfold ls0 in Hsim. cbn [execution] in Hsim.
    change (SimplePipelineOrchestrator._get_step_sequence config mode)
      with (PipelineOrchestrator._get_step_sequence config mode).
    rewrite Hsim. done. }
  cbn zeta. eexists _, _, _. split; [done|].
  rewrite (final_steps (Ok tt)). split_and!.
  - done.
  - cbn [settle execution]. unfold with_end at 1. cbn [PipelineExecution.steps].
    unfold with_status at 1. cbn [PipelineExecution.steps].
    cbn [snd]. rewrite Hnew', Hnew. unfold ls0. simpl. exact Hview.
  - simpl. congruence.
  - rewrite log_written_http_calls. by wsimpl.
Qed.
End Agreement.

(** ** What a call of the executor may change *)

Section Effects.
Variable config : Config.
Variable session_post : nat → HttpOutcome.

Abbreviation effect := (executor_effect config session_post).

Lemma single_step_cases step_config data w r w' :
  PipelineOrchestrator._execute_single_step config session_post step_config data w = (r, w') →
  (w' = w ∧ ∃ e, r = Raise e) ∨
  (∃ component_config,
     components config !! sc_component step_config = Some component_config ∧
     PipelineOrchestrator.missing_fields step_config data = [] ∧
     w' = emit (EvPost (base_url component_config +:+ sc_endpoint step_config) data
                  (default 30 (sc_timeout step_config)))
            (set_clock (clock w + elapsed (session_post (http_calls w))) w) ∧
     r = match reply (session_post (http_calls w)) with
         | inl e => Raise e
         | inr result => Ok result
         end).
Proof.
  rewrite single_step_eq. intros H.
  destruct (components config !! sc_component step_config) as [cc|] eqn:Hc;
    [|simplify_eq; left; eauto].
  destruct (PipelineOrchestrator.missing_fields step_config data) eqn:Hm;
    [|simplify_eq; left; eauto].
  right. exists cc. unfold PipelineOrchestrator.post in H.
  rewrite request_data_eq in H.
  destruct (reply (session_post (http_calls w))); simplify_eq; by split_and!.
Qed.

Lemma effect_refl step_config data w : effect step_config data w w.
Proof.
  split_and!; try done; try lia. exists []. by split.
Qed.

Lemma effect_trans step_config data w1 w2 w3 :
  effect step_config data w1 w2 → effect step_config data w2 w3 →
  effect step_config data w1 w3.
Proof.
  intros ((n1 & Ht1 & Hf1) & Hc1 & Hh1 & Hd1 & Hb1) ((n2 & Ht2 & Hf2) & Hc2 & Hh2 & Hd2 & Hb2).
  split_and!.
  - exists (n2 ++ n1). rewrite Ht2, Ht1, app_assoc. split; [done|]. by apply Forall_app.
  - intros H. specialize (Hc1 H). specialize (Hc2 H). lia.
  - congruence.
  - congruence.
  - intros c Hc. rewrite Hb2, Hb1; done.
Qed.

Lemma effect_emit step_config data ev w :
  step_event config step_config data ev → effect step_config data w (emit ev w).
Proof.
  intros Hev. split_and!; try done; try (simpl; lia).
  exists [ev]. split; [done|]. by constructor.
Qed.

Lemma effect_clock step_config data d w :
  ((∀ n, 0 <= elapsed (session_post n)) → 0 <= d) →
  effect step_config data w (set_clock (clock w + d) w).
Proof.
  intros Hd. split_and!; try done.
  - exists []. by split.
  - intros H. specialize (Hd H). simpl. lia.
Qed.

Lemma effect_breaker step_config data b w :
  is_Some (circuit_breakers w !! sc_component step_config) →
  effect step_config data w (set_breakers (<[sc_component step_config := b]>) w).
Proof.
  intros Hb. split_and!; try done; try (simpl; lia).
  - exists []. by split.
  - simpl. rewrite dom_insert_L. apply elem_of_dom in Hb. set_solver.
  - intros c Hc. simpl. by rewrite lookup_insert_ne.
Qed.

Lemma effect_breakers_eq step_config data w w' :
  trace w' = trace w → clock w' = clock w → execution_history w' = execution_history w →
  circuit_breakers w' = circuit_breakers w →
  effect step_config data w w'.
Proof.
  intros Ht Hc Hh Hb.
  split_and!; [exists []; by split|lia|done|by rewrite Hb|intros; by rewrite Hb].
Qed.

Lemma single_step_executor_effect step_config data w r w' :
  PipelineOrchestrator._execute_single_step config session_post step_config data w = (r, w') →
  effect step_config data w w'.
Proof.
  intros H. apply single_step_cases in H as [[-> _]|(cc & Hc & _ & -> & _)];
    [apply effect_refl|].
  eapply effect_trans; [apply effect_clock|apply effect_emit].
  - intros Hn. apply Hn.
  - simpl. split_and!; try done. by exists cc.
Qed.

Lemma try_attempt_executor_effect step_config data w r w' :
  PipelineOrchestrator.try_attempt config session_post step_config data w = (r, w') →
  effect step_config data w w'.
Proof.
  unfold PipelineOrchestrator.try_attempt. msimpl. intros H.
  destruct (PipelineOrchestrator._execute_single_step _ _ _ _ w) as [[result|e] w1] eqn:Hs;
    apply single_step_executor_effect in Hs; [|by simplify_eq].
  destruct (circuit_breakers w1 !! sc_component step_config) as [b|] eqn:Hb.
  - rewrite (reset_eq _ _ _ Hb) in H. simplify_eq.
    eapply effect_trans; [done|]. by apply effect_breaker.
  - rewrite (reset_missing _ _ Hb) in H. by simplify_eq.
Qed.

Lemma list_getitem_elem_of {A} (l : list A) i x : list_getitem l i = Some x → x ∈ l.
Proof.
  unfold list_getitem. intros H.
  repeat case_match; try done; by eapply list_elem_of_lookup_2.
Qed.

Lemma except_attempt_executor_effect step_config data retry_count attempt e w r w' :
  PipelineOrchestrator.except_attempt config step_config retry_count attempt e w = (r, w') →
  effect step_config data w w'.
Proof.
  unfold PipelineOrchestrator.except_attempt. msimpl. intros H.
  set (w0 := emit (EvAttemptFailed (sc_name step_config) (attempt + 1) (str e)) w) in *.
  assert (effect step_config data w w0) as H0 by (by apply effect_emit).
  destruct (attempt <? retry_count).
  - destruct (list_getitem _ _) as [delay|] eqn:Hd; msimpl; simplify_eq; [|done].
    eapply effect_trans; [done|].
    eapply effect_trans; [apply (effect_clock _ _ (Z.max 0 delay)); lia|].
    apply effect_emit. simpl. by eapply list_getitem_elem_of.
  - destruct (circuit_breakers w0 !! sc_component step_config) as [b|] eqn:Hb.
    + rewrite (record_failure_eq config _ _ b) in H by done. simplify_eq.
      eapply effect_trans; [done|]. by apply effect_breaker.
    + rewrite record_failure_missing in H by done. by simplify_eq.
Qed.

Lemma retry_loop_executor_effect step_config data retry_count attempts :
  ∀ last w r w',
    PipelineOrchestrator.retry_loop config session_post step_config data retry_count
      attempts last w = (r, w') →
    effect step_config data w w'.
Proof.
  induction attempts as [|attempt rest IH]; intros last w r w' H.
  - simpl in H. destruct last; unfold raise in H; simplify_eq; apply effect_refl.
  - simpl in H. unfold try_except, bind in H.
    destruct (PipelineOrchestrator.try_attempt _ _ _ _ w) as [[result|e] w1] eqn:Ht;
      apply try_attempt_executor_effect in Ht; [by simplify_eq|].
    destruct (PipelineOrchestrator.except_attempt _ _ _ _ _ w1) as [[[]|e'] w2] eqn:Hx;
      apply (except_attempt_executor_effect _ data) in Hx.
    + apply IH in H. eapply effect_trans; [done|]. by eapply effect_trans.
    + simplify_eq. by eapply effect_trans.
Qed.

Lemma with_retry_executor_effect step_config data w r w' :
  PipelineOrchestrator._execute_step_with_retry config session_post step_config data w
    = (r, w') →
  effect step_config data w w'.
Proof.
  rewrite with_retry_eq. intros H.
  destruct (PipelineOrchestrator._is_circuit_open _ _ w) as [[[|]|e] w1] eqn:Hc;
    apply consult_effect in Hc as (Hh & Ht & Hcl & Hcb).
  all: assert (effect step_config data w w1) as H1.
  all: try (destruct (circuit_breakers w !! sc_component step_config) as [b|] eqn:Hb;
        [destruct Hcb as (b' & Hcb & _);
         split_and!; [exists []; by split|lia|done| |];
         [rewrite Hcb, dom_insert_L; apply elem_of_dom_2 in Hb; set_solver
         |intros c Hne; by rewrite Hcb, lookup_insert_ne]
        |by apply effect_breakers_eq]).
  - by simplify_eq.
  - apply retry_loop_executor_effect in H. by eapply effect_trans.
  - by simplify_eq.
Qed.

End Effects.

(** ** A run as a chain of executor calls *)

Section ChainLemmas.
Variable config : Config.
Variable session_post : nat → HttpOutcome.
Variable log_file : nat → LogOutcome.

Lemma outcome_frame step_name w l r w1 l1 :
  step_outcome config session_post step_name w l r w1 l1 →
  PipelineExecution.execution_id (execution l1) = PipelineExecution.execution_id (execution l) ∧
  PipelineExecution.mode (execution l1) = PipelineExecution.mode (execution l) ∧
  PipelineExecution.start_time (execution l1) = PipelineExecution.start_time (execution l).
Proof. intros H. by inversion H. Qed.

Lemma runs_frame step_sequence w l r w' l' :
  runs config session_post step_sequence w l r w' l' →
  PipelineExecution.execution_id (execution l') = PipelineExecution.execution_id (execution l) ∧
  PipelineExecution.mode (execution l') = PipelineExecution.mode (execution l) ∧
  PipelineExecution.start_time (execution l') = PipelineExecution.start_time (execution l).
Proof.
  induction 1 as [w l|step_name rest w l w1 l1 r w' l' Hout Hruns IH
                  |step_name rest w l w1 l1 Hout|step_name rest w l e w1 l1 Hout];
    try done; apply outcome_frame in Hout; [|done|done].
  destruct Hout as (? & ? & ?), IH as (? & ? & ?). split_and!; congruence.
Qed.

Lemma runs_steps_run step_sequence w l r w' l' :
  runs config session_post step_sequence w l r w' l' →
  ∃ new,
    PipelineExecution.steps (execution l') = PipelineExecution.steps (execution l) ++ new ∧
    steps_run config session_post w (current_data l) new w' (current_data l').
Proof.
  induction 1 as [w l|step_name rest w l w1 l1 r w' l' Hout Hruns IH
                  |step_name rest w l w1 l1 Hout|step_name rest w l e w1 l1 Hout].
  - exists []. rewrite app_nil_r. split; [done|constructor].
  - destruct IH as (new & Hnew & Hchain).
    inversion Hout; subst.
    + by exists new.
    + eexists (record_of step_name step_config (current_data l) (clock w)
                 (Ok step_result) (clock w1) :: new).
      split; [rewrite Hnew; simpl; by rewrite <- app_assoc|].
      by eapply steps_run_cons.
    + eexists (record_of step_name step_config (current_data l) (clock w)
                 (Raise e) (clock w1) :: new).
      split; [rewrite Hnew; simpl; by rewrite <- app_assoc|].
      eapply steps_run_cons; try done.
      unfold context_after. simpl. by rewrite bool_decide_eq_false_2.
    + eexists (record_of step_name step_config (current_data l) (clock w)
                 (Raise e) (clock w1) :: new).
      split; [rewrite Hnew; simpl; by rewrite <- app_assoc|].
      eapply steps_run_cons; try done.
      unfold context_after. simpl. rewrite bool_decide_eq_true_2 by done.
      match goal with Hf : fallback config step_name = Some _ |- _ => by rewrite Hf end.
  - inversion Hout; subst.
    eexists [record_of step_name step_config (current_data l) (clock w)
               (Raise e) (clock w1)].
    split; [done|]. cbn [current_data].
    eapply steps_run_cons; try done.
    unfold context_after. simpl. rewrite bool_decide_eq_true_2 by done.
    match goal with Hf : _ ∨ _ |- _ => destruct Hf as [-> | ->] end; simpl;
      unfold dict_update; rewrite (left_id_L ∅ (∪)); constructor.
  - apply outcome_raise_steps in Hout as Hl. subst l1.
    assert (w1 = w) as -> by (by inversion Hout).
    exists []. rewrite app_nil_r. split; [done|constructor].
Qed.

(** The record of a call as a chain of executor calls, whether the call
    gives it back or raises. *)
Lemma execute_pipeline_steps_run_any input_data mode execution_id w r w' l' :
  PipelineOrchestrator.execute_pipeline_locals config session_post log_file
    input_data mode execution_id w = (r, (w', l')) →
  ∃ wb,
    r = log_result (log_file (S (length (execution_history w)))) (execution l') ∧
    steps_run config session_post w input_data
      (PipelineExecution.steps (execution l')) wb (current_data l') ∧
    w' = log_written (log_file (S (length (execution_history w)))) (execution l')
           (set_history (fun history => history ++ [execution l']) wb) ∧
    PipelineExecution.start_time (execution l') = clock w ∧
    PipelineExecution.end_time (execution l') = Some (clock wb) ∧
    PipelineExecution.mode (execution l') = mode ∧
    PipelineExecution.execution_id (execution l') =
      PipelineExecution.execution_id
        (PipelineOrchestrator.new_execution mode execution_id (clock w)).
Proof.
  intros Hrun.
  apply execute_pipeline_locals_outcome in Hrun
    as (rb & wb & l1 & ex & Hruns & Hex & _ & Hr & Hl & Hdata & Hw).
  pose proof (runs_frame _ _ _ _ _ _ Hruns) as (Hid & Hmode & Hstart).
  apply runs_steps_run in Hruns as (new & Hnew & Hchain). simpl in *.
  exists wb. rewrite Hdata, Hl. split; [done|]. subst ex. rewrite final_steps, Hnew.
  split_and!; try done.
  all: destruct rb as [[]|e]; simpl; unfold conclude; try case_bool_decide; simpl; done.
Qed.

(** The returned record as a chain of executor calls. *)
Lemma execute_pipeline_steps_run input_data mode execution_id w ex w' l' :
  PipelineOrchestrator.execute_pipeline_locals config session_post log_file
    input_data mode execution_id w = (Ok ex, (w', l')) →
  ∃ wb,
    steps_run config session_post w input_data (PipelineExecution.steps ex) wb
      (current_data l') ∧
    w' = log_written (log_file (S (length (execution_history w)))) ex
           (set_history (fun history => history ++ [ex]) wb) ∧
    PipelineExecution.start_time ex = clock w ∧
    PipelineExecution.end_time ex = Some (clock wb) ∧
    PipelineExecution.mode ex = mode ∧
    PipelineExecution.execution_id ex =
      PipelineExecution.execution_id
        (PipelineOrchestrator.new_execution mode execution_id (clock w)).
Proof.
  intros Hrun.
  apply execute_pipeline_steps_run_any in Hrun as (wb & Hr & H).
  symmetry in Hr. apply log_result_ok in Hr as ->. by exists wb.
Qed.
End ChainLemmas.

(** ** The context, the trace, the breakers and the clock along a run *)

Section ChainProperties.
Variable config : Config.
Variable session_post : nat → HttpOutcome.
Variable log_file : nat → LogOutcome.

Abbreviation chain := (steps_run config session_post).

Lemma record_of_name step_name step_config data started r ended :
  PipelineStep.name (record_of step_name step_config data started r ended) = step_name.
Proof. by destruct r. Qed.

Lemma record_of_component step_name step_config data started r ended :
  PipelineStep.component (record_of step_name step_config data started r ended)
  = sc_component step_config.
Proof. by destruct r. Qed.

Lemma record_of_input step_name step_config data started r ended :
  PipelineStep.input_data (record_of step_name step_config data started r ended) = Some data.
Proof. by destruct r. Qed.

Lemma context_after_dom step data :
  PipelineStep.input_data step = Some data → dom data ⊆ dom (context_after config step).
Proof.
  intros Hd. unfold context_after. rewrite Hd. simpl.
  destruct (PipelineStep.status step); try case_bool_decide; unfold dict_update; set_solver.
Qed.

Lemma steps_run_flows w data steps w' data' :
  chain w data steps w' data' →
  flows config data steps data' ∧
  Forall (fun step => ∃ received, PipelineStep.input_data step = Some received ∧
                                  dom data ⊆ dom received) steps ∧
  dom data ⊆ dom data'.
Proof.
  induction 1 as [w data|w data step_name step_config r w1 rest w' data' Hf He Hr Hc IH].
  - by split_and!.
  - destruct IH as (Hflows & Hall & Hdom).
    pose proof (context_after_dom _ _ (record_of_input step_name step_config data
                                         (clock w) r (clock w1))) as Hsub.
    split_and!.
    + simpl. by rewrite record_of_input.
    + constructor.
      * exists data. by rewrite record_of_input.
      * eapply Forall_impl; [done|]. intros step (received & ? & ?).
        exists received. split; [done|]. set_solver.
    + set_solver.
Qed.

Lemma steps_run_events w data steps w' data' :
  chain w data steps w' data' →
  ∃ new, trace w' = new ++ trace w ∧ Forall (recorded_event config steps) new.
Proof.
  induction 1 as [w data|w data step_name step_config r w1 rest w' data' Hf He Hr Hc IH].
  - exists []. by split.
  - destruct IH as (new2 & Ht2 & Hall2).
    apply with_retry_executor_effect in Hr as ((new1 & Ht1 & Hall1) & _).
    exists (new2 ++ new1). rewrite Ht2, Ht1, app_assoc. split; [done|].
    apply Forall_app. split.
    + eapply Forall_impl; [done|]. intros ev (step & sc & d & Hin & ?).
      exists step, sc, d. split; [by right|done].
    + eapply Forall_impl; [done|]. intros ev Hev.
      eexists _, step_config, data. split_and!; [by left| | | |done].
      * by rewrite record_of_name.
      * by rewrite record_of_component.
      * by rewrite record_of_input.
Qed.

Lemma steps_run_breakers w data steps w' data' :
  chain w data steps w' data' →
  dom (circuit_breakers w') = dom (circuit_breakers w) ∧
  execution_history w' = execution_history w ∧
  ∀ component,
    (∀ step, step ∈ steps → PipelineStep.component step ≠ component) →
    circuit_breakers w' !! component = circuit_breakers w !! component.
Proof.
  induction 1 as [w data|w data step_name step_config r w1 rest w' data' Hf He Hr Hc IH].
  - done.
  - destruct IH as (Hdom & Hh & Hother).
    apply with_retry_executor_effect in Hr as (_ & _ & Hh1 & Hdom1 & Hother1).
    split_and!; try congruence.
    intros c Hc'. rewrite Hother.
    + apply Hother1. intros ->. eapply (Hc' _ ltac:(by left)).
      by rewrite record_of_component.
    + intros step Hin. apply Hc'. by right.
Qed.

Lemma steps_run_timeline w data steps w' data' :
  (∀ n, 0 <= elapsed (session_post n)) →
  chain w data steps w' data' →
  timeline (clock w) steps (clock w').
Proof.
  intros Hn.
  induction 1 as [w data|w data step_name step_config r w1 rest w' data' Hf He Hr Hc IH].
  - simpl. lia.
  - apply with_retry_executor_effect in Hr as (_ & Hclock & _). specialize (Hclock Hn).
    simpl. exists (clock w), (clock w1).
    split_and!; try done; try lia; by destruct r.
Qed.

Lemma timeline_sum lo steps hi :
  timeline lo steps hi → 0 <= sum_step_durations steps <= (hi - lo) * 1000.
Proof.
  revert lo. induction steps as [|step rest IH]; intros lo; simpl; [lia|].
  intros (s & e & _ & _ & -> & ? & ? & Hrest). apply IH in Hrest. simpl. lia.
Qed.

(** X1.  The accumulated context is handed from step to step.  The first
    recorded step receives exactly the input payload; every later one
    receives the context after the record before it, which is the context
    that step received, merged with its output when it completed, merged
    with its fallback payload (if any) when it failed and belongs to the
    default flow, and unchanged otherwise; the context after the last record
    is the final one.  Every step, and the final context, has all the keys
    of the payload. *)
Theorem context_flows_through_steps input_data mode execution_id w ex w' l' :
  PipelineOrchestrator.execute_pipeline_locals config session_post log_file
    input_data mode execution_id w = (Ok ex, (w', l')) →
  flows config input_data (PipelineExecution.steps ex) (current_data l') ∧
  Forall (fun step => ∃ received, PipelineStep.input_data step = Some received ∧
                                  dom input_data ⊆ dom received)
         (PipelineExecution.steps ex) ∧
  dom input_data ⊆ dom (current_data l').
Proof.
  intros Hrun. apply execute_pipeline_steps_run in Hrun as (wb & Hchain & _).
  by apply steps_run_flows in Hchain.
Qed.

(** X2.  What a run adds to the trace, whether the call gives its record
    back or raises because the log directory could not be created; the
    record is the last of the history in both cases.  The write of the
    execution log comes last and is the only one, and there is none when the
    directory or the file could not be written.  Every post belongs to a
    recorded step: it goes to the base URL of the step's component followed
    by the step's endpoint, with the step's timeout (30 when none is
    configured), and its JSON body is the whole context the step received,
    not only the required fields.  Every sleep lasts one of the configured
    retry delays, and every logged failed attempt names a recorded step. *)
Theorem posts_belong_to_recorded_steps input_data mode execution_id w :
  let run := PipelineOrchestrator.execute_pipeline config session_post log_file
               input_data mode execution_id w in
  let outcome := log_file (S (length (execution_history w))) in
  ∃ ex new,
    execution_history (snd run) = execution_history w ++ [ex] ∧
    fst run = match outcome with
              | MkdirRaises e => Raise e
              | DumpRaises _ | Saved => Ok ex
              end ∧
    trace (snd run)
    = match outcome with
      | Saved => [EvSaveLog (PipelineExecution.execution_id ex)]
      | MkdirRaises _ | DumpRaises _ => []
      end ++ new ++ trace w ∧
    Forall (recorded_event config (PipelineExecution.steps ex)) new.
Proof.
  intros run outcome.
  destruct run as [r w'] eqn:Hrun. subst run.
  apply execute_pipeline_any in Hrun as [l' Hrun].
  apply execute_pipeline_steps_run_any in Hrun as (wb & -> & Hchain & -> & _).
  pose proof (steps_run_breakers _ _ _ _ _ Hchain) as (_ & Hh & _).
  apply steps_run_events in Hchain as (new & Ht & Hall).
  exists (execution l'), new. cbn [fst snd].
  rewrite log_written_history, log_written_trace. cbn [execution_history trace set_history].
  rewrite Hh, Ht. by split_and!.
Qed.

(** X3.  A run neither adds nor removes a circuit breaker, and it leaves
    untouched the breaker of every component that is not the component of
    one of the recorded steps. *)
Theorem run_touches_recorded_breakers_only input_data mode execution_id w ex w' :
  PipelineOrchestrator.execute_pipeline config session_post log_file
    input_data mode execution_id w = (Ok ex, w') →
  dom (circuit_breakers w') = dom (circuit_breakers w) ∧
  ∀ component,
    (∀ step, step ∈ PipelineExecution.steps ex → PipelineStep.component step ≠ component) →
    circuit_breakers w' !! component = circuit_breakers w !! component.
Proof.
  intros Hrun. apply execute_pipeline_runs in Hrun as [l' Hrun].
  apply execute_pipeline_steps_run in Hrun as (wb & Hchain & -> & _).
  rewrite log_written_breakers.
  apply steps_run_breakers in Hchain as (Hdom & _ & Hother). by split.
Qed.

(** X4.  When no post takes a negative time, the timestamps of a returned
    execution are consistent: it starts at the clock reading of the call and
    its total duration is its end minus its start, in milliseconds; the step
    records lie one after the other between the start and the end, each
    ending no earlier than it starts, with the duration (end - start) * 1000;
    so the durations of the steps add up to at most the total duration. *)
Theorem step_timeline input_data mode execution_id w ex w' :
  (∀ n, 0 <= elapsed (session_post n)) →
  PipelineOrchestrator.execute_pipeline config session_post log_file
    input_data mode execution_id w = (Ok ex, w') →
  ∃ ended total,
    PipelineExecution.start_time ex = clock w ∧
    PipelineExecution.end_time ex = Some ended ∧
    PipelineExecution.total_duration_ms ex = Some total ∧
    total = (ended - PipelineExecution.start_time ex) * 1000 ∧
    timeline (PipelineExecution.start_time ex) (PipelineExecution.steps ex) ended ∧
    0 <= sum_step_durations (PipelineExecution.steps ex) <= total.
Proof.
  intros Hn Hrun.
  destruct (execute_pipeline_finalized config session_post log_file
              input_data mode execution_id w)
    as (ex0 & w0 & Hrun0 & Hend & Hdur & _).
  rewrite Hrun in Hrun0. injection Hrun0 as Hr <-.
  symmetry in Hr. apply log_result_ok in Hr as <-.
  apply execute_pipeline_runs in Hrun as [l' Hrun].
  apply execute_pipeline_steps_run in Hrun as (wb & Hchain & -> & Hstart & Hend' & _).
  apply (steps_run_timeline _ _ _ _ _ Hn) in Hchain. rewrite <- Hstart in Hchain.
  rewrite log_written_clock in Hend, Hdur. cbn [clock set_history] in Hend, Hdur.
  eexists _, _. split_and!; try done.
  all: apply timeline_sum in Hchain; simpl; lia.
Qed.
End ChainProperties.

(** ** The shape of a returned execution *)

Section Structure.
Variable config : Config.
Variable session_post : nat → HttpOutcome.
Variable log_file : nat → LogOutcome.

Lemma record_of_well_formed step_name step_config data started r ended :
  well_formed_record (record_of step_name step_config data started r ended).
Proof. destruct r; unfold well_formed_record; simpl; split_and!; by eauto. Qed.

Lemma steps_run_well_formed w data steps w' data' :
  steps_run config session_post w data steps w' data' →
  Forall well_formed_record steps.
Proof.
  induction 1; constructor; [apply record_of_well_formed|done].
Qed.

Lemma runs_names step_sequence w l r w' l' :
  runs config session_post step_sequence w l r w' l' →
  ∃ new,
    PipelineExecution.steps (execution l') = PipelineExecution.steps (execution l) ++ new ∧
    (PipelineStep.name <$> new) `prefix_of` List.filter (step_enabled config) step_sequence ∧
    (r = Ok tt → PipelineExecution.status (execution l') ≠ FAILED →
     PipelineStep.name <$> new = List.filter (step_enabled config) step_sequence).
Proof.
  induction 1 as [w l|step_name rest w l w1 l1 r w' l' Hout Hruns IH
                  |step_name rest w l w1 l1 Hout|step_name rest w l e w1 l1 Hout].
  - exists []. rewrite app_nil_r. by split_and!.
  - destruct IH as (new & Hnew & Hpre & Heq).
    apply outcome_continue_steps in Hout
      as (_ & _ & _ & [[-> (sc & Hf & He)]|(step & Hs & Hname & (sc & Hf & He & _) & _)]).
    + assert (step_enabled config step_name = false) as Hen
        by (unfold step_enabled; by rewrite Hf, He).
      exists new. simpl. rewrite Hen. by split_and!.
    + rewrite Hname in Hf.
      assert (step_enabled config step_name = true) as Hen
        by (unfold step_enabled; by rewrite Hf, He).
      exists (step :: new). simpl. rewrite Hen. split_and!.
      * rewrite Hnew, Hs. by rewrite <- app_assoc.
      * rewrite Hname. by apply prefix_cons.
      * intros Hr Hst. rewrite Hname. f_equal. by apply Heq.
  - apply outcome_break_steps in Hout
      as (_ & Hfailed & step & e & Hs & Hname & (sc & Hf & He & _) & _).
    rewrite Hname in Hf.
    assert (step_enabled config step_name = true) as Hen
      by (unfold step_enabled; by rewrite Hf, He).
    exists [step]. simpl. rewrite Hen. split_and!; [done| |done].
    rewrite Hname. apply prefix_cons, prefix_nil.
  - apply outcome_raise_steps in Hout as ->. exists []. rewrite app_nil_r.
    split_and!; [done|apply prefix_nil|done].
Qed.

Lemma runs_raise_cause step_sequence w l e w' l' :
  runs config session_post step_sequence w l (Raise e) w' l' →
  ∃ step_name,
    step_name ∈ step_sequence ∧
    ((find_step config step_name = None ∧
      e = ValueError ("Step configuration not found: " +:+ step_name)) ∨
     (∃ step_config, find_step config step_name = Some step_config ∧
                     sc_enabled step_config = None ∧ e = KeyError "enabled")).
Proof.
  remember (Raise e) as r eqn:Hr.
  induction 1 as [w l|step_name rest w l w1 l1 r w' l' Hout Hruns IH
                  |step_name rest w l w1 l1 Hout|step_name rest w l e' w1 l1 Hout];
    try done.
  - destruct (IH Hr) as (name & Hin & Hcause). exists name. split; [by right|done].
  - simplify_eq. exists step_name. split; [by left|].
    inversion Hout; subst; [by left|right; by eexists].
Qed.

(** X5.  A returned execution ended in one of three ways.  COMPLETED,
    without an error, every record being completed, or failed but tolerated
    (the step is not critical, or it has a non-empty fallback).  FAILED at a
    critical step: the last record is a failed step of the default flow that
    has no fallback (or an empty one), the records before it are tolerated,
    and the error reads "Critical step <name> failed: <error of the step>".
    FAILED by an exception of the loop itself: some step name of the resolved
    sequence has no step configuration (the error reads "Step configuration
    not found: <name>") or its configuration has no enabled key (the error
    is the text of the KeyError); the records made until then are
    tolerated. *)
Theorem execution_outcome_causes input_data mode execution_id w ex w' :
  PipelineOrchestrator.execute_pipeline config session_post log_file
    input_data mode execution_id w = (Ok ex, w') →
  (PipelineExecution.status ex = COMPLETED ∧ PipelineExecution.error ex = None ∧
   Forall (tolerated config) (PipelineExecution.steps ex)) ∨
  (PipelineExecution.status ex = FAILED ∧
   ∃ pre step msg,
     PipelineExecution.steps ex = pre ++ [step] ∧ Forall (tolerated config) pre ∧
     PipelineStep.status step = FAILED ∧ PipelineStep.error step = Some msg ∧
     critical config (PipelineStep.name step) ∧
     (fallback config (PipelineStep.name step) = None ∨
      fallback config (PipelineStep.name step) = Some ∅) ∧
     PipelineExecution.error ex =
       Some ("Critical step " +:+ PipelineStep.name step +:+ " failed: " +:+ msg)) ∨
  (PipelineExecution.status ex = FAILED ∧
   Forall (tolerated config) (PipelineExecution.steps ex) ∧
   ∃ step_name,
     step_name ∈ PipelineOrchestrator._get_step_sequence config mode ∧
     ((find_step config step_name = None ∧
       PipelineExecution.error ex = Some ("Step configuration not found: " +:+ step_name)) ∨
      (∃ step_config, find_step config step_name = Some step_config ∧
                      sc_enabled step_config = None ∧
                      PipelineExecution.error ex = Some "'enabled'"))).
Proof.
  intros Hrun. apply execute_pipeline_runs in Hrun as [l' Hrun].
  apply execute_pipeline_locals_runs in Hrun as (rb & wb & l1 & Hruns & -> & _).
  rewrite final_steps.
  pose proof (runs_fatal _ _ _ _ _ _ _ _ Hruns) as (new & Hnew & Hcases).
  simpl in Hnew. rewrite Hnew.
  destruct Hcases as [(Hst & Herr & Hall)|Hfatal].
  - simpl in Hst, Herr. destruct rb as [[]|e].
    + left. unfold conclude. rewrite bool_decide_eq_true_2 by (by rewrite Hst).
      simpl. by split_and!.
    + right. right. simpl. split_and!; try done.
      apply runs_raise_cause in Hruns as (name & Hin & Hcause).
      exists name. split; [done|].
      destruct Hcause as [[? ->]|(sc & ? & ? & ->)]; [by left|right; by exists sc].
  - right. left.
    destruct Hfatal as (-> & Hf & pre & step & e & before & after & Hfatal).
    destruct Hfatal as (-> & Hpre & Hs & He & Hcr & Hfb & Herr & _).
    unfold conclude. rewrite bool_decide_eq_false_2 by (by intros ?). simpl.
    split; [done|]. exists pre, step, (str e). by split_and!.
Qed.

(** The records of the asynchronous orchestrator follow the resolved
    sequence. *)
Lemma async_records_follow_sequence input_data mode execution_id w ex w' :
  PipelineOrchestrator.execute_pipeline config session_post log_file
    input_data mode execution_id w = (Ok ex, w') →
  (PipelineStep.name <$> PipelineExecution.steps ex) `prefix_of`
    List.filter (step_enabled config) (PipelineOrchestrator._get_step_sequence config mode) ∧
  (PipelineExecution.status ex = COMPLETED →
   PipelineStep.name <$> PipelineExecution.steps ex =
     List.filter (step_enabled config) (PipelineOrchestrator._get_step_sequence config mode)).
Proof.
  intros Hrun. apply execute_pipeline_runs in Hrun as [l' Hrun].
  apply execute_pipeline_locals_runs in Hrun as (rb & wb & l1 & Hruns & -> & _).
  rewrite final_steps.
  apply runs_names in Hruns as (new & Hnew & Hpre & Heq). simpl in Hnew. rewrite Hnew.
  split; [done|]. intros Hst. destruct rb as [[]|e]; [|done].
  apply Heq; [done|]. intros Hf. simpl in Hst. unfold conclude in Hst.
  rewrite bool_decide_eq_false_2 in Hst by (by intros ?). congruence.
Qed.
End Structure.

(** ** The records of the synchronous orchestrator *)

Section SimpleRecords.
Variable config : Config.
Variable session_post : nat → HttpOutcome.
Variable log_file : nat → LogOutcome.

Lemma mock_data_spec step_name execution_id input_data w l r w' l' :
  SimplePipelineOrchestrator.mock_data step_name execution_id input_data (w, l)
    = (r, (w', l')) →
  match r with
  | Ok _ => ∀ key, key ∈ mock_fields step_name → key ∈ dom (current_data l')
  | Raise e => step_name = "summarize" ∧ message_prefix input_data = inl e
  end.
Proof.
  unfold SimplePipelineOrchestrator.mock_data, mock_fields. intros H.
  destruct (String.eqb step_name "summarize") eqn:E1.
  { apply String.eqb_eq in E1.
    destruct (message_prefix input_data) as [e|prefix] eqn:Hp; msimpl; simplify_eq; [done|].
    intros key Hkey. simpl. unfold dict_update.
    set_solver. }
  destruct (String.eqb step_name "process_summary") eqn:E2.
  { msimpl. simplify_eq. intros key Hkey. simpl. unfold dict_update.
    set_solver. }
  destruct (String.eqb step_name "respond") eqn:E3.
  { msimpl. simplify_eq. intros key Hkey. simpl. unfold dict_update.
    set_solver. }
  msimpl. simplify_eq. set_solver.
Qed.

Lemma simple_run_steps_records input_data execution_id step_sequence :
  ∀ w l r w' l',
    SimplePipelineOrchestrator.run_steps config session_post
      input_data execution_id step_sequence (w, l) = (r, (w', l')) →
    ∃ new,
      PipelineExecution.steps (execution l') = PipelineExecution.steps (execution l) ++ new ∧
      PipelineExecution.status (execution l') = PipelineExecution.status (execution l) ∧
      PipelineExecution.error (execution l') = PipelineExecution.error (execution l) ∧
      Forall well_formed_record new ∧
      (PipelineStep.name <$> new) `prefix_of`
        List.filter (simple_step_enabled config) step_sequence ∧
      dom (current_data l) ⊆ dom (current_data l') ∧
      match r with
      | Ok _ =>
          PipelineStep.name <$> new = List.filter (simple_step_enabled config) step_sequence ∧
          Forall (fun step =>
                    PipelineStep.status step = FAILED →
                    ∀ key, key ∈ mock_fields (PipelineStep.name step) →
                           key ∈ dom (current_data l')) new
      | Raise e =>
          message_prefix input_data = inl e ∧
          ∃ step, last new = Some step ∧ PipelineStep.name step = "summarize" ∧
                  PipelineStep.status step = FAILED
      end.
Proof.
  induction step_sequence as [|step_name rest IH]; intros w l r w' l' H.
  - simpl in H. unfold ret in H. simplify_eq. exists []. rewrite app_nil_r.
    by split_and!.
  - simpl in H. unfold bind in H.
    destruct (SimplePipelineOrchestrator.run_step config session_post
                input_data execution_id step_name (w, l))
      as [[[]|e] [w1 l1]] eqn:Hs; apply simple_run_step_outcome in Hs.
    + apply IH in H as (new & Hnew & Hst & Herr & Hwf & Hpre & Hdom & Hr).
      inversion Hs; subst.
      * (* not configured *)
        assert (simple_step_enabled config step_name = false) as Hen
          by (unfold simple_step_enabled; by match goal with Hf : find_step _ _ = _ |- _ =>
                rewrite Hf end).
        exists new. simpl. rewrite Hen. by split_and!.
      * (* disabled *)
        assert (simple_step_enabled config step_name = false) as Hen.
        { unfold simple_step_enabled.
          by match goal with Hf : find_step _ _ = _ |- _ => rewrite Hf end. }
        exists new. simpl. rewrite Hen. by split_and!.
      * (* completed *)
        assert (simple_step_enabled config step_name = true) as Hen.
        { unfold simple_step_enabled.
          by match goal with Hf : find_step _ _ = _ |- _ => rewrite Hf end. }
        eexists (record_of step_name step_config (current_data l) (clock w)
                   (Ok step_result) (clock w1) :: new).
        simpl in *. rewrite Hen. split_and!; try done.
        -- rewrite Hnew. by rewrite <- app_assoc.
        -- constructor; [apply (record_of_well_formed _ _ _ _ (Ok step_result))|done].
        -- by apply prefix_cons.
        -- unfold dict_update in Hdom. set_solver.
        -- destruct r as [[]|e]; [|destruct Hr as (? & step & Hlast & ?)].
           ++ destruct Hr as [Hnames Hmock]. split; [by f_equal|]. by constructor.
           ++ split; [done|]. exists step. split; [|done].
              destruct new; [done|]. by rewrite last_cons, Hlast.
      * (* failed, mock data merged *)
        assert (simple_step_enabled config step_name = true) as Hen.
        { unfold simple_step_enabled.
          by match goal with Hf : find_step _ _ = _ |- _ => rewrite Hf end. }
        match goal with Hm : SimplePipelineOrchestrator.mock_data _ _ _ _ = _ |- _ =>
          pose proof (mock_data_effect _ _ _ _ _ _ _ _ Hm) as (_ & Hex & Hd1);
          pose proof (mock_data_spec _ _ _ _ _ _ _ _ Hm) as Hkeys end.
        simpl in Hex, Hd1, Hkeys.
        eexists (record_of step_name step_config (current_data l) (clock w)
                   (Raise e) (clock w1) :: new).
        simpl. rewrite Hen. rewrite Hex in Hnew, Hst, Herr. simpl in *.
        split_and!; try done.
        -- rewrite Hnew. by rewrite <- app_assoc.
        -- constructor; [apply (record_of_well_formed _ _ _ _ (Raise e))|done].
        -- by apply prefix_cons.
        -- set_solver.
        -- destruct r as [[]|e']; [|destruct Hr as (? & step & Hlast & ?)].
           ++ destruct Hr as [Hnames Hmock]. split; [by f_equal|]. constructor; [|done].
              intros _ key Hkey. set_solver.
           ++ split; [done|]. exists step. split; [|done].
              destruct new; [done|]. by rewrite last_cons, Hlast.
    + simplify_eq. inversion Hs; subst.
      assert (simple_step_enabled config step_name = true) as Hen.
      { unfold simple_step_enabled.
        by match goal with Hf : find_step _ _ = _ |- _ => rewrite Hf end. }
      match goal with Hm : SimplePipelineOrchestrator.mock_data _ _ _ _ = _ |- _ =>
        pose proof (mock_data_effect _ _ _ _ _ _ _ _ Hm) as (_ & Hex & Hd1);
        pose proof (mock_data_spec _ _ _ _ _ _ _ _ Hm) as [-> Hp] end.
      simpl in Hex, Hd1.
      eexists [record_of "summarize" step_config (current_data l) (clock w)
                 (Raise e0) (clock w')].
      rewrite Hex. simpl. rewrite Hen. split_and!; try done.
      * constructor; [apply (record_of_well_formed _ _ _ _ (Raise e0))|done].
      * apply prefix_cons, prefix_nil.
      * eexists. by split_and!.
Qed.

Lemma simple_execute_pipeline_records input_data mode execution_id w ex w' l' :
  SimplePipelineOrchestrator.execute_pipeline_locals config session_post
    input_data mode execution_id w = (Ok ex, (w', l')) →
  Forall well_formed_record (PipelineExecution.steps ex) ∧
  (PipelineStep.name <$> PipelineExecution.steps ex) `prefix_of`
    List.filter (simple_step_enabled config)
      (SimplePipelineOrchestrator._get_step_sequence config mode) ∧
  dom input_data ⊆ dom (current_data l') ∧
  ((PipelineExecution.status ex = COMPLETED ∧ PipelineExecution.error ex = None ∧
    PipelineStep.name <$> PipelineExecution.steps ex =
      List.filter (simple_step_enabled config)
        (SimplePipelineOrchestrator._get_step_sequence config mode) ∧
    Forall (fun step =>
              PipelineStep.status step = FAILED →
              ∀ key, key ∈ mock_fields (PipelineStep.name step) →
                     key ∈ dom (current_data l')) (PipelineExecution.steps ex)) ∨
   (PipelineExecution.status ex = FAILED ∧
    ∃ e step,
      message_prefix input_data = inl e ∧
      PipelineExecution.error ex = Some (str e) ∧
      last (PipelineExecution.steps ex) = Some step ∧
      PipelineStep.name step = "summarize" ∧ PipelineStep.status step = FAILED)).
Proof.
  destruct (SimplePipelineOrchestrator.pipeline_body config session_post input_data mode
    (PipelineExecution.execution_id
       (SimplePipelineOrchestrator.new_execution mode execution_id (clock w)))
    (w, {| execution := SimplePipelineOrchestrator.new_execution mode execution_id (clock w);
           current_data := ∅ |})) as [rb [wb lb]] eqn:Hb.
  rewrite (simple_execute_pipeline_eq _ _ _ _ _ _ _ _ _ Hb). cbn zeta. intros Hrun.
  unfold SimplePipelineOrchestrator.pipeline_body in Hb. msimpl. cbn [fst snd] in Hb.
  destruct (SimplePipelineOrchestrator.run_steps _ _ _ _ _ _) as [[[]|e] [w1 l1]] eqn:Hs;
    apply simple_run_steps_records in Hs
      as (new & Hnew & Hst & Herr & Hwf & Hpre & Hdom & Hr);
    simpl in Hnew, Hst, Herr, Hdom; simplify_eq; simpl.
  - destruct Hr as [Hnames Hmock]. split_and!; try done. left. by split_and!.
  - destruct Hr as (Hp & step & Hlast & Hname & Hfailed). split_and!; try done.
    right. split; [done|]. by exists e, step.
Qed.

(** X6.  The synchronous orchestrator returns an execution for every
    input, and the execution is COMPLETED, without an error, unless the mock
    data of a failed step summarize could not be built: then it is FAILED,
    its last record is the failed step summarize, and its error is the text
    of the exception raised by slicing the message_text of the payload, a
    value that is neither a string nor a list.  So every run on a payload
    whose message_text is absent, a string or a list is COMPLETED, whatever
    the services answer. *)
Theorem simple_fails_only_on_unsliceable_message input_data mode execution_id w :
  ∃ ex w',
    SimplePipelineOrchestrator.execute_pipeline config session_post
      input_data mode execution_id w = (Ok ex, w') ∧
    ((PipelineExecution.status ex = COMPLETED ∧ PipelineExecution.error ex = None) ∨
     (PipelineExecution.status ex = FAILED ∧
      ∃ e step,
        message_prefix input_data = inl e ∧
        PipelineExecution.error ex = Some (str e) ∧
        last (PipelineExecution.steps ex) = Some step ∧
        PipelineStep.name step = "summarize" ∧ PipelineStep.status step = FAILED)).
Proof.
  unfold SimplePipelineOrchestrator.execute_pipeline.
  destruct (SimplePipelineOrchestrator.execute_pipeline_locals config session_post
              input_data mode execution_id w) as [r [w' l']] eqn:Hrun.
  destruct (simple_execute_pipeline_finalized config session_post
              input_data mode execution_id w) as (ex & w0 & Hrun0 & _).
  unfold SimplePipelineOrchestrator.execute_pipeline in Hrun0. rewrite Hrun in Hrun0.
  simplify_eq. exists ex, w0. split; [done|].
  apply simple_execute_pipeline_records in Hrun as (_ & _ & _ & [Hok|Hfail]).
  - left. by destruct Hok as (? & ? & _).
  - by right.
Qed.

(** X7.  In a COMPLETED execution of the synchronous orchestrator, every
    failed step named summarize, process_summary or respond has left the
    keys of its mock data in the final context (for summarize: summary_id,
    summary, intent, urgency and type). *)
Theorem simple_mock_fields_present input_data mode execution_id w ex w' l' step key :
  SimplePipelineOrchestrator.execute_pipeline_locals config session_post
    input_data mode execution_id w = (Ok ex, (w', l')) →
  PipelineExecution.status ex = COMPLETED →
  step ∈ PipelineExecution.steps ex →
  PipelineStep.status step = FAILED →
  key ∈ mock_fields (PipelineStep.name step) →
  key ∈ dom (current_data l').
Proof.
  intros Hrun Hst Hin Hfailed Hkey.
  apply simple_execute_pipeline_records in Hrun as (_ & _ & _ & [Hok|[Hf _]]);
    [|congruence].
  destruct Hok as (_ & _ & _ & Hmock). rewrite Forall_forall in Hmock.
  by apply (Hmock step).
Qed.

(** X8.  Every step record of an execution returned by either
    orchestrator has its start time, end time, duration and input snapshot
    set; its status is COMPLETED, with an output and no error, or FAILED,
    with an error and no output; and its retry_count is 0: the field is
    never updated, however many attempts were made. *)
Theorem step_records_well_formed input_data mode execution_id w ex w' step :
  PipelineOrchestrator.execute_pipeline config session_post log_file
    input_data mode execution_id w = (Ok ex, w') ∨
  SimplePipelineOrchestrator.execute_pipeline config session_post
    input_data mode execution_id w = (Ok ex, w') →
  step ∈ PipelineExecution.steps ex →
  well_formed_record step.
Proof.
  intros [Hrun|Hrun] Hin.
  - apply execute_pipeline_runs in Hrun as [l' Hrun].
    apply execute_pipeline_steps_run in Hrun as (wb & Hchain & _).
    apply steps_run_well_formed in Hchain. rewrite Forall_forall in Hchain. auto.
  - unfold SimplePipelineOrchestrator.execute_pipeline in Hrun.
    destruct (SimplePipelineOrchestrator.execute_pipeline_locals config session_post
                input_data mode execution_id w) as [r [w1 l1]] eqn:Hloc.
    simplify_eq. apply simple_execute_pipeline_records in Hloc as (Hwf & _).
    rewrite Forall_forall in Hwf. auto.
Qed.

(** X9.  The step records follow the resolved sequence.  In either
    orchestrator the names of the records, in their order, are a prefix of
    the sequence of the mode restricted to the names that get a record
    (configured and enabled; for the synchronous class a configuration
    without the enabled key counts as enabled), and they are the whole of
    it when the execution is COMPLETED. *)
Theorem records_follow_sequence input_data mode execution_id w :
  (∀ ex w',
     PipelineOrchestrator.execute_pipeline config session_post log_file
       input_data mode execution_id w = (Ok ex, w') →
     (PipelineStep.name <$> PipelineExecution.steps ex) `prefix_of`
       List.filter (step_enabled config) (PipelineOrchestrator._get_step_sequence config mode) ∧
     (PipelineExecution.status ex = COMPLETED →
      PipelineStep.name <$> PipelineExecution.steps ex =
        List.filter (step_enabled config)
          (PipelineOrchestrator._get_step_sequence config mode))) ∧
  (∀ ex w',
     SimplePipelineOrchestrator.execute_pipeline config session_post
       input_data mode execution_id w = (Ok ex, w') →
     (PipelineStep.name <$> PipelineExecution.steps ex) `prefix_of`
       List.filter (simple_step_enabled config)
         (SimplePipelineOrchestrator._get_step_sequence config mode) ∧
     (PipelineExecution.status ex = COMPLETED →
      PipelineStep.name <$> PipelineExecution.steps ex =
        List.filter (simple_step_enabled config)
          (SimplePipelineOrchestrator._get_step_sequence config mode))).
Proof.
  split.
  - intros ex w' Hrun. by eapply async_records_follow_sequence.
  - intros ex w' Hrun.
    unfold SimplePipelineOrchestrator.execute_pipeline in Hrun.
    destruct (SimplePipelineOrchestrator.execute_pipeline_locals config session_post
                input_data mode execution_id w) as [r [w1 l1]] eqn:Hloc.
    simplify_eq. apply simple_execute_pipeline_records in Hloc as (_ & Hpre & _ & Hcases).
    split; [done|]. intros Hst.
    destruct Hcases as [(_ & _ & Hnames & _)|[Hf _]]; [done|congruence].
Qed.
End SimpleRecords.

(** ** The retry loop: delays, edge cases, budget *)

Section Retry.
Variable config : Config.
Variable session_post : nat → HttpOutcome.
Variable log_file : nat → LogOutcome.

Abbreviation with_retry := (PipelineOrchestrator._execute_step_with_retry config session_post).
Abbreviation retry_loop := (PipelineOrchestrator.retry_loop config session_post).
Abbreviation try_attempt := (PipelineOrchestrator.try_attempt config session_post).
Abbreviation except_attempt := (PipelineOrchestrator.except_attempt config).
Abbreviation delays := (retry_delays (error_handling config)).

Lemma sleeps_app new2 new1 : sleeps (new2 ++ new1) = sleeps new1 ++ sleeps new2.
Proof. unfold sleeps. by rewrite reverse_app, omap_app. Qed.

Lemma sleeps_posts new : Forall (fun ev => is_post ev = true) new → sleeps new = [].
Proof.
  induction 1 as [|ev new Hev _ IH]; [done|].
  change (ev :: new) with ([ev] ++ new). rewrite sleeps_app, IH. by destruct ev.
Qed.

Lemma try_attempt_trace step_config data w r w' :
  try_attempt step_config data w = (r, w') →
  ∃ new, trace w' = new ++ trace w ∧ Forall (fun ev => is_post ev = true) new.
Proof.
  unfold PipelineOrchestrator.try_attempt. msimpl. intros H.
  destruct (PipelineOrchestrator._execute_single_step _ _ _ _ w) as [[result|e] w1] eqn:Hs;
    apply single_step_cases in Hs.
  - destruct Hs as [[_ [e ?]]|(cc & _ & _ & -> & _)]; [done|].
    exists [EvPost (base_url cc +:+ sc_endpoint step_config) data
              (default 30 (sc_timeout step_config))].
    split; [|by constructor].
    destruct (PipelineOrchestrator._reset_circuit_breaker _ _) as [r2 w2] eqn:Hr.
    assert (trace w2 = trace (emit (EvPost (base_url cc +:+ sc_endpoint step_config) data
              (default 30 (sc_timeout step_config)))
              (set_clock (clock w + elapsed (session_post (http_calls w))) w))) as Ht.
    { match type of Hr with _ ?w0 = _ =>
        destruct (circuit_breakers w0 !! sc_component step_config) as [b|] eqn:Hb end.
      - rewrite (reset_eq _ _ _ Hb) in Hr. by simplify_eq.
      - rewrite (reset_missing _ _ Hb) in Hr. by simplify_eq. }
    destruct r2; simplify_eq; by rewrite Ht.
  - simplify_eq. destruct Hs as [[-> _]|(cc & _ & _ & -> & _)].
    + exists []. by split.
    + eexists [_]. split; [done|]. by constructor.
Qed.

Lemma delay_at_getitem attempt :
  delays ≠ [] → 0 <= attempt →
  list_getitem delays (Z.min attempt (Z.of_nat (length delays) - 1))
  = Some (delay_at config attempt).
Proof.
  intros Hd Ha. destruct (list_getitem_min delays attempt Hd Ha) as [d Hget].
  unfold delay_at. by rewrite Hget.
Qed.

Lemma except_attempt_trace step_config retry_count attempt e w r w' :
  delays ≠ [] → 0 <= attempt →
  except_attempt step_config retry_count attempt e w = (r, w') →
  if attempt <? retry_count then
    r = Ok tt ∧
    trace w' = EvSleep (delay_at config attempt) ::
               EvAttemptFailed (sc_name step_config) (attempt + 1) (str e) :: trace w
  else
    trace w' = EvAttemptFailed (sc_name step_config) (attempt + 1) (str e) :: trace w.
Proof.
  intros Hd Ha. unfold PipelineOrchestrator.except_attempt. msimpl. intros H.
  destruct (attempt <? retry_count).
  - rewrite (delay_at_getitem _ Hd Ha) in H. msimpl. by simplify_eq.
  - match type of H with _ _ _ ?w0 = _ =>
      destruct (circuit_breakers w0 !! sc_component step_config) as [b|] eqn:Hb end.
    + rewrite (record_failure_eq config _ _ b) in H by done. by simplify_eq.
    + rewrite record_failure_missing in H by done. by simplify_eq.
Qed.

Lemma retry_loop_schedule step_config data retry_count m :
  delays ≠ [] →
  ∀ k last w r w',
    Z.of_nat (k + m) = retry_count + 1 →
    retry_loop step_config data retry_count (Z.of_nat <$> seq k m) last w = (r, w') →
    ∃ new (j : nat),
      trace w' = new ++ trace w ∧
      sleeps new = delay_at config <$> (Z.of_nat <$> seq k j) ∧
      (failed_attempts w <= failed_attempts w')%nat ∧
      j = Nat.min (failed_attempts w' - failed_attempts w) (m - 1).
Proof.
  intros Hd. induction m as [|m IH]; intros k last w r w' Hk H.
  - simpl in H. exists [], 0%nat.
    destruct last; unfold raise in H; simplify_eq; split_and!; try done.
    all: lia.
  - simpl in H. unfold try_except in H.
    destruct (try_attempt step_config data w) as [[result|e] w1] eqn:Ht;
      pose proof (try_attempt_trace _ _ _ _ _ Ht) as (new1 & Ht1 & Hposts);
      apply try_attempt_effect in Ht as (_ & Hfa1 & _).
    + simplify_eq. exists new1, 0%nat. rewrite sleeps_posts by done.
      split_and!; try done. all: lia.
    + unfold bind in H.
      destruct (except_attempt step_config retry_count (Z.of_nat k) e w1)
        as [rx w2] eqn:Hx.
      pose proof (except_attempt_trace step_config retry_count (Z.of_nat k) e w1 rx w2
                    Hd ltac:(lia) Hx) as Htr.
      apply except_attempt_effect in Hx as (_ & _ & Hfa2 & _).
      destruct (Z.of_nat k <? retry_count) eqn:Hlt.
      * apply Z.ltb_lt in Hlt. destruct Htr as [-> Ht2].
        apply IH in H as (new3 & j & Ht3 & Hs3 & Hmono & Hj); [|lia].
        exists (new3 ++ [EvSleep (delay_at config (Z.of_nat k));
                         EvAttemptFailed (sc_name step_config) (Z.of_nat k + 1) (str e)]
                ++ new1), (S j).
        split_and!.
        -- rewrite Ht3, Ht2, Ht1. by rewrite <- !app_assoc.
        -- rewrite !sleeps_app, Hs3, (sleeps_posts new1) by done. simpl.
           by rewrite <- seq_S_start_hd || done.
        -- lia.
        -- lia.
      * apply Z.ltb_ge in Hlt. assert (m = 0)%nat as -> by lia.
        exists (EvAttemptFailed (sc_name step_config) (Z.of_nat k + 1) (str e) :: new1),
               0%nat.
        assert (w' = w2) as ->.
        { destruct rx as [[]|e']; simpl in H; unfold raise in H; by simplify_eq. }
        split_and!.
        -- by rewrite Htr, Ht1.
        -- change (?x :: new1) with ([x] ++ new1).
           rewrite sleeps_app, (sleeps_posts new1) by done. done.
        -- lia.
        -- lia.
Qed.

(** X10.  The back-off of the retry loop.  With a non-empty list of retry
    delays and a retry count N >= 0, a call of the executor sleeps once
    after each failed attempt but the last one: the number of sleeps is the
    smaller of the number of failed attempts and N, and the i-th sleep
    (counting from 0) lasts retry_delays[min(i, len(retry_delays) - 1)]: the
    last delay is reused when the retries outnumber the delays. *)
Theorem retry_delay_schedule step_config data w r w' :
  delays ≠ [] → 0 <= default 1 (sc_retry_count step_config) →
  with_retry step_config data w = (r, w') →
  ∃ new,
    trace w' = new ++ trace w ∧
    sleeps new = delay_at config <$> range (Z.of_nat (length (sleeps new))) ∧
    length (sleeps new) =
      Nat.min (failed_attempts w' - failed_attempts w)
              (Z.to_nat (default 1 (sc_retry_count step_config))).
Proof.
  intros Hd HN. rewrite with_retry_eq.
  destruct (PipelineOrchestrator._is_circuit_open _ _ w) as [[[|]|e0] w1] eqn:Hc;
    pose proof (consult_counts _ _ _ _ _ Hc) as (_ & Hfa & _);
    apply consult_effect in Hc as (_ & Ht & _); intros H.
  - simplify_eq. exists []. split_and!; try done. simpl. lia.
  - rewrite range_seq in H.
    apply retry_loop_schedule in H as (new & j & Ht' & Hs & _ & Hj); [|done|lia].
    exists new. rewrite Ht', Ht. split; [done|].
    assert (length (sleeps new) = j) as Hlen by (by rewrite Hs, !length_fmap, length_seq).
    rewrite Hlen. split.
    + by rewrite range_seq, Nat2Z.id.
    + rewrite Hj, Hfa. f_equal. lia.
  - simplify_eq. exists []. split_and!; try done. simpl. lia.
Qed.

(** X11.  With an empty list of retry delays and a retry count of at
    least 1 the executor never retries: a call makes at most one attempt and
    never sleeps, and when that attempt fails the call raises IndexError
    (list index out of range) from the except block, not the error of the
    attempt, and the failure count of the breaker stays as it was. *)
Theorem empty_retry_delays_mask_failure step_config data w r w' :
  delays = [] → 1 <= default 1 (sc_retry_count step_config) →
  with_retry step_config data w = (r, w') →
  (http_calls w' <= http_calls w + 1)%nat ∧
  (failed_attempts w' <= failed_attempts w + 1)%nat ∧
  sleep_count w' = sleep_count w ∧
  (failed_attempts w' = (failed_attempts w + 1)%nat →
   r = Raise (IndexError "list index out of range") ∧
   ∀ b, circuit_breakers w !! sc_component step_config = Some b →
        ∃ b', circuit_breakers w' !! sc_component step_config = Some b' ∧
              failures b' = failures b).
Proof.
  intros Hd HN. rewrite with_retry_eq.
  destruct (PipelineOrchestrator._is_circuit_open _ _ w) as [[[|]|e0] w1] eqn:Hc;
    pose proof (consult_counts _ _ _ _ _ Hc) as (Hhc & Hfa & Hsl);
    apply consult_effect in Hc as (_ & _ & _ & Hcb); intros H.
  - simplify_eq. split_and!; try lia.
  - set (N := default 1 (sc_retry_count step_config)) in *.
    rewrite range_seq in H.
    replace (Z.to_nat (N + 1)) with (S (Z.to_nat N)) in H by lia.
    simpl in H. unfold try_except in H.
    destruct (try_attempt step_config data w1) as [[result|e] w2] eqn:Ht;
      apply try_attempt_effect in Ht as (_ & Hfa2 & Hsl2 & Hhc2 & Hcb2).
    + simplify_eq. split_and!; try lia.
    + unfold bind, PipelineOrchestrator.except_attempt in H. msimpl.
      change (Z.of_nat 0) with 0 in H.
      replace (0 <? N) with true in H by (symmetry; apply Z.ltb_lt; lia).
      rewrite Hd in H. simpl in H. simplify_eq. wsimpl.
      split_and!; try lia. intros _. split; [done|].
      intros b Hb. rewrite Hcb2. rewrite Hb in Hcb.
      destruct Hcb as (b' & -> & Hf & _). exists b'. by rewrite lookup_insert_eq.
  - simplify_eq. split_and!; try lia.
Qed.

Lemma retry_loop_unconfigured step_config data retry_count m :
  components config !! sc_component step_config = None → delays ≠ [] →
  ∀ k last w,
    circuit_breakers w !! sc_component step_config = None →
    Z.of_nat (k + S m) = retry_count + 1 →
    ∃ w',
      retry_loop step_config data retry_count (Z.of_nat <$> seq k (S m)) last w
        = (Raise (KeyError (sc_component step_config)), w') ∧
      http_calls w' = http_calls w ∧ circuit_breakers w' = circuit_breakers w.
Proof.
  intros Hc Hd.
  assert (∀ w, try_attempt step_config data w
               = (Raise (KeyError (sc_component step_config)), w)) as Htry.
  { intros w. unfold PipelineOrchestrator.try_attempt. msimpl.
    rewrite single_step_eq, Hc. done. }
  induction m as [|m IH]; intros k last w Hb Hk.
  - simpl. unfold try_except. rewrite Htry. unfold bind.
    destruct (except_attempt step_config retry_count (Z.of_nat k) _ w) as [rx w2] eqn:Hx.
    apply except_attempt_effect in Hx as (_ & Hhc & _ & Hrest).
    replace (Z.of_nat k <? retry_count) with false in Hrest
      by (symmetry; apply Z.ltb_ge; lia).
    rewrite Hb in Hrest. destruct Hrest as (_ & -> & Hcb). by exists w2.
  - change (Z.of_nat <$> seq k (S (S m)))
      with (Z.of_nat k :: (Z.of_nat <$> seq (S k) (S m))).
    cbn [PipelineOrchestrator.retry_loop]. unfold try_except. rewrite Htry. unfold bind.
    destruct (except_attempt step_config retry_count (Z.of_nat k) _ w) as [rx w2] eqn:Hx.
    apply except_attempt_effect in Hx as (_ & Hhc & _ & Hrest).
    replace (Z.of_nat k <? retry_count) with true in Hrest
      by (symmetry; apply Z.ltb_lt; lia).
    destruct Hrest as (Hcb & [[-> _] | [_ [_ Hnil]]]); [|by specialize (Hnil ltac:(lia))].
    destruct (IH (S k) (Some (KeyError (sc_component step_config))) w2)
      as (w' & Hr & Hhc' & Hcb'); [by rewrite Hcb|lia|].
    exists w'. rewrite Hr. split_and!; congruence.
Qed.

Lemma with_retry_counts step_config data w r w' :
  with_retry step_config data w = (r, w') →
  (http_calls w <= http_calls w'
   <= http_calls w + Z.to_nat (default 1%Z (sc_retry_count step_config) + 1)%Z)%nat.
Proof.
  rewrite with_retry_eq.
  destruct (PipelineOrchestrator._is_circuit_open _ _ w) as [[[|]|e0] w1] eqn:Hc;
    apply consult_counts in Hc as (Hhc & _); intros H; [simplify_eq; lia| |simplify_eq; lia].
  set (N := default 1 (sc_retry_count step_config)) in *.
  destruct (decide (0 <= N + 1)) as [Hpos|Hneg].
  - rewrite range_seq in H. apply retry_loop_spec in H as (_ & Hb & _); lia.
  - unfold range in H. replace (Z.to_nat (N + 1)) with 0%nat in * by lia.
    simpl in H. unfold raise in H. simplify_eq. lia.
Qed.

Lemma run_budget_app names1 names2 :
  run_budget config (names1 ++ names2)
  = (run_budget config names1 + run_budget config names2)%nat.
Proof. induction names1 as [|name rest IH]; simpl; lia. Qed.

Lemma run_budget_filter f names :
  (run_budget config (List.filter f names) <= run_budget config names)%nat.
Proof.
  induction names as [|name rest IH]; [done|]. simpl.
  destruct (f name); simpl; lia.
Qed.

Lemma steps_run_budget w data steps w' data' :
  steps_run config session_post w data steps w' data' →
  (http_calls w <= http_calls w'
   <= http_calls w + run_budget config (PipelineStep.name <$> steps))%nat.
Proof.
  induction 1 as [w data|w data step_name step_config r w1 rest w' data' Hf He Hr Hc IH].
  - simpl. lia.
  - apply with_retry_counts in Hr. rewrite fmap_cons, record_of_name.
    simpl. unfold attempts_budget at 1. rewrite Hf. lia.
Qed.

(** X12.  The number of posts of a run is at most the sum, over its step
    records, of the attempts the configuration allows the step (retry_count
    + 1, the retry count being 1 by default), which is at most the same sum
    over the step names of the resolved sequence. *)
Theorem posts_within_budget input_data mode execution_id w ex w' :
  PipelineOrchestrator.execute_pipeline config session_post log_file
    input_data mode execution_id w = (Ok ex, w') →
  (http_calls w' <= http_calls w
                    + run_budget config (PipelineStep.name <$> PipelineExecution.steps ex))%nat ∧
  (run_budget config (PipelineStep.name <$> PipelineExecution.steps ex)
   <= run_budget config (PipelineOrchestrator._get_step_sequence config mode))%nat.
Proof.
  intros Hrun. pose proof (async_records_follow_sequence _ _ _ _ _ _ _ _ _ Hrun) as [Hpre _].
  apply execute_pipeline_runs in Hrun as [l' Hrun].
  apply execute_pipeline_steps_run in Hrun as (wb & Hchain & -> & _).
  rewrite log_written_http_calls.
  apply steps_run_budget in Hchain. split; [by wsimpl; lia|].
  destruct Hpre as [tail Htail].
  etransitivity; [|apply (run_budget_filter (step_enabled config))].
  rewrite Htail, run_budget_app. lia.
Qed.
End Retry.

(** ** More invariants of the reachable states *)

Section Invariants.
Variable config : Config.
Variable session_post : nat → HttpOutcome.
Variable log_file : nat → LogOutcome.

Abbreviation threshold := (failure_threshold (circuit_breaker (error_handling config))).

Lemma breakers_forall_preserved (Q : Breaker → Prop) :
  (∀ now b, Q b → Q (after_failure config now b)) →
  (∀ b, Q b → Q (after_success b)) →
  (∀ b, Q b → state b = open → Q (after_recovery b)) →
  ∀ input_data mode execution_id w,
    (∀ component b, circuit_breakers w !! component = Some b → Q b) →
    ∀ component b,
      circuit_breakers
        (snd (PipelineOrchestrator.execute_pipeline config session_post log_file
                input_data mode execution_id w)) !! component = Some b →
      Q b.
Proof.
  intros Qf Qs Qr input_data mode execution_id w HQ.
  apply (execute_pipeline_preserves config session_post log_file
           (fun w0 => ∀ component b, circuit_breakers w0 !! component = Some b → Q b));
    try done.
  - intros c w0 H0. destruct (circuit_breakers w0 !! c) as [b0|] eqn:Hb.
    + rewrite (record_failure_eq config c w0 b0) by done. simpl.
      intros c' b'. destruct (decide (c = c')) as [->|Hne].
      * rewrite lookup_insert_eq. intros [= <-]. by eapply Qf, H0.
      * rewrite lookup_insert_ne by done. apply H0.
    + by rewrite record_failure_missing.
  - intros c w0 H0. destruct (circuit_breakers w0 !! c) as [b0|] eqn:Hb.
    + rewrite (reset_eq c w0 b0) by done. simpl.
      intros c' b'. destruct (decide (c = c')) as [->|Hne].
      * rewrite lookup_insert_eq. intros [= <-]. by eapply Qs, H0.
      * rewrite lookup_insert_ne by done. apply H0.
    + by rewrite reset_missing.
  - intros c w0 H0.
    destruct (PipelineOrchestrator._is_circuit_open config c w0) as [r w1] eqn:Hc.
    apply consult_effect in Hc as (_ & _ & _ & Hcb). simpl.
    destruct (circuit_breakers w0 !! c) as [b0|] eqn:Hb; [|by rewrite Hcb].
    destruct Hcb as (b1 & -> & _ & _ & Hcases).
    intros c' b'. destruct (decide (c = c')) as [->|Hne].
    + rewrite lookup_insert_eq. intros [= <-].
      destruct Hcases as [->|[Hopen ->]]; [by eapply H0|]. eapply Qr; [by eapply H0|done].
    + rewrite lookup_insert_ne by done. apply H0.
Qed.

Lemma reachable_breakers_forall (Q : Breaker → Prop) :
  Q PipelineOrchestrator.initial_breaker →
  (∀ now b, Q b → Q (after_failure config now b)) →
  (∀ b, Q b → Q (after_success b)) →
  (∀ b, Q b → state b = open → Q (after_recovery b)) →
  ∀ w, reachable config session_post log_file w →
       ∀ component b, circuit_breakers w !! component = Some b → Q b.
Proof.
  intros Qi Qf Qs Qr w.
  induction 1 as [now|now w _ IH|input_data mode execution_id w _ IH].
  - intros c b. simpl. rewrite lookup_fmap.
    destruct (components config !! c); [|done]. by intros [= <-].
  - done.
  - by apply breakers_forall_preserved.
Qed.

Lemma reachable_breakers_dom w :
  reachable config session_post log_file w →
  dom (circuit_breakers w) = dom (components config).
Proof.
  induction 1 as [now|now w _ IH|input_data mode execution_id w _ IH].
  - simpl. by rewrite dom_fmap_L.
  - done.
  - destruct (PipelineOrchestrator.execute_pipeline config session_post log_file
                input_data mode execution_id w) as [r w'] eqn:Hrun.
    apply execute_pipeline_any in Hrun as [l' Hrun].
    apply execute_pipeline_steps_run_any in Hrun as (wb & _ & Hchain & -> & _).
    cbn [snd]. rewrite log_written_breakers.
    apply steps_run_breakers in Hchain as (Hdom & _). simpl. by rewrite Hdom.
Qed.

(** X13.  In every state the asynchronous orchestrator can reach, the
    circuit breakers are those of the configured components: the
    constructor creates one for each component of the configuration, and
    none is ever added or removed. *)
Theorem breakers_cover_components w component :
  reachable config session_post log_file w →
  dom (circuit_breakers w) = dom (components config) ∧
  (is_Some (circuit_breakers w !! component) ↔ is_Some (components config !! component)).
Proof.
  intros Hreach. apply reachable_breakers_dom in Hreach. split; [done|].
  by rewrite <- !elem_of_dom, Hreach.
Qed.

(** X14.  With a failure threshold of at least 1, in every reachable state
    and for every breaker: the failure count is not negative; the breaker is
    closed exactly when the count is below the threshold (so it is open or
    half-open exactly when the count has reached it); and a breaker that has
    no last failure has the count 0. *)
Theorem closed_iff_below_threshold w component b :
  1 <= threshold →
  reachable config session_post log_file w →
  circuit_breakers w !! component = Some b →
  breaker_counts config b.
Proof.
  intros Hthr Hreach Hb.
  eapply (reachable_breakers_forall (breaker_counts config)); try done.
  - unfold breaker_counts. simpl. split_and!; try done; try lia. split; [lia|done].
  - intros now b0 (Hpos & Hiff & Hlast). unfold breaker_counts, after_failure. simpl.
    split_and!; try done; try lia.
    destruct (Z.leb_spec threshold (failures b0 + 1)).
    + split; [done|lia].
    + rewrite Hiff. lia.
  - intros b0 (Hpos & Hiff & Hlast). unfold breaker_counts, after_success. simpl.
    split_and!; try done. split; [lia|done].
  - intros b0 (Hpos & Hiff & Hlast) Hopen. unfold breaker_counts, after_recovery. simpl.
    split_and!; try done. split; [done|]. intros Hlt. apply Hiff in Hlt. congruence.
Qed.

(** X15.  A step whose component is not configured fails with the
    KeyError of that component, no post is made and the breakers stay as
    they are: the error is raised at once by the consultation of the breaker
    when the breaker is enabled, and otherwise after every attempt has
    failed on the lookup of the component, when the failure cannot be
    recorded.  (In a reachable state, for a retry count >= 0 and a non-empty
    list of retry delays.) *)
Theorem unconfigured_component_raises_key_error step_config data w r w' :
  reachable config session_post log_file w →
  components config !! sc_component step_config = None →
  0 <= default 1 (sc_retry_count step_config) →
  retry_delays (error_handling config) ≠ [] →
  PipelineOrchestrator._execute_step_with_retry config session_post step_config data w
    = (r, w') →
  r = Raise (KeyError (sc_component step_config)) ∧
  http_calls w' = http_calls w ∧
  circuit_breakers w' = circuit_breakers w.
Proof.
  intros Hreach Hc HN Hd.
  assert (circuit_breakers w !! sc_component step_config = None) as Hb.
  { apply reachable_breakers_dom in Hreach. apply not_elem_of_dom.
    rewrite Hreach. by apply not_elem_of_dom. }
  rewrite with_retry_eq.
  destruct (cb_enabled (circuit_breaker (error_handling config))) eqn:He.
  - rewrite consult_missing by done. intros H. by simplify_eq.
  - rewrite consult_disabled by done. rewrite range_seq.
    replace (Z.to_nat (default 1 (sc_retry_count step_config) + 1))
      with (S (Z.to_nat (default 1 (sc_retry_count step_config)))) by lia.
    destruct (retry_loop_unconfigured config session_post step_config data
                (default 1 (sc_retry_count step_config))
                (Z.to_nat (default 1 (sc_retry_count step_config))) Hc Hd 0%nat None w Hb)
      as (w2 & Hr & Hhc & Hcb); [lia|].
    rewrite Hr. intros H. by simplify_eq.
Qed.

(** X16.  With a negative retry count the loop over range(retry_count + 1)
    is empty.  The asynchronous executor makes no attempt: it raises and
    leaves the trace and the clock as they are; when the breaker does not
    block, what it raises is the TypeError of raising None (exceptions must
    derive from BaseException).  The synchronous executor raises that
    TypeError and leaves the world untouched. *)
Theorem negative_retry_count_makes_no_attempt step_config N :
  sc_retry_count step_config = Some N → N < 0 →
  (∀ data w r w',
     PipelineOrchestrator._execute_step_with_retry config session_post step_config data w
       = (r, w') →
     (∃ e, r = Raise e) ∧ trace w' = trace w ∧ clock w' = clock w ∧
     (fst (PipelineOrchestrator._is_circuit_open config (sc_component step_config) w)
        = Ok false →
      r = Raise (TypeError "exceptions must derive from BaseException"))) ∧
  (∀ data w,
     SimplePipelineOrchestrator._execute_step_with_retry config session_post
       step_config data w
     = (Raise (TypeError "exceptions must derive from BaseException"), w)).
Proof.
  intros HN Hneg. split.
  - intros data w r w'. rewrite with_retry_eq, HN. simpl.
    unfold range. replace (Z.to_nat (N + 1)) with 0%nat by lia. simpl.
    destruct (PipelineOrchestrator._is_circuit_open _ _ w) as [[[|]|e0] w1] eqn:Hc;
      apply consult_effect in Hc as (_ & Ht & Hcl & _); unfold raise; intros H;
      simplify_eq; split_and!; by eauto.
  - intros data w. unfold SimplePipelineOrchestrator._execute_step_with_retry.
    rewrite HN. simpl. unfold range. by replace (Z.to_nat (N + 1)) with 0%nat by lia.
Qed.
End Invariants.

(** ** The retry loop of the synchronous orchestrator *)

Section SimpleRetry.
Variable config : Config.
Variable session_post : nat → HttpOutcome.

Abbreviation single_step := (PipelineOrchestrator._execute_single_step config session_post).
Abbreviation simple_retry_loop := (SimplePipelineOrchestrator.retry_loop config session_post).
Abbreviation simple_with_retry :=
  (SimplePipelineOrchestrator._execute_step_with_retry config session_post).

Lemma single_step_simple_events step_config data w r w' :
  single_step step_config data w = (r, w') →
  circuit_breakers w' = circuit_breakers w ∧
  sleep_count w' = sleep_count w ∧
  (http_calls w <= http_calls w' <= S (http_calls w))%nat ∧
  ∃ new, trace w' = new ++ trace w ∧ Forall simple_retry_event new.
Proof.
  intros H. pose proof (single_step_effect _ _ _ _ _ _ _ H) as (Hcb & _ & _ & Hsl & Hhc).
  split_and!; try done; try lia.
  apply single_step_cases in H as [[-> _]|(cc & _ & _ & -> & _)].
  - exists []. by split.
  - eexists [_]. split; [done|]. constructor; [by right|done].
Qed.

Lemma simple_retry_loop_exact step_config data retry_count m :
  ∀ k last w r w',
    Z.of_nat (k + m) = retry_count + 1 →
    simple_retry_loop step_config data retry_count (Z.of_nat <$> seq k m) last w = (r, w') →
    circuit_breakers w' = circuit_breakers w ∧
    (http_calls w' <= http_calls w + m)%nat ∧
    (∃ new, trace w' = new ++ trace w ∧ Forall simple_retry_event new) ∧
    ∀ e, r = Raise e → (0 < m)%nat →
         sleep_count w' = (sleep_count w + (m - 1))%nat ∧
         ∃ w0, single_step step_config data w0 = (Raise e, w').
Proof.
  induction m as [|m IH]; intros k last w r w' Hk H.
  - simpl in H. destruct last; unfold raise in H; simplify_eq.
    all: split_and!; try done; try lia; try (exists []; by split).
    all: intros; lia.
  - simpl in H. unfold try_except in H. rewrite simple_single_step_eq in H.
    destruct (single_step step_config data w) as [[result|e] w1] eqn:Hs;
      pose proof (single_step_simple_events _ _ _ _ _ Hs)
        as (Hcb1 & Hsl1 & Hhc1 & new1 & Ht1 & Hall1).
    + simplify_eq. split_and!; try done; try lia. by exists new1.
    + unfold bind in H. destruct (Z.of_nat k <? retry_count) eqn:Hlt.
      * apply Z.ltb_lt in Hlt. unfold sleep in H.
        apply IH in H as (Hcb & Hhc & (new & Ht & Hall) & Hr); [|lia].
        simpl in Hcb, Hhc, Ht. split_and!.
        -- congruence.
        -- revert Hhc. wsimpl. lia.
        -- exists (new ++ [EvSleep 1] ++ new1). rewrite Ht, Ht1, <- !app_assoc.
           split; [done|]. apply Forall_app. split; [done|].
           constructor; [by left|done].
        -- intros e' -> _. destruct (Hr e' eq_refl ltac:(lia)) as (Hsl & w0 & Hw0).
           split; [|by exists w0]. revert Hsl. wsimpl. lia.
      * apply Z.ltb_ge in Hlt. assert (m = 0)%nat as -> by lia.
        simpl in H. unfold ret, raise in H. simplify_eq.
        split_and!; try done; try lia; [by exists new1|].
        intros e' [= <-] _. split; [lia|by exists w].
Qed.

(** X17.  The retry loop of the synchronous orchestrator, for a retry
    count N >= 0: a call makes at most N + 1 posts, touches no circuit
    breaker, and adds nothing to the trace but posts and sleeps of one
    second; when it raises, it has slept exactly N times, and the exception
    is the one its last attempt raised. *)
Theorem simple_retry_waits_one_second step_config data w r w' :
  0 <= default 1 (sc_retry_count step_config) →
  simple_with_retry step_config data w = (r, w') →
  circuit_breakers w' = circuit_breakers w ∧
  (http_calls w' <= http_calls w + Z.to_nat (default 1%Z (sc_retry_count step_config) + 1)%Z)%nat ∧
  (∃ new, trace w' = new ++ trace w ∧ Forall simple_retry_event new) ∧
  ∀ e, r = Raise e →
       sleep_count w'
       = (sleep_count w + Z.to_nat (default 1%Z (sc_retry_count step_config)))%nat ∧
       ∃ w0, SimplePipelineOrchestrator._execute_single_step config session_post
               step_config data w0 = (Raise e, w').
Proof.
  intros HN. unfold SimplePipelineOrchestrator._execute_step_with_retry.
  rewrite range_seq. intros H.
  apply simple_retry_loop_exact in H as (Hcb & Hhc & Hnew & Hr); [|lia].
  split_and!; try done.
  intros e He. destruct (Hr e He ltac:(lia)) as (Hsl & w0 & Hw0).
  split; [lia|by exists w0].
Qed.
End SimpleRetry.

(** ** The history report and the health check *)

Section History.

Lemma insert_reverse_perm {A} (key : A → Z) x l : insert_reverse key x l ≡ₚ x :: l.
Proof.
  induction l as [|y rest IH]; [done|]. simpl.
  destruct (key y <=? key x); [done|]. rewrite IH. apply Permutation_swap.
Qed.

Lemma sorted_reverse_perm {A} (key : A → Z) l : sorted_reverse key l ≡ₚ l.
Proof.
  induction l as [|x rest IH]; [done|]. simpl.
  rewrite insert_reverse_perm. by f_equiv.
Qed.

Lemma insert_reverse_sorted {A} (key : A → Z) x l :
  StronglySorted (fun a b => key b <= key a) l →
  StronglySorted (fun a b => key b <= key a) (insert_reverse key x l).
Proof.
  induction 1 as [|y rest Hs IH Hall]; simpl.
  - by repeat constructor.
  - destruct (Z.leb_spec (key y) (key x)).
    + constructor; [by constructor|]. constructor; [done|].
      eapply Forall_impl; [done|]. simpl. lia.
    + constructor; [done|]. rewrite insert_reverse_perm. constructor; [lia|done].
Qed.

Lemma sorted_reverse_sorted {A} (key : A → Z) l :
  StronglySorted (fun a b => key b <= key a) (sorted_reverse key l).
Proof.
  induction l as [|x rest IH]; simpl; [constructor|]. by apply insert_reverse_sorted.
Qed.

Lemma insert_reverse_filter {A} (key : A → Z) t x l :
  List.filter (fun a => key a =? t) (insert_reverse key x l)
  = List.filter (fun a => key a =? t) (x :: l).
Proof.
  induction l as [|y rest IH]; [done|]. simpl.
  destruct (Z.leb_spec (key y) (key x)); [done|]. simpl in *. rewrite IH.
  destruct (Z.eqb_spec (key x) t), (Z.eqb_spec (key y) t); try done. lia.
Qed.

Lemma sorted_reverse_filter {A} (key : A → Z) t l :
  List.filter (fun a => key a =? t) (sorted_reverse key l)
  = List.filter (fun a => key a =? t) l.
Proof.
  induction l as [|x rest IH]; [done|]. simpl sorted_reverse.
  rewrite insert_reverse_filter. simpl. by rewrite IH.
Qed.

Lemma slice_to_prefix {A} limit (l : list A) : slice_to limit l `prefix_of` l.
Proof. unfold slice_to. destruct (0 <=? limit); apply prefix_take. Qed.

Lemma slice_to_length {A} limit (l : list A) :
  length (slice_to limit l)
  = if 0 <=? limit then Nat.min (Z.to_nat limit) (length l)
    else (length l - Z.to_nat (- limit))%nat.
Proof.
  unfold slice_to. destruct (0 <=? limit); rewrite length_take; lia.
Qed.

Lemma filter_prefix {A} (f : A → bool) (l1 l2 : list A) :
  l1 `prefix_of` l2 → List.filter f l1 `prefix_of` List.filter f l2.
Proof. intros [tail ->]. rewrite List.filter_app. by eexists. Qed.

(** X18.  get_execution_history reports the history sorted by start time,
    newest first, and cut after the limit: the reported executions followed
    by the ones left out are a permutation of the history that is sorted
    newest first, so no execution left out started later than a reported
    one; and reported executions with the same start time come in the order
    in which they were run.  The two classes have the same function. *)
Theorem history_newest_first limit w :
  ∃ recent older,
    PipelineOrchestrator.get_execution_history limit w = asdict <$> recent ∧
    recent ++ older ≡ₚ execution_history w ∧
    StronglySorted newer_first (recent ++ older) ∧
    (∀ t, List.filter (started_at t) recent
          `prefix_of` List.filter (started_at t) (execution_history w)) ∧
    SimplePipelineOrchestrator.get_execution_history limit w
    = PipelineOrchestrator.get_execution_history limit w.
Proof.
  set (sorted := sorted_reverse PipelineExecution.start_time (execution_history w)).
  destruct (slice_to_prefix (default 10 limit) sorted) as [older Hsplit].
  exists (slice_to (default 10 limit) sorted), older. split_and!.
  - done.
  - rewrite <- Hsplit. apply sorted_reverse_perm.
  - rewrite <- Hsplit. apply sorted_reverse_sorted.
  - intros t. unfold started_at.
    rewrite <- (sorted_reverse_filter PipelineExecution.start_time t (execution_history w)).
    apply filter_prefix, slice_to_prefix.
  - done.
Qed.

(** X19.  The length of the history report: for a limit >= 0 (10 when the
    argument is left out) it is the smaller of the limit and the length of
    the history; a negative limit does not raise, it leaves out that many
    of the oldest executions. *)
Theorem history_limit limit w :
  length (PipelineOrchestrator.get_execution_history limit w)
  = if 0 <=? default 10 limit
    then Nat.min (Z.to_nat (default 10 limit)) (length (execution_history w))
    else (length (execution_history w) - Z.to_nat (- default 10 limit)%Z)%nat.
Proof.
  unfold PipelineOrchestrator.get_execution_history.
  rewrite length_fmap, slice_to_length.
  by rewrite (Permutation_length (sorted_reverse_perm _ _)).
Qed.
End History.

Section Health.
Variable config : Config.

Abbreviation health := (PipelineOrchestrator.get_component_health config).
Abbreviation simple_health := (SimplePipelineOrchestrator.get_component_health config).
Abbreviation probe_url component_config :=
  (base_url component_config +:+ health_endpoint component_config).
Abbreviation entry_of session_get component_name component_config enabled :=
  (if negb enabled then health_disabled
   else health_probe session_get component_name component_config).

Lemma health_of_healthy outcome :
  health_of outcome !! "healthy" = Some (FBool true) ↔
  ∃ elapsed_ms body,
    outcome = GetResponse 200 elapsed_ms body ∧ (body = None ∨ ∃ details, body = Some (inr details)).
Proof.
  split.
  - destruct outcome as [e|status_code elapsed_ms body]; simpl; [done|].
    destruct (Z.eqb_spec status_code 200) as [->|Hne]; [|done].
    destruct body as [[e|details]|]; try done; intros _; eexists _, _; split; eauto.
  - intros (elapsed_ms & body & -> & [->|[details ->]]); done.
Qed.

Lemma entry_of_health_entry session_get name cc enabled :
  health_entry session_get name cc enabled (entry_of session_get name cc enabled).
Proof.
  unfold health_entry, health_probe. destruct enabled; simpl.
  - split_and!.
    + destruct (session_get name (probe_url cc)) as [e|status_code elapsed_ms body];
        simpl; [by eexists|].
      destruct (status_code =? 200); [|by eexists].
      destruct body as [[e|details]|]; by eexists.
    + destruct (session_get name (probe_url cc)) as [e|status_code elapsed_ms body];
        simpl; [by right|].
      destruct (status_code =? 200); [|by right].
      destruct body as [[e|details]|]; first [by left|by right].
    + rewrite health_of_healthy. naive_solver.
  - split_and!; [by eexists|by right|]. split; [done|by intros [? _]].
Qed.

(** The loop over components that all have the key [enabled]. *)
Lemma health_loop_ok session_get items :
  ∀ health_status,
    NoDup items.*1 →
    Forall (fun item => is_Some (component_enabled item.2)) items →
    ∃ report,
      PipelineOrchestrator.health_loop session_get items health_status = Ok report ∧
      ∀ name,
        report !! name =
        match (list_to_map items : gmap string ComponentConfig) !! name with
        | Some cc => Some (entry_of session_get name cc (default true (component_enabled cc)))
        | None => health_status !! name
        end.
Proof.
  induction items as [|[k cc] rest IH]; intros acc Hnd Hall.
  - exists acc. by split.
  - rewrite fmap_cons in Hnd. apply NoDup_cons in Hnd as [Hk Hnd].
    apply Forall_cons in Hall as [[b Hb] Hall]. cbn [fst snd] in Hk, Hb.
    cbn [PipelineOrchestrator.health_loop]. rewrite Hb.
    destruct (IH (<[k := entry_of session_get k cc b]> acc) Hnd Hall) as (report & Hr & Hl).
    exists report. split; [done|]. intros name. rewrite Hl.
    change (list_to_map ((k, cc) :: rest) : gmap string ComponentConfig)
      with (<[k := cc]> (list_to_map rest : gmap string ComponentConfig)).
    destruct (decide (k = name)) as [->|Hne].
    + rewrite (not_elem_of_list_to_map_1 rest name) by done.
      rewrite !lookup_insert_eq. by rewrite Hb.
    + by rewrite !lookup_insert_ne by done.
Qed.

(** A component without the key ends the loop. *)
Lemma health_loop_raises session_get items :
  ∀ health_status,
    Exists (fun item => component_enabled item.2 = None) items →
    PipelineOrchestrator.health_loop session_get items health_status
    = Raise (KeyError "enabled").
Proof.
  induction items as [|[k cc] rest IH]; intros acc Hex; [by inversion Hex|].
  simpl. destruct (component_enabled cc) as [b|] eqn:Hb; [|done].
  apply IH. apply Exists_cons in Hex as [Hex|Hex]; [|done]. simpl in Hex. congruence.
Qed.

Lemma health_ok session_get :
  (∀ name cc, components config !! name = Some cc → is_Some (component_enabled cc)) →
  ∃ report,
    health session_get = Ok report ∧
    ∀ name, report !! name =
            (fun cc => entry_of session_get name cc (default true (component_enabled cc)))
              <$> components config !! name.
Proof.
  intros Hall. unfold PipelineOrchestrator.get_component_health.
  destruct (health_loop_ok session_get (map_to_list (components config)) ∅)
    as (report & Hr & Hl).
  - apply NoDup_fst_map_to_list.
  - apply Forall_forall. intros [k cc] Hin. apply elem_of_map_to_list in Hin. by eapply Hall.
  - exists report. split; [done|]. intros name. rewrite Hl, list_to_map_to_list.
    by destruct (components config !! name).
Qed.

Lemma health_raises session_get name cc :
  components config !! name = Some cc → component_enabled cc = None →
  health session_get = Raise (KeyError "enabled").
Proof.
  intros Hcc Hen. apply health_loop_raises. apply Exists_exists.
  exists (name, cc). split; [by apply elem_of_map_to_list|done].
Qed.

Lemma simple_health_lookup session_get name :
  simple_health session_get !! name =
  (fun cc => entry_of session_get name cc (default true (component_enabled cc)))
    <$> components config !! name.
Proof.
  unfold SimplePipelineOrchestrator.get_component_health. rewrite map_lookup_imap.
  by destruct (components config !! name).
Qed.

(** X20.  The health check.  The asynchronous class indexes the key
    [enabled] of a component: when a component has no such key the check
    raises the KeyError of that key; when every component has it the check
    returns a report, and the synchronous class returns the same one.  The
    synchronous class reads the key with the default True: it always returns
    a report, and a component without the key counts as enabled.  A report
    has one entry for each configured component, with a status and a
    boolean healthy, which is true exactly when the component is enabled and
    its probe answered with the status 200 and a body that is empty or
    decodes. *)
Theorem health_report session_get :
  (∀ component_name component_config,
     components config !! component_name = Some component_config →
     component_enabled component_config = None →
     health session_get = Raise (KeyError "enabled")) ∧
  ((∀ component_name component_config,
      components config !! component_name = Some component_config →
      is_Some (component_enabled component_config)) →
   ∃ report,
     health session_get = Ok report ∧
     simple_health session_get = report ∧
     dom report = dom (components config) ∧
     ∀ component_name component_config enabled,
       components config !! component_name = Some component_config →
       component_enabled component_config = Some enabled →
       ∃ entry, report !! component_name = Some entry ∧
                health_entry session_get component_name component_config enabled entry) ∧
  dom (simple_health session_get) = dom (components config) ∧
  (∀ component_name component_config,
     components config !! component_name = Some component_config →
     ∃ entry,
       simple_health session_get !! component_name = Some entry ∧
       health_entry session_get component_name component_config
         (default true (component_enabled component_config)) entry).
Proof.
  split_and!.
  - intros name cc. apply health_raises.
  - intros Hall. destruct (health_ok session_get Hall) as (report & Hr & Hl).
    exists report. split_and!; [done| | |].
    + apply map_eq. intros name. by rewrite Hl, simple_health_lookup.
    + apply set_eq. intros name. rewrite !elem_of_dom, Hl. by rewrite fmap_is_Some.
    + intros name cc b Hcc Hb. rewrite Hl, Hcc. simpl. rewrite Hb. simpl.
      eexists. split; [done|]. apply entry_of_health_entry.
  - apply set_eq. intros name. rewrite !elem_of_dom, simple_health_lookup.
    by rewrite fmap_is_Some.
  - intros name cc Hcc. rewrite simple_health_lookup, Hcc. simpl.
    eexists. split; [done|]. apply entry_of_health_entry.
Qed.

(** X21.  The health report of the asynchronous class does not depend on
    the endpoint of a disabled component: two environments whose probes of
    the enabled components answer the same give the same result, and in a
    report the entry of a disabled component is the fixed one (status
    disabled, not healthy). *)
Theorem disabled_components_are_not_probed session_get session_get' :
  (∀ component_name component_config,
     components config !! component_name = Some component_config →
     component_enabled component_config = Some true →
     session_get component_name (probe_url component_config)
     = session_get' component_name (probe_url component_config)) →
  health session_get = health session_get' ∧
  (∀ report component_name component_config,
     health session_get = Ok report →
     components config !! component_name = Some component_config →
     component_enabled component_config = Some false →
     report !! component_name = Some health_disabled).
Proof.
  intros Hsame.
  destruct (decide (map_Forall (fun _ cc => is_Some (component_enabled cc))
                      (components config))) as [Hall|Hnot].
  - destruct (health_ok session_get Hall) as (report & Hr & Hl).
    destruct (health_ok session_get' Hall) as (report' & Hr' & Hl').
    split.
    + rewrite Hr, Hr'. f_equal. apply map_eq. intros name. rewrite Hl, Hl'.
      destruct (components config !! name) as [cc|] eqn:Hcc; [|done]. simpl. f_equal.
      destruct (component_enabled cc) as [[|]|] eqn:Hen; simpl; try done.
      * unfold health_probe. by rewrite (Hsame name cc).
      * destruct (Hall name cc Hcc) as [b Hb]. congruence.
    + intros report0 name cc Hr0 Hcc Hen. rewrite Hr in Hr0. simplify_eq.
      rewrite Hl, Hcc. simpl. by rewrite Hen.
  - apply map_not_Forall in Hnot as (name & cc & Hcc & Hen); [|apply _].
    assert (component_enabled cc = None) as Hnone.
    { destruct (component_enabled cc); [|done]. destruct Hen. by eexists. }
    split.
    + by rewrite !(health_raises _ name cc).
    + intros report0 name0 cc0 Hr0. by rewrite (health_raises _ name cc) in Hr0.
Qed.
End Health.

(** ** The success rate, and the lookup of a step *)

Section Metrics.

Lemma round_half_even_bounds (num : Z) (den : positive) (bound : Z) :
  0 <= num <= bound * Z.pos den →
  0 <= round_half_even (num # den) <= bound ∧
  (num = bound * Z.pos den → round_half_even (num # den) = bound) ∧
  (num = 0 → round_half_even (num # den) = 0).
Proof.
  intros Hnum. unfold round_half_even. simpl.
  pose proof (Z.div_mod num (Z.pos den) ltac:(lia)) as Hdm.
  pose proof (Z.mod_pos_bound num (Z.pos den) ltac:(lia)) as Hmod.
  set (f := num / Z.pos den) in *. set (r := num mod Z.pos den) in *.
  assert (0 <= f <= bound) as Hf by nia.
  assert (f = bound → r = 0) as Hr by nia.
  split; [|split].
  - destruct (Z.ltb_spec (2 * r) (Z.pos den)); [lia|].
    assert (f < bound) by (destruct (decide (f = bound)); [lia|lia]).
    destruct (Z.ltb_spec (Z.pos den) (2 * r)); [lia|]. destruct (Z.even f); lia.
  - intros Heq.
    assert (f = bound) as Hf' by (unfold f; rewrite Heq; apply Z.div_mul; lia).
    assert (r = 0) as Hr' by (unfold r; rewrite Heq; apply Z.mod_mul; lia).
    destruct (Z.ltb_spec (2 * r) (Z.pos den)); [done|lia].
  - intros Heq.
    assert (f = 0) as Hf' by (unfold f; rewrite Heq; apply Z.div_0_l; lia).
    assert (r = 0) as Hr' by (unfold r; rewrite Heq; apply Z.mod_0_l; lia).
    destruct (Z.ltb_spec (2 * r) (Z.pos den)); [done|lia].
Qed.

Lemma round2_percent (s : Z) (p : positive) :
  0 <= s <= Z.pos p →
  ∃ rate,
    round2 (inject_Z s / inject_Z (Z.pos p) * 100) = rate # 100 ∧
    0 <= rate <= 10000 ∧ (s = Z.pos p → rate = 10000) ∧ (s = 0 → rate = 0).
Proof.
  intros Hs. unfold round2. eexists. split; [reflexivity|].
  unfold Qdiv, Qinv, Qmult, inject_Z. simpl Qnum. simpl Qden.
  rewrite !Pos.mul_1_r.
  destruct (round_half_even_bounds (s * 1 * 100 * 100) p 10000 ltac:(lia)) as (? & H1 & H0).
  split; [done|]. split; intros ->; [apply H1|apply H0]; lia.
Qed.

Lemma filter_length_le {A} (f : A → bool) (l : list A) :
  (length (List.filter f l) <= length l)%nat.
Proof. induction l as [|x l IH]; simpl; [lia|]. destruct (f x); simpl; lia. Qed.

Lemma filter_all {A} (f : A → bool) (l : list A) :
  Forall (fun x => f x = true) l → List.filter f l = l.
Proof. induction 1 as [|x l Hx _ IH]; simpl; [done|]. by rewrite Hx, IH. Qed.

Lemma filter_none {A} (f : A → bool) (l : list A) :
  Forall (fun x => f x = false) l → List.filter f l = [].
Proof. induction 1 as [|x l Hx _ IH]; simpl; [done|]. by rewrite Hx, IH. Qed.

(** X22.  With a non-empty history the reported success_rate_percent is a
    number of hundredths between 0 and 100; it is 100 when every execution
    of the history is COMPLETED and 0 when none is; the reported
    last_execution is the start time of the execution appended last.  The
    two classes have the same function. *)
Theorem success_rate_bounds w :
  execution_history w ≠ [] →
  ∃ rate last_execution,
    PipelineOrchestrator.get_pipeline_metrics w !! "success_rate_percent"
      = Some (MFloat (rate # 100)) ∧
    0 <= rate <= 10000 ∧
    (Forall (fun e => PipelineExecution.status e = COMPLETED) (execution_history w) →
     rate = 10000) ∧
    (Forall (fun e => PipelineExecution.status e ≠ COMPLETED) (execution_history w) →
     rate = 0) ∧
    last (execution_history w) = Some last_execution ∧
    PipelineOrchestrator.get_pipeline_metrics w !! "last_execution"
      = Some (MTime (PipelineExecution.start_time last_execution)) ∧
    SimplePipelineOrchestrator.get_pipeline_metrics w
      = PipelineOrchestrator.get_pipeline_metrics w.
Proof.
  intros Hne. unfold PipelineOrchestrator.get_pipeline_metrics.
  destruct (last (execution_history w)) as [last_execution|] eqn:Hlast;
    [|by apply last_None in Hlast].
  set (successful := List.filter _ (execution_history w)).
  assert (length successful <= length (execution_history w))%nat as Hle
    by apply filter_length_le.
  destruct (Z.of_nat (length (execution_history w))) as [|p|p] eqn:Hn;
    [destruct (execution_history w); [done|simpl in Hn; lia]| |lia].
  destruct (round2_percent (Z.of_nat (length successful)) p ltac:(lia))
    as (rate & Hrate & Hbounds & Hall & Hnone).
  exists rate, last_execution. cbn [list_to_map foldr curry uncurry fst snd].
  split_and!; try lia.
  - do 3 (rewrite lookup_insert_ne by done). rewrite lookup_insert_eq.
    by rewrite Hrate.
  - intros Hf. apply Hall. unfold successful. rewrite filter_all; [lia|].
    eapply Forall_impl; [done|]. intros e He. by apply bool_decide_eq_true_2.
  - intros Hf. apply Hnone. unfold successful. rewrite filter_none; [done|].
    eapply Forall_impl; [done|]. intros e He. by apply bool_decide_eq_false_2.
  - done.
  - do 5 (rewrite lookup_insert_ne by done). by rewrite lookup_insert_eq.
  - unfold SimplePipelineOrchestrator.get_pipeline_metrics.
    fold successful. by rewrite Hlast, Hn.
Qed.
End Metrics.

Section Lookup.
Variable config : Config.

(** X23.  The lookup of a step configuration returns the first step of the
    configured list that has the name; the asynchronous class raises
    ValueError (Step configuration not found: <name>) exactly when the
    synchronous class returns None, which is when no step has the name. *)
Theorem step_lookup_first_match step_name w :
  (∀ step_config,
     SimplePipelineOrchestrator._get_step_config config step_name = Some step_config ↔
     PipelineOrchestrator._get_step_config config step_name w = (Ok step_config, w)) ∧
  (SimplePipelineOrchestrator._get_step_config config step_name = None ↔
   PipelineOrchestrator._get_step_config config step_name w
   = (Raise (ValueError ("Step configuration not found: " +:+ step_name)), w)) ∧
  (∀ step_config,
     SimplePipelineOrchestrator._get_step_config config step_name = Some step_config →
     sc_name step_config = step_name ∧
     ∃ before after,
       sequence_steps config = before ++ step_config :: after ∧
       Forall (fun step => sc_name step ≠ step_name) before) ∧
  (SimplePipelineOrchestrator._get_step_config config step_name = None ↔
   Forall (fun step => sc_name step ≠ step_name) (sequence_steps config)).
Proof.
  unfold SimplePipelineOrchestrator._get_step_config,
    PipelineOrchestrator._get_step_config.
  split_and!.
  - intros sc. destruct (find_step config step_name); unfold ret, raise; naive_solver.
  - destruct (find_step config step_name); unfold ret, raise; naive_solver.
  - intros sc. induction (sequence_steps config) as [|step rest IH]; [done|]. simpl.
    destruct (String.eqb_spec (sc_name step) step_name) as [Heq|Hne].
    + intros [= <-]. split; [done|]. by exists [], rest.
    + intros Hfind. destruct (IH Hfind) as (Hname & before & after & -> & Hall).
      split; [done|]. exists (step :: before), after. split; [done|]. by constructor.
  - induction (sequence_steps config) as [|step rest IH]; [done|]. simpl.
    destruct (String.eqb_spec (sc_name step) step_name) as [Heq|Hne].
    + split; [done|]. by intros [? _]%Forall_cons.
    + rewrite IH, Forall_cons. naive_solver.
Qed.
End Lookup.

(** ** The built-in configuration, and a run against an open breaker *)

Section Defaults.
Variable session_post : nat → HttpOutcome.

(** X24.  With the built-in configuration, which the synchronous class
    uses when the configuration file is missing or is not JSON, a COMPLETED
    execution has the records of summarize and respond in quick mode, of
    summarize alone in analysis mode, and of summarize, process_summary and
    respond in full mode: the names search_similar, coach_feedback and
    metrics of the routing table have no step configuration and are
    skipped.  A FAILED execution has the one record of summarize. *)
Theorem default_config_runs_configured_steps file unread input_data mode execution_id w ex w' :
  file = NotFound ∨ file = NotJSON →
  SimplePipelineOrchestrator.execute_pipeline
    (SimplePipelineOrchestrator._load_config file unread) session_post
    input_data mode execution_id w = (Ok ex, w') →
  (PipelineStep.name <$> PipelineExecution.steps ex) `prefix_of` default_steps_of mode ∧
  (PipelineExecution.status ex = COMPLETED →
   PipelineStep.name <$> PipelineExecution.steps ex = default_steps_of mode) ∧
  (PipelineExecution.status ex = FAILED →
   PipelineStep.name <$> PipelineExecution.steps ex = ["summarize"]).
Proof.
  intros Hfile Hrun.
  assert (SimplePipelineOrchestrator._load_config file unread
          = SimplePipelineOrchestrator._get_default_config unread) as Hconfig
    by (by destruct Hfile as [-> | ->]).
  rewrite Hconfig in Hrun.
  set (config := SimplePipelineOrchestrator._get_default_config unread) in *.
  assert (List.filter (simple_step_enabled config)
            (SimplePipelineOrchestrator._get_step_sequence config mode)
          = default_steps_of mode) as Hseq by (by destruct mode).
  unfold SimplePipelineOrchestrator.execute_pipeline in Hrun.
  destruct (SimplePipelineOrchestrator.execute_pipeline_locals config session_post
              input_data mode execution_id w) as [r [w1 l1]] eqn:Hloc.
  simplify_eq.
  apply simple_execute_pipeline_records in Hloc as (_ & Hpre & _ & Hcases).
  rewrite Hseq in *. split_and!.
  - done.
  - intros Hst. destruct Hcases as [(_ & _ & Hnames & _)|[Hf _]]; [done|congruence].
  - intros Hst.
    destruct Hcases as [(Hc & _)|(_ & e & step & _ & _ & Hlast & Hname & _)]; [congruence|].
    destruct Hpre as [tail Htail].
    assert (∃ names, PipelineStep.name <$> PipelineExecution.steps ex = names ++ ["summarize"])
      as [names Hnames].
    { destruct (PipelineExecution.steps ex) as [|s0 rest0] using rev_ind; [done|].
      rewrite last_snoc in Hlast. simplify_eq. rewrite fmap_app. simpl.
      rewrite Hname. by eexists. }
    rewrite Hnames in *. destruct mode; simpl in Htail.
    all: destruct names as [|n1 [|n2 [|n3 names]]]; simplify_eq/=; try done.
    all: by destruct names.
Qed.
End Defaults.

Section FailFast.
Variable config : Config.
Variable session_post : nat → HttpOutcome.
Variable log_file : nat → LogOutcome.

(** X25.  An open breaker fails the run at once.  When the breaker is
    enabled and the first name of the resolved sequence is an enabled
    critical step without fallback, whose component has an open breaker
    with a last failure no older than recovery_timeout, the record of the
    run is FAILED and has the one record of that step, which is FAILED with
    the error "Circuit breaker open for component <component>"; the error
    of the execution is "Critical step <name> failed: " followed by that
    error.  The call gives this record back, unless the log directory could
    not be created; the record is the last of the history either way.  No
    post is made and nothing is slept: the write of the log, when it
    succeeds, is the only new event; and the breakers are as they were. *)
Theorem open_breaker_fails_fast input_data mode execution_id w
    step_name rest step_config b :
  PipelineOrchestrator._get_step_sequence config mode = step_name :: rest →
  find_step config step_name = Some step_config →
  sc_enabled step_config = Some true →
  critical config step_name →
  fallback config step_name = None →
  cb_enabled (circuit_breaker (error_handling config)) = true →
  circuit_breakers w !! sc_component step_config = Some b →
  state b = open →
  (∃ t, last_failure b = Some t ∧
        clock w - t <= recovery_timeout (circuit_breaker (error_handling config))) →
  let run := PipelineOrchestrator.execute_pipeline config session_post log_file
               input_data mode execution_id w in
  let outcome := log_file (S (length (execution_history w))) in
  ∃ ex step,
    fst run = match outcome with
              | MkdirRaises e => Raise e
              | DumpRaises _ | Saved => Ok ex
              end ∧
    execution_history (snd run) = execution_history w ++ [ex] ∧
    PipelineExecution.status ex = FAILED ∧
    PipelineExecution.error ex =
      Some ("Critical step " +:+ step_name +:+ " failed: Circuit breaker open for component "
            +:+ sc_component step_config) ∧
    PipelineExecution.steps ex = [step] ∧
    PipelineStep.name step = step_name ∧
    PipelineStep.status step = FAILED ∧
    PipelineStep.error step
      = Some ("Circuit breaker open for component " +:+ sc_component step_config) ∧
    trace (snd run)
    = match outcome with
      | Saved => [EvSaveLog (PipelineExecution.execution_id ex)]
      | MkdirRaises _ | DumpRaises _ => []
      end ++ trace w ∧
    circuit_breakers (snd run) = circuit_breakers w.
Proof.
  intros Hseq Hfind Hen Hcrit Hfb Hcb Hb Hopen (t & Hlast & Hrecent) run outcome.
  assert (∀ data,
            PipelineOrchestrator._execute_step_with_retry config session_post
              step_config data w
            = (Raise (Exception ("Circuit breaker open for component " +:+
                                 sc_component step_config)), w)) as Hblocked.
  { intros data. rewrite with_retry_eq.
    rewrite (consult_blocks config _ w b); try done. right. by rewrite Hlast. }
  destruct run as [r w'] eqn:Hrun. subst run.
  apply execute_pipeline_any in Hrun as [l' Hrun].
  apply execute_pipeline_locals_outcome in Hrun
    as (rb & wb & l1 & ex & Hruns & -> & _ & -> & _ & _ & ->).
  rewrite Hseq in Hruns.
  assert (rb = Ok tt ∧ wb = w ∧
          l1 = {| execution :=
                    with_error
                      (critical_failure_message step_name
                         (Exception ("Circuit breaker open for component " +:+
                                     sc_component step_config)))
                      (with_status FAILED
                         (append_step
                            (step_failed
                               ("Circuit breaker open for component " +:+
                                sc_component step_config) (clock w)
                               (new_step step_name (sc_component step_config) (clock w)
                                  input_data))
                            (PipelineOrchestrator.new_execution mode execution_id (clock w))));
                  current_data := input_data |}) as (-> & -> & ->).
  { inversion Hruns as [|? ? ? ? ? ? ? ? ? Hout|? ? ? ? ? ? Hout|? ? ? ? ? ? ? Hout]; subst;
      inversion Hout; subst; simplify_eq;
      try match goal with
          | H : PipelineOrchestrator._execute_step_with_retry _ _ _ _ _ = _ |- _ =>
              rewrite Hblocked in H; simplify_eq
          end; try done.
    all: try match goal with H : _ ∨ _ |- _ => clear H end.
    all: try (by destruct (fallback config step_name)). }
  unfold conclude. rewrite bool_decide_eq_false_2 by (by intros ?).
  unfold critical_failure_message. cbn [fst snd].
  rewrite log_written_history, log_written_trace, log_written_breakers.
  eexists _, _. split_and!; try done.
Qed.
End FailFast.

(** * The properties on concrete runs *)

(** C1 does not hold as stated: with [retry_count = 1] and the message text
    missing from the context, the executor logs two failed attempts and
    sleeps once before it raises the validation error; it makes no post. *)
Lemma missing_field_is_retried :
  let config := demo_config None true true in
  let run := PipelineOrchestrator._execute_step_with_retry config always_ok
               demo_summarize demo_partial_input (PipelineOrchestrator.init config 100) in
  PipelineOrchestrator.missing_fields demo_summarize demo_partial_input = ["message_text"] ∧
  fst run = Raise (ValueError "Missing required fields: ['message_text']") ∧
  http_calls (snd run) = 0%nat ∧
  failed_attempts (snd run) = 2%nat ∧
  sleep_count (snd run) = 1%nat ∧
  clock (snd run) = 101.
Proof. vm_compute. repeat split; reflexivity. Qed.

(** The amended C1 on that run. *)
Lemma missing_field_fails_without_post_witness :
  let config := demo_config None true true in
  let run := PipelineOrchestrator._execute_step_with_retry config always_ok
               demo_summarize demo_partial_input (PipelineOrchestrator.init config 100) in
  (∃ e, fst run = Raise e) ∧ http_calls (snd run) = 0%nat.
Proof.
  intros config run.
  destruct (missing_field_fails_without_post config always_ok demo_summarize
              demo_partial_input (PipelineOrchestrator.init config 100) (fst run) (snd run))
    as (He & Hc & _).
  - vm_compute. discriminate.
  - apply surjective_pairing.
  - split; [exact He | exact Hc].
Defined.

(** C4 on a run in which both attempts of the step fail: two posts, one
    failure recorded. *)
Lemma retry_budget_witness :
  let config := demo_config None true true in
  let w := PipelineOrchestrator.init config 100 in
  let run := PipelineOrchestrator._execute_step_with_retry config always_failing
               demo_summarize demo_input w in
  (http_calls (snd run) <= http_calls w + Z.to_nat (1 + 1))%nat ∧
  ∃ b', circuit_breakers (snd run) !! "seeya" = Some b' ∧ failures b' = 0 + 1.
Proof.
  intros config w run.
  destruct (retry_budget config always_failing demo_summarize demo_input 1 w
              (fst run) (snd run) PipelineOrchestrator.initial_breaker)
    as (Hc & _ & Hb).
  - reflexivity.
  - lia.
  - vm_compute. reflexivity.
  - apply surjective_pairing.
  - split; [exact Hc|].
    apply (Hb (RequestException "connection refused")); vm_compute; reflexivity.
Defined.

(** C2 on a run in which the first critical step fails and no fallback is
    configured. *)
Lemma critical_failure_aborts_witness :
  let config := demo_config None true true in
  let run := PipelineOrchestrator.execute_pipeline config always_failing log_saved demo_input QUICK
               (Some "run-1") (PipelineOrchestrator.init config 100) in
  ∃ ex step,
    fst run = Ok ex ∧ PipelineExecution.steps ex = [step] ∧
    PipelineStep.name step = "summarize" ∧
    PipelineExecution.status ex = FAILED ∧
    PipelineExecution.error ex = Some "Critical step summarize failed: connection refused".
Proof.
  intros config run.
  destruct run as [r w'] eqn:Hrun.
  assert (∃ ex step, r = Ok ex ∧ PipelineExecution.steps ex = [step] ∧
                     PipelineStep.name step = "summarize" ∧
                     PipelineStep.status step = FAILED ∧
                     PipelineStep.error step = Some "connection refused")
    as (ex & step & -> & Hsteps & Hname & Hst & Herr).
  { apply (f_equal fst) in Hrun. simpl in Hrun. subst r.
    vm_compute. eexists _, _. repeat split. }
  destruct (critical_failure_aborts config always_failing log_saved demo_input QUICK
              (Some "run-1") (PipelineOrchestrator.init config 100) ex w' step)
    as (Hfailed & (msg & Hmsg & Herror) & _).
  - exact Hrun.
  - rewrite Hsteps. apply list_elem_of_here.
  - exact Hst.
  - rewrite Hname. apply list_elem_of_here.
  - rewrite Hname. vm_compute. reflexivity.
  - exists ex, step. simpl. repeat split; try assumption.
    rewrite Herror, Hname. rewrite Herr in Hmsg. injection Hmsg as <-. reflexivity.
Defined.

(** C5 where [logs] is a regular file of the working directory: the run
    completes, its record is appended to the history, and the call raises
    the error of [mkdir] instead of returning the record. *)
Lemma execute_pipeline_raises_what_mkdir_raises_witness :
  let config := demo_config None true true in
  let w := PipelineOrchestrator.init config 100 in
  let run := PipelineOrchestrator.execute_pipeline config always_ok logs_is_a_file
               demo_input QUICK (Some "run-1") w in
  fst run = Raise (OSError "[Errno 17] File exists: 'logs'") ∧
  ∃ ex, execution_history (snd run) = [ex] ∧
        (PipelineExecution.status ex = COMPLETED ∨ PipelineExecution.status ex = FAILED).
Proof.
  intros config w run.
  destruct (execute_pipeline_raises_what_mkdir_raises config always_ok logs_is_a_file
              demo_input QUICK (Some "run-1") w)
    as (ex & w' & ended & Hrun & _ & _ & _ & Hh & _ & Hst & _).
  fold run in Hrun. rewrite Hrun. split; [reflexivity|].
  exists ex. split; [exact Hh|exact Hst].
Defined.

(** The breaker disabled in the configuration: a component whose breaker
    has just been opened is consulted one second after its last failure,
    well before the recovery timeout of 60; the consultation does not block
    and the post is made. *)
Lemma disabled_breaker_never_blocks :
  let config := demo_config None false true in
  let w1 := record_failures_at config "seeya" [100; 130]
              (PipelineOrchestrator.init config 100) in
  let run := PipelineOrchestrator._execute_step_with_retry config always_ok
               demo_summarize demo_input (set_clock 131 w1) in
  circuit_breakers w1 !! "seeya"
    = Some {| failures := 2; last_failure := Some 130; state := open |} ∧
  fst (PipelineOrchestrator._is_circuit_open config "seeya" (set_clock 131 w1)) = Ok false ∧
  fst run = Ok {[ "summary" := AStr "a summary" ]} ∧
  http_calls (snd run) = 1%nat.
Proof. vm_compute. repeat split; reflexivity. Qed.

(** C3 with the breaker enabled: open after two failures, and a call one
    second later is refused with the world untouched. *)
Lemma breaker_opens_blocks_recovers_witness :
  let config := demo_config None true true in
  let w1 := record_failures_at config "seeya" [100; 130]
              (PipelineOrchestrator.init config 100) in
  (∃ b1, circuit_breakers w1 !! "seeya" = Some b1 ∧ state b1 = open ∧
         last_failure b1 = Some 130) ∧
  PipelineOrchestrator._execute_step_with_retry config always_ok demo_summarize demo_input
    (set_clock 131 w1)
  = (Raise (Exception ("Circuit breaker open for component " +:+ "seeya")), set_clock 131 w1).
Proof.
  intros config w1.
  destruct (breaker_opens_blocks_recovers config always_ok "seeya"
              PipelineOrchestrator.initial_breaker (PipelineOrchestrator.init config 100)
              [100; 130] 130 demo_summarize demo_input)
    as (Hopen & Hblock & _).
  - reflexivity.
  - vm_compute. discriminate.
  - reflexivity.
  - reflexivity.
  - discriminate.
  - vm_compute. reflexivity.
  - simpl. lia.
  - reflexivity.
  - split; [exact Hopen|]. apply Hblock. vm_compute. reflexivity.
Defined.

(** C6 does not hold as stated: the critical step summarize fails (both
    attempts), its fallback payload is merged, respond then succeeds; the
    execution is COMPLETED and the record of summarize is FAILED. *)
Lemma fallback_step_stays_failed :
  let config := demo_config (Some demo_fallbacks) true true in
  let run := PipelineOrchestrator.execute_pipeline_locals config (failing_first 2) log_saved
               demo_input QUICK (Some "run-1") (PipelineOrchestrator.init config 100) in
  PipelineOrchestrator._get_step_sequence config QUICK = ["summarize"; "respond"] ∧
  default_flow (routing config) = ["summarize"; "respond"] ∧
  PipelineExecution.status <$> returned (fst run) = Some COMPLETED ∧
  (fmap PipelineStep.name ∘ PipelineExecution.steps) <$> returned (fst run)
    = Some ["summarize"; "respond"] ∧
  (fmap PipelineStep.status ∘ PipelineExecution.steps) <$> returned (fst run)
    = Some [FAILED; COMPLETED] ∧
  current_data (snd (snd run)) !! "summary" = Some (AStr "a summary").
Proof. vm_compute. repeat split; reflexivity. Qed.

(** The amended C6 on that run. *)
Lemma completed_execution_critical_steps_witness :
  let config := demo_config (Some demo_fallbacks) true true in
  let run := PipelineOrchestrator.execute_pipeline_locals config (failing_first 2) log_saved
               demo_input QUICK (Some "run-1") (PipelineOrchestrator.init config 100) in
  ∃ ex step fallback_data,
    fst run = Ok ex ∧ PipelineExecution.status ex = COMPLETED ∧
    step ∈ PipelineExecution.steps ex ∧ PipelineStep.name step = "summarize" ∧
    PipelineStep.status step = FAILED ∧
    PipelineOrchestrator._get_fallback_data config "summarize" = Some fallback_data ∧
    dom fallback_data ⊆ dom (current_data (snd (snd run))).
Proof.
  intros config run.
  destruct run as [r [w' l']] eqn:Hrun.
  assert (∃ ex, r = Ok ex ∧ PipelineExecution.status ex = COMPLETED ∧
                Forall (fun step => PipelineStep.name step = "summarize" →
                                    PipelineStep.status step = FAILED)
                       (PipelineExecution.steps ex))
    as (ex & -> & Hst & Hall).
  { apply (f_equal fst) in Hrun. simpl in Hrun. subst r.
    vm_compute. eexists. repeat split. repeat constructor; discriminate. }
  destruct (completed_execution_critical_steps config (failing_first 2) log_saved demo_input QUICK
              (Some "run-1") (PipelineOrchestrator.init config 100) ex w' l' Hrun Hst
              "summarize")
    as (step_config & Hfind & [Hdis | (step & Hin & Hname & Hcases)]).
  - apply list_elem_of_here.
  - apply list_elem_of_here.
  - vm_compute in Hfind. injection Hfind as <-. discriminate Hdis.
  - rewrite Forall_forall in Hall. specialize (Hall step Hin Hname).
    destruct Hcases as [Hc | (_ & fallback_data & Hfb & _ & Hdom)].
    + rewrite Hall in Hc. discriminate Hc.
    + exists ex, step, fallback_data. simpl. repeat split; assumption.
Defined.

(** Two failed runs, then time passes. *)
Lemma demo_open_world_reachable :
  reachable (demo_config None true true) always_failing log_saved demo_open_world.
Proof. apply reachable_tick, reachable_run, reachable_run, reachable_init. Defined.

(** C7 does not hold as stated: the breaker opened by the second failed run
    (last failure at clock 106) is still open at clock 500, with a recovery
    timeout of 60, because nothing consulted it in between. *)
Lemma open_breaker_outlives_timeout :
  let config := demo_config None true true in
  reachable config always_failing log_saved demo_open_world ∧
  circuit_breakers demo_open_world !! "seeya"
    = Some {| failures := 2; last_failure := Some 106; state := open |} ∧
  recovery_timeout (circuit_breaker (error_handling config)) = 60 ∧
  ¬ (clock demo_open_world - 106 < 60).
Proof.
  split; [apply demo_open_world_reachable|].
  vm_compute. repeat split; try reflexivity. discriminate.
Qed.

(** The amended C7 in that state: the next consultation moves the breaker
    to half-open and does not block. *)
Lemma open_breaker_invariant_witness :
  let config := demo_config None true true in
  ∃ w2,
    PipelineOrchestrator._is_circuit_open config "seeya" demo_open_world = (Ok false, w2) ∧
    circuit_breakers w2 !! "seeya"
      = Some {| failures := 2; last_failure := Some 106; state := half_open |}.
Proof.
  intros config.
  destruct (open_breaker_invariant config always_failing log_saved demo_open_world "seeya"
              {| failures := 2; last_failure := Some 106; state := open |})
    as [_ Hcycle].
  - apply demo_open_world_reachable.
  - vm_compute. reflexivity.
  - destruct (Hcycle eq_refl eq_refl 106 eq_refl) as (w2 & Hconsult & Hb & _).
    + discriminate.
    + vm_compute. reflexivity.
    + exists w2. split; [exact Hconsult | exact Hb].
Defined.

(** C8 does not hold as stated: with respond disabled, the step list of
    either orchestrator has the one record of summarize, and no SKIPPED
    record for respond. *)
Lemma disabled_step_is_not_recorded :
  let config := demo_config None true false in
  let run := PipelineOrchestrator.execute_pipeline config always_ok log_saved demo_input QUICK
               (Some "run-1") (PipelineOrchestrator.init config 100) in
  let run_sync := SimplePipelineOrchestrator.execute_pipeline config always_ok demo_input
                    QUICK (Some "run-1") (SimplePipelineOrchestrator.init 100) in
  PipelineOrchestrator._get_step_sequence config QUICK = ["summarize"; "respond"] ∧
  sc_enabled <$> find_step config "respond" = Some (Some false) ∧
  PipelineExecution.status <$> returned (fst run) = Some COMPLETED ∧
  (fmap PipelineStep.name ∘ PipelineExecution.steps) <$> returned (fst run)
    = Some ["summarize"] ∧
  (fmap PipelineStep.status ∘ PipelineExecution.steps) <$> returned (fst run)
    = Some [COMPLETED] ∧
  (fmap PipelineStep.name ∘ PipelineExecution.steps) <$> returned (fst run_sync)
    = Some ["summarize"] ∧
  (fmap PipelineStep.status ∘ PipelineExecution.steps) <$> returned (fst run_sync)
    = Some [COMPLETED].
Proof. vm_compute. repeat split; reflexivity. Qed.

(** C9 does not hold as stated: with every post failing, the asynchronous
    orchestrator stops at the first critical step and returns FAILED, the
    synchronous one goes through both steps with mock data and returns
    COMPLETED; the final contexts differ. *)
Lemma orchestrators_disagree_on_failure :
  let config := demo_config None true true in
  let run := PipelineOrchestrator.execute_pipeline_locals config always_failing log_saved demo_input
               QUICK (Some "run-1") (PipelineOrchestrator.init config 100) in
  let run_sync := SimplePipelineOrchestrator.execute_pipeline_locals config always_failing
                    demo_input QUICK (Some "run-1") (SimplePipelineOrchestrator.init 100) in
  PipelineExecution.status <$> returned (fst run) = Some FAILED ∧
  PipelineExecution.status <$> returned (fst run_sync) = Some COMPLETED ∧
  (fmap PipelineStep.status ∘ PipelineExecution.steps) <$> returned (fst run)
    = Some [FAILED] ∧
  (fmap PipelineStep.status ∘ PipelineExecution.steps) <$> returned (fst run_sync)
    = Some [FAILED; FAILED] ∧
  current_data (snd (snd run)) !! "summary" = None ∧
  current_data (snd (snd run_sync)) !! "summary"
    = Some (AStr "Mock summary: Can we meet tomorrow?...").
Proof. vm_compute. repeat split; reflexivity. Qed.

(** The amended C9 on a run in which every post succeeds. *)
Lemma orchestrators_agree_without_failures_witness :
  let config := demo_config None true true in
  let run := PipelineOrchestrator.execute_pipeline_locals config always_ok log_saved demo_input
               QUICK (Some "run-1") (PipelineOrchestrator.init config 100) in
  ∃ ex ex_sync ws' ls',
    fst run = Ok ex ∧
    SimplePipelineOrchestrator.execute_pipeline_locals config always_ok demo_input
      QUICK (Some "run-1") (SimplePipelineOrchestrator.init 7) = (Ok ex_sync, (ws', ls')) ∧
    PipelineExecution.status ex_sync = COMPLETED ∧
    step_view <$> PipelineExecution.steps ex_sync = step_view <$> PipelineExecution.steps ex ∧
    current_data ls' = current_data (snd (snd run)).
Proof.
  intros config run.
  destruct run as [r [w' l']] eqn:Hrun.
  assert (∃ ex, r = Ok ex ∧ PipelineExecution.status ex = COMPLETED ∧
                Forall (fun step => PipelineStep.status step = COMPLETED)
                       (PipelineExecution.steps ex))
    as (ex & -> & Hst & Hall).
  { apply (f_equal fst) in Hrun. simpl in Hrun. subst r.
    vm_compute. eexists. repeat split. repeat constructor. }
  destruct (orchestrators_agree_without_failures config always_ok log_saved demo_input QUICK
              (Some "run-1") (PipelineOrchestrator.init config 100)
              (SimplePipelineOrchestrator.init 7) ex w' l')
    as (ex_sync & ws' & ls' & Hsync & Hst' & Hview & Hdata & _).
  - apply reachable_init.
  - reflexivity.
  - exact Hrun.
  - exact Hst.
  - exact Hall.
  - exists ex, ex_sync, ws', ls'. simpl. repeat split; assumption.
Defined.

(** A step name without configuration is reported by the [except] clause
    of [execute_pipeline]; the record is finalized all the same, and counted
    as failed by the metrics. *)
Example unknown_step_is_reported :
  let config := demo_unrouted_config in
  let run := PipelineOrchestrator.execute_pipeline config always_ok log_saved demo_input QUICK
               (Some "run-1") (PipelineOrchestrator.init config 100) in
  fst (PipelineOrchestrator.pipeline_body config always_ok demo_input QUICK
         (PipelineOrchestrator.init config 100,
          {| execution := PipelineOrchestrator.new_execution QUICK (Some "run-1") 100;
             current_data := ∅ |}))
    = Raise (ValueError "Step configuration not found: metrics") ∧
  PipelineExecution.status <$> returned (fst run) = Some FAILED ∧
  PipelineExecution.error <$> returned (fst run)
    = Some (Some "Step configuration not found: metrics") ∧
  (fmap PipelineStep.status ∘ PipelineExecution.steps) <$> returned (fst run)
    = Some [COMPLETED] ∧
  PipelineExecution.end_time <$> returned (fst run) = Some (Some 101) ∧
  PipelineExecution.total_duration_ms <$> returned (fst run) = Some (Some 1000) ∧
  PipelineOrchestrator.get_pipeline_metrics (snd run) !! "total_executions"
    = Some (MInt 1) ∧
  PipelineOrchestrator.get_pipeline_metrics (snd run) !! "failed_executions"
    = Some (MInt 1) ∧
  PipelineOrchestrator.get_pipeline_metrics (snd run) !! "successful_executions"
    = Some (MInt 0).
Proof. vm_compute. repeat split; reflexivity. Qed.

(** X1 on a run in which summarize fails and its fallback is merged. *)
Lemma context_flows_through_steps_witness :
  let config := demo_config (Some demo_fallbacks) true true in
  let run := PipelineOrchestrator.execute_pipeline_locals config (failing_first 2) log_saved
               demo_input QUICK (Some "run-1") (PipelineOrchestrator.init config 100) in
  ∃ ex, fst run = Ok ex ∧
        flows config demo_input (PipelineExecution.steps ex) (current_data (snd (snd run))).
Proof.
  intros config run. destruct run as [r [w' l']] eqn:Hrun.
  assert (∃ ex, r = Ok ex) as [ex ->].
  { apply (f_equal fst) in Hrun. simpl in Hrun. subst r. vm_compute. by eexists. }
  exists ex. split; [reflexivity|].
  apply (context_flows_through_steps config (failing_first 2) log_saved demo_input QUICK
           (Some "run-1") (PipelineOrchestrator.init config 100) ex w' l' Hrun).
Defined.

(** X2 on a run in which every post succeeds and the log file cannot be
    written: the record is returned, and the trace has no log write. *)
Lemma posts_belong_to_recorded_steps_witness :
  let config := demo_config None true true in
  let w := PipelineOrchestrator.init config 100 in
  let run := PipelineOrchestrator.execute_pipeline config always_ok logs_read_only
               demo_input QUICK (Some "run-1") w in
  ∃ ex new,
    fst run = Ok ex ∧
    trace (snd run) = new ++ trace w ∧
    Forall (recorded_event config (PipelineExecution.steps ex)) new.
Proof.
  intros config w run.
  destruct (posts_belong_to_recorded_steps config always_ok logs_read_only demo_input QUICK
              (Some "run-1") w) as (ex & new & _ & Hr & Htrace & Hall).
  exists ex, new. split; [exact Hr|]. split; [exact Htrace|exact Hall].
Defined.

(** X3 on a run that stops at summarize: the breaker of noopur is untouched. *)
Lemma run_touches_recorded_breakers_only_witness :
  let config := demo_config None true true in
  let w := PipelineOrchestrator.init config 100 in
  let run := PipelineOrchestrator.execute_pipeline config always_failing log_saved demo_input QUICK
               (Some "run-1") w in
  circuit_breakers (snd run) !! "noopur" = circuit_breakers w !! "noopur".
Proof.
  intros config w run. destruct run as [r w'] eqn:Hrun.
  assert (∃ ex step, r = Ok ex ∧ PipelineExecution.steps ex = [step] ∧
                     PipelineStep.component step = "seeya") as (ex & step & -> & Hsteps & Hc).
  { apply (f_equal fst) in Hrun. simpl in Hrun. subst r. vm_compute.
    eexists _, _. repeat split. }
  destruct (run_touches_recorded_breakers_only config always_failing log_saved demo_input QUICK
              (Some "run-1") w ex w' Hrun) as [_ Hother].
  apply Hother. intros step' Hin. rewrite Hsteps in Hin.
  apply list_elem_of_singleton in Hin. subst step'. rewrite Hc. discriminate.
Defined.

(** X4 on a run in which every post takes one second. *)
Lemma step_timeline_witness :
  let config := demo_config None true true in
  let run := PipelineOrchestrator.execute_pipeline config always_ok log_saved demo_input QUICK
               (Some "run-1") (PipelineOrchestrator.init config 100) in
  ∃ ex ended,
    fst run = Ok ex ∧ PipelineExecution.end_time ex = Some ended ∧
    timeline (PipelineExecution.start_time ex) (PipelineExecution.steps ex) ended.
Proof.
  intros config run. destruct run as [r w'] eqn:Hrun.
  assert (∃ ex, r = Ok ex) as [ex ->].
  { apply (f_equal fst) in Hrun. simpl in Hrun. subst r. vm_compute. by eexists. }
  destruct (step_timeline config always_ok log_saved demo_input QUICK (Some "run-1")
              (PipelineOrchestrator.init config 100) ex w')
    as (ended & total & _ & Hend & _ & _ & Htimeline & _).
  - intros n. simpl. lia.
  - exact Hrun.
  - exists ex, ended. split; [reflexivity|]. split; [exact Hend|exact Htimeline].
Defined.

(** X5 on a run whose sequence names a step without configuration. *)
Lemma execution_outcome_causes_witness :
  let config := demo_unrouted_config in
  let run := PipelineOrchestrator.execute_pipeline config always_ok log_saved demo_input QUICK
               (Some "run-1") (PipelineOrchestrator.init config 100) in
  ∃ ex, fst run = Ok ex ∧ PipelineExecution.status ex = FAILED ∧
        PipelineExecution.error ex = Some "Step configuration not found: metrics".
Proof.
  intros config run. destruct run as [r w'] eqn:Hrun.
  assert (∃ ex, r = Ok ex ∧ PipelineExecution.status ex = FAILED ∧
                PipelineExecution.error ex = Some "Step configuration not found: metrics")
    as (ex & -> & Hst & Herr).
  { apply (f_equal fst) in Hrun. simpl in Hrun. subst r. vm_compute.
    eexists. repeat split. }
  destruct (execution_outcome_causes config always_ok log_saved demo_input QUICK (Some "run-1")
              (PipelineOrchestrator.init config 100) ex w' Hrun)
    as [(Hc & _)|[(Hf & _)|(Hf & _)]].
  - rewrite Hst in Hc. discriminate Hc.
  - exists ex. split; [reflexivity|]. split; [exact Hf|exact Herr].
  - exists ex. split; [reflexivity|]. split; [exact Hf|exact Herr].
Defined.

(** X7 on a synchronous run in which every post fails. *)
Lemma simple_mock_fields_present_witness :
  let config := demo_config None true true in
  let run := SimplePipelineOrchestrator.execute_pipeline_locals config always_failing
               demo_input QUICK (Some "run-1") (SimplePipelineOrchestrator.init 100) in
  "summary" ∈ dom (current_data (snd (snd run))).
Proof.
  intros config run. destruct run as [r [w' l']] eqn:Hrun.
  assert (∃ ex step rest, r = Ok ex ∧ PipelineExecution.status ex = COMPLETED ∧
                          PipelineExecution.steps ex = step :: rest ∧
                          PipelineStep.status step = FAILED ∧
                          PipelineStep.name step = "summarize")
    as (ex & step & rest & -> & Hst & Hsteps & Hfailed & Hname).
  { apply (f_equal fst) in Hrun. simpl in Hrun. subst r. vm_compute.
    eexists _, _, _. repeat split. }
  apply (simple_mock_fields_present config always_failing demo_input QUICK
           (Some "run-1") (SimplePipelineOrchestrator.init 100) ex w' l' step "summary"
           Hrun Hst).
  - rewrite Hsteps. apply list_elem_of_here.
  - exact Hfailed.
  - rewrite Hname. vm_compute. apply list_elem_of_further, list_elem_of_here.
Defined.

(** X8 on the record of a failed step. *)
Lemma step_records_well_formed_witness :
  let config := demo_config None true true in
  let run := PipelineOrchestrator.execute_pipeline config always_failing log_saved demo_input QUICK
               (Some "run-1") (PipelineOrchestrator.init config 100) in
  ∃ ex step, fst run = Ok ex ∧ PipelineExecution.steps ex = [step] ∧
             well_formed_record step.
Proof.
  intros config run. destruct run as [r w'] eqn:Hrun.
  assert (∃ ex step, r = Ok ex ∧ PipelineExecution.steps ex = [step])
    as (ex & step & -> & Hsteps).
  { apply (f_equal fst) in Hrun. simpl in Hrun. subst r. vm_compute.
    eexists _, _. repeat split. }
  exists ex, step. split; [reflexivity|]. split; [exact Hsteps|].
  apply (step_records_well_formed config always_failing log_saved demo_input QUICK (Some "run-1")
           (PipelineOrchestrator.init config 100) ex w' step).
  - left. exact Hrun.
  - rewrite Hsteps. apply list_elem_of_here.
Defined.

(** X10 on a call in which both attempts fail. *)
Lemma retry_delay_schedule_witness :
  let config := demo_config None true true in
  let w := PipelineOrchestrator.init config 100 in
  let run := PipelineOrchestrator._execute_step_with_retry config always_failing
               demo_summarize demo_input w in
  ∃ new,
    trace (snd run) = new ++ trace w ∧
    sleeps new = delay_at config <$> range (Z.of_nat (length (sleeps new))) ∧
    length (sleeps new) = Nat.min (failed_attempts (snd run) - failed_attempts w) (Z.to_nat 1).
Proof.
  intros config w run.
  apply (retry_delay_schedule config always_failing demo_summarize demo_input w
           (fst run) (snd run)).
  - vm_compute. discriminate.
  - simpl. lia.
  - apply surjective_pairing.
Defined.

(** X11 on a call whose first attempt fails. *)
Lemma empty_retry_delays_mask_failure_witness :
  let config := demo_no_delays_config in
  let w := PipelineOrchestrator.init config 100 in
  let run := PipelineOrchestrator._execute_step_with_retry config always_failing
               demo_summarize demo_input w in
  fst run = Raise (IndexError "list index out of range") ∧
  sleep_count (snd run) = sleep_count w.
Proof.
  intros config w run.
  destruct (empty_retry_delays_mask_failure config always_failing demo_summarize
              demo_input w (fst run) (snd run)) as (_ & _ & Hsl & Hraise).
  - reflexivity.
  - simpl. lia.
  - apply surjective_pairing.
  - split; [|exact Hsl]. apply Hraise. vm_compute. reflexivity.
Defined.

(** X12 on a run that stops at summarize. *)
Lemma posts_within_budget_witness :
  let config := demo_config None true true in
  let w := PipelineOrchestrator.init config 100 in
  let run := PipelineOrchestrator.execute_pipeline config always_failing log_saved demo_input QUICK
               (Some "run-1") w in
  (http_calls (snd run) <= http_calls w + run_budget config ["summarize"; "respond"])%nat.
Proof.
  intros config w run. destruct run as [r w'] eqn:Hrun.
  assert (∃ ex, r = Ok ex) as [ex ->].
  { apply (f_equal fst) in Hrun. simpl in Hrun. subst r. vm_compute. by eexists. }
  destruct (posts_within_budget config always_failing log_saved demo_input QUICK (Some "run-1")
              w ex w' Hrun) as [Hposts Hbudget].
  cbn [snd]. change (PipelineOrchestrator._get_step_sequence config QUICK)
    with ["summarize"; "respond"] in Hbudget. lia.
Defined.

(** X13 in the state after two failed runs. *)
Lemma breakers_cover_components_witness :
  let config := demo_config None true true in
  dom (circuit_breakers demo_open_world) = dom (components config).
Proof.
  intros config.
  destruct (breakers_cover_components config always_failing log_saved demo_open_world "seeya")
    as [Hdom _].
  - apply demo_open_world_reachable.
  - exact Hdom.
Defined.

(** X14 for the breaker that the two failed runs opened. *)
Lemma closed_iff_below_threshold_witness :
  let config := demo_config None true true in
  breaker_counts config {| failures := 2; last_failure := Some 106; state := open |}.
Proof.
  intros config.
  apply (closed_iff_below_threshold config always_failing log_saved demo_open_world "seeya").
  - simpl. lia.
  - apply demo_open_world_reachable.
  - vm_compute. reflexivity.
Defined.

(** X15 for a step of the component ghost. *)
Lemma unconfigured_component_raises_key_error_witness :
  let config := demo_config None true true in
  let w := PipelineOrchestrator.init config 100 in
  let run := PipelineOrchestrator._execute_step_with_retry config always_ok
               demo_orphan demo_input w in
  fst run = Raise (KeyError "ghost") ∧ http_calls (snd run) = http_calls w.
Proof.
  intros config w run.
  destruct (unconfigured_component_raises_key_error config always_ok log_saved demo_orphan
              demo_input w (fst run) (snd run)) as (Hr & Hc & _).
  - apply reachable_init.
  - vm_compute. reflexivity.
  - simpl. lia.
  - vm_compute. discriminate.
  - apply surjective_pairing.
  - split; [exact Hr|exact Hc].
Defined.

(** X16 for the retry count -1. *)
Lemma negative_retry_count_makes_no_attempt_witness :
  let config := demo_config None true true in
  let w := PipelineOrchestrator.init config 100 in
  SimplePipelineOrchestrator._execute_step_with_retry config always_ok
    demo_negative demo_input w
  = (Raise (TypeError "exceptions must derive from BaseException"), w).
Proof.
  intros config w.
  destruct (negative_retry_count_makes_no_attempt config always_ok demo_negative (-1))
    as [_ Hsync].
  - reflexivity.
  - lia.
  - apply Hsync.
Defined.

(** X17 on a call in which both attempts fail. *)
Lemma simple_retry_waits_one_second_witness :
  let config := demo_config None true true in
  let w := SimplePipelineOrchestrator.init 100 in
  let run := SimplePipelineOrchestrator._execute_step_with_retry config always_failing
               demo_summarize demo_input w in
  sleep_count (snd run) = (sleep_count w + Z.to_nat 1)%nat.
Proof.
  intros config w run.
  destruct (simple_retry_waits_one_second config always_failing demo_summarize
              demo_input w (fst run) (snd run)) as (_ & _ & _ & Hraise).
  - simpl. lia.
  - apply surjective_pairing.
  - destruct (Hraise (RequestException "connection refused")) as [Hsl _].
    + vm_compute. reflexivity.
    + exact Hsl.
Defined.

(** X21 for two environments that differ on the disabled component. *)
Lemma disabled_components_are_not_probed_witness :
  PipelineOrchestrator.get_component_health demo_health_config probe_ok
  = PipelineOrchestrator.get_component_health demo_health_config probe_noopur_down.
Proof.
  destruct (disabled_components_are_not_probed demo_health_config probe_ok
              probe_noopur_down) as [Hsame _].
  - intros component_name component_config Hcc Hen.
    unfold probe_ok, probe_noopur_down.
    destruct (String.eqb_spec component_name "noopur") as [->|Hne]; [|reflexivity].
    vm_compute in Hcc. injection Hcc as <-. discriminate Hen.
  - exact Hsame.
Defined.

(** X22 after one completed run. *)
Lemma success_rate_bounds_witness :
  let config := demo_config None true true in
  let w := snd (PipelineOrchestrator.execute_pipeline config always_ok log_saved demo_input QUICK
                  (Some "run-1") (PipelineOrchestrator.init config 100)) in
  ∃ rate,
    PipelineOrchestrator.get_pipeline_metrics w !! "success_rate_percent"
      = Some (MFloat (rate # 100)) ∧
    0 <= rate <= 10000.
Proof.
  intros config w.
  destruct (success_rate_bounds w) as (rate & last_execution & Hrate & Hbounds & _).
  - vm_compute. discriminate.
  - exists rate. split; [exact Hrate|exact Hbounds].
Defined.

(** X24 on a run in full mode. *)
Lemma default_config_runs_configured_steps_witness :
  let unread := error_handling (demo_config None true true) in
  let config := SimplePipelineOrchestrator._load_config NotFound unread in
  let run := SimplePipelineOrchestrator.execute_pipeline config always_ok demo_input FULL
               (Some "run-1") (SimplePipelineOrchestrator.init 100) in
  ∃ ex, fst run = Ok ex ∧
        PipelineStep.name <$> PipelineExecution.steps ex
        = ["summarize"; "process_summary"; "respond"].
Proof.
  intros unread config run. destruct run as [r w'] eqn:Hrun.
  assert (∃ ex, r = Ok ex ∧ PipelineExecution.status ex = COMPLETED) as (ex & -> & Hst).
  { apply (f_equal fst) in Hrun. simpl in Hrun. subst r. vm_compute.
    eexists. repeat split. }
  destruct (default_config_runs_configured_steps always_ok NotFound unread demo_input FULL
              (Some "run-1") (SimplePipelineOrchestrator.init 100) ex w')
    as (_ & Hcompleted & _).
  - left. reflexivity.
  - exact Hrun.
  - exists ex. split; [reflexivity|]. exact (Hcompleted Hst).
Defined.

(** X25 one second after the breaker of seeya was opened. *)
Lemma open_breaker_fails_fast_witness :
  let config := demo_config None true true in
  let w := set_clock 131 (record_failures_at config "seeya" [100; 130]
                            (PipelineOrchestrator.init config 100)) in
  let run := PipelineOrchestrator.execute_pipeline config always_ok log_saved
               demo_input QUICK (Some "run-1") w in
  ∃ ex, fst run = Ok ex ∧ PipelineExecution.status ex = FAILED ∧
        trace (snd run) = [EvSaveLog (PipelineExecution.execution_id ex)] ++ trace w ∧
        circuit_breakers (snd run) = circuit_breakers w.
Proof.
  intros config w run.
  destruct (open_breaker_fails_fast config always_ok log_saved demo_input QUICK
              (Some "run-1") w "summarize" ["respond"] demo_summarize
              {| failures := 2; last_failure := Some 130; state := open |})
    as (ex & step & Hr & _ & Hfailed & _ & _ & _ & _ & _ & Htrace & Hcb).
  - reflexivity.
  - reflexivity.
  - reflexivity.
  - apply list_elem_of_here.
  - vm_compute. reflexivity.
  - reflexivity.
  - vm_compute. reflexivity.
  - reflexivity.
  - exists 130. split; [reflexivity|]. vm_compute. discriminate.
  - exists ex. split; [exact Hr|]. split; [exact Hfailed|]. split; [exact Htrace|exact Hcb].
Defined.
